(** * Retrieval subsystem of the cheat sheet manager

    A shallow embedding of [Next_lvl/cheatsheet-manager-updates.py]
    (class [CheatSheetManager]: keyword taxonomy, prefix test, substring
    search, migration) and of [Next_lvl/advanced-search.py] (class
    [SearchEngine]: tokenizer, inverted index, full-text, fuzzy and TF-IDF
    search), followed by the properties of the specification.

    Conventions of the model.
    - Python [str] is [string]; the model covers 7-bit text, where
      [str.lower], the regular expression classes [\w] and [\s] and
      [str.split] have their ASCII meaning.  Bytes above 127 are treated as
      uncased punctuation.
    - A cheat sheet (a Python dict) is a record; the optional key
      ["keyword_path"] is an [option].
    - The taxonomy (nested dicts, insertion ordered) is a tree of
      association lists.
    - The inverted index (dict of sets of positions) is a
      [gmap string (gset nat)].
    - Floats that are only compared (similarity scores, thresholds) are
      rationals.
    - An optional argument ([None] by default) is an [option]. *)

From Stdlib Require Import QArith.
From Stdlib Require Import Ascii String.
From stdpp Require Import gmap strings list fin_maps sorting.
Close Scope Q_scope.

Set Warnings "-register-all".

(** ** Text primitives *)

Definition in_range (lo hi : nat) (c : ascii) : bool :=
  let n := nat_of_ascii c in Nat.leb lo n && Nat.leb n hi.

Definition is_upper (c : ascii) : bool := in_range 65 90 c.
Definition is_lower (c : ascii) : bool := in_range 97 122 c.
Definition is_digit (c : ascii) : bool := in_range 48 57 c.

(** [\w] on 7-bit text: letters, digits and the underscore. *)
Definition is_word (c : ascii) : bool :=
  is_upper c || is_lower c || is_digit c || Ascii.eqb c "_".

(** [\s] and the separators of [str.split()]: TAB..CR, FS..US and space. *)
Definition is_space (c : ascii) : bool :=
  in_range 9 13 c || in_range 28 32 c.

Definition lower_char (c : ascii) : ascii :=
  if is_upper c then ascii_of_nat (nat_of_ascii c + 32) else c.

(** [s.lower()] *)
Fixpoint lower (s : string) : string :=
  match s with
  | EmptyString => EmptyString
  | String c r => String (lower_char c) (lower r)
  end.

(** [s.startswith(p)] *)
Fixpoint startswith (p s : string) : bool :=
  match p, s with
  | EmptyString, _ => true
  | String _ _, EmptyString => false
  | String a p', String b s' => Ascii.eqb a b && startswith p' s'
  end.

(** [q in s] on strings: [q] occurs in [s] as a contiguous block. *)
Fixpoint str_in (q s : string) : bool :=
  startswith q s ||
  match s with
  | EmptyString => false
  | String _ r => str_in q r
  end.

(** [" ".join(l)] *)
Fixpoint join_space (l : list string) : string :=
  match l with
  | [] => ""
  | [x] => x
  | x :: r => x +:+ " " +:+ join_space r
  end.

(** ** Tokenizer: [SearchEngine._tokenize] *)

(** [re.sub(r'[^\w\s]', ' ', text)]: every character that is neither a word
    character nor white space becomes a space. *)
Definition sub_punct_char (c : ascii) : ascii :=
  if is_word c || is_space c then c else " "%char.

Fixpoint sub_punct (s : string) : string :=
  match s with
  | EmptyString => EmptyString
  | String c r => String (sub_punct_char c) (sub_punct r)
  end.

(** [text.split()]: maximal runs of characters that are not white space;
    [cur] is the run being read, most recent character first. *)
Fixpoint split_go (s : string) (cur : list ascii) : list string :=
  match s with
  | EmptyString =>
      match cur with
      | [] => []
      | _ => [string_of_list_ascii (rev cur)]
      end
  | String c r =>
      if is_space c then
        match cur with
        | [] => split_go r []
        | _ => string_of_list_ascii (rev cur) :: split_go r []
        end
      else split_go r (c :: cur)
  end.

Definition split (s : string) : list string := split_go s [].

Definition nonempty (s : string) : bool :=
  match s with EmptyString => false | _ => true end.

Definition _tokenize (text : string) : list string :=
  if negb (nonempty text) then []
  else
    let tokens := split (sub_punct (lower text)) in
    List.filter (fun token => nonempty token) tokens.

(** ** Data model *)

(** A cheat sheet as stored under ["cheatsheets"]. *)
Record cheatsheet := CheatSheet {
  name : string;
  content : string;
  categories : list string;
  keyword_path : option (list string);
  description : string;
  created_at : string;
  updated_at : string
}.

Global Instance cheatsheet_eq_dec : EqDecision cheatsheet.
Proof. solve_decision. Defined.

(** A node of ["keyword_taxonomy"]: keyword to child node, in insertion
    order. *)
Inductive taxonomy := Node (children : list (string * taxonomy)).

Definition children_of (t : taxonomy) : list (string * taxonomy) :=
  match t with Node kids => kids end.

(** The in-memory store [self.cheatsheets]. *)
Record store := Store {
  cheatsheets : list cheatsheet;
  keyword_taxonomy : taxonomy
}.

(** ** Dictionary operations on a taxonomy node *)

(** [current[keyword]] when the key is present. *)
Fixpoint get_child (k : string) (kids : list (string * taxonomy)) : option taxonomy :=
  match kids with
  | [] => None
  | (k', c) :: r => if String.eqb k k' then Some c else get_child k r
  end.

(** [keyword in current] *)
Definition has_key (k : string) (kids : list (string * taxonomy)) : bool :=
  match get_child k kids with Some _ => true | None => false end.

(** Replaces the value stored under a present key, keeping its position. *)
Fixpoint alter_child (f : taxonomy -> taxonomy) (k : string)
    (kids : list (string * taxonomy)) : list (string * taxonomy) :=
  match kids with
  | [] => []
  | (k', c) :: r =>
      if String.eqb k k' then (k', f c) :: r
      else (k', c) :: alter_child f k r
  end.

(** ** [CheatSheetManager._ensure_keyword_path_exists]

    The loop walks down from the root; a missing keyword is first bound to
    an empty node (appended, as a new dict key is), then the walk continues
    inside it.  The function returns the mutated taxonomy. *)
Fixpoint _ensure_keyword_path_exists (current : taxonomy) (keyword_path : list string)
    : taxonomy :=
  match keyword_path with
  | [] => current
  | keyword :: rest =>
      let kids := children_of current in
      let kids' := if has_key keyword kids then kids
                   else kids ++ [(keyword, Node [])] in
      Node (alter_child (fun child => _ensure_keyword_path_exists child rest)
              keyword kids')
  end.

(** ** [CheatSheetManager.get_keyword_children] *)
Fixpoint walk_children (current : taxonomy) (path : list string) : list string :=
  match path with
  | [] => map fst (children_of current)
  | keyword :: rest =>
      match get_child keyword (children_of current) with
      | None => []
      | Some child => walk_children child rest
      end
  end.

Definition get_keyword_children (st : store) (path : option (list string)) : list string :=
  let path := match path with None => [] | Some p => p end in
  walk_children (keyword_taxonomy st) path.

(** ** [CheatSheetManager._is_prefix]

    [loop_prefix i prefix full_path] is the [for i, keyword in
    enumerate(prefix)] loop from position [i] on.  The read
    [full_path[i]] is in range because of the length test before the loop
    (lemma [is_prefix_reads_in_range]); the [None] branch stands for the
    [IndexError] that cannot happen. *)
Fixpoint loop_prefix (i : nat) (prefix full_path : list string) : bool :=
  match prefix with
  | [] => true
  | keyword :: rest =>
      match full_path !! i with
      | Some x => if negb (String.eqb x keyword) then false
                  else loop_prefix (S i) rest full_path
      | None => false
      end
  end.

Definition _is_prefix (prefix full_path : list string) : bool :=
  if Nat.ltb (length full_path) (length prefix) then false
  else loop_prefix 0 prefix full_path.

(** ** [CheatSheetManager.search_by_keyword_path] *)
Definition list_eqb (a b : list string) : bool := bool_decide (a = b).

Definition search_by_keyword_path (docs : list cheatsheet) (path : list string)
    (exact_match : bool) : list cheatsheet :=
  List.filter (fun cs =>
    match keyword_path cs with
    | None => false
    | Some kp =>
        if exact_match && list_eqb kp path then true
        else if negb exact_match && _is_prefix path kp then true
        else false
    end) docs.

(** Truth value of an optional list argument: [None] and [[]] are false. *)
Definition truthy {A} (l : option (list A)) : bool :=
  match l with
  | Some (_ :: _) => true
  | _ => false
  end.

Definition or_default {A} (l : option (list A)) : list A :=
  match l with Some p => p | None => [] end.

(** ** [CheatSheetManager.search_cheatsheets]

    The body of the [for cs in cheatsheets] loop: the first field that
    contains the lower-cased query keeps the sheet. *)
Definition matches_query (query : string) (cs : cheatsheet) : bool :=
  if str_in query (lower (name cs)) then true
  else if existsb (fun cat => str_in query (lower cat)) (categories cs) then true
  else if match keyword_path cs with
          | Some kp => existsb (fun kw => str_in query (lower kw)) kp
          | None => false
          end then true
  else if str_in query (lower (description cs)) then true
  else if str_in query (lower (content cs)) then true
  else false.

Definition search_cheatsheets (docs : list cheatsheet) (query : string)
    (path : option (list string)) : list cheatsheet :=
  let candidates :=
    if truthy path then search_by_keyword_path docs (or_default path) false
    else docs in
  let query := lower query in
  List.filter (matches_query query) candidates.

(** ** [CheatSheetManager.add_cheatsheet] *)

Definition is_name_char (c : ascii) : bool :=
  is_upper c || is_lower c || is_digit c || Ascii.eqb c "_" || Ascii.eqb c "-".

(** [re.match(r'^[a-zA-Z0-9_-]+$', name)]: one or more name characters up
    to the end, where [$] also accepts one final line feed. *)
Fixpoint name_tail (s : string) : bool :=
  match s with
  | EmptyString => true
  | String c r =>
      if is_name_char c then name_tail r
      else Ascii.eqb c (ascii_of_nat 10) && negb (nonempty r)
  end.

Definition valid_name (s : string) : bool :=
  match s with
  | EmptyString => false
  | String c r => is_name_char c && name_tail r
  end.

(** [now] is [datetime.now().isoformat()] and [saved] the outcome of
    [_save_cheatsheets], which writes the file and leaves the store as it
    is.  The result is the returned flag and the store afterwards. *)
Definition add_cheatsheet (now : string) (saved : bool) (st : store)
    (name0 content0 : string) (categories0 : option (list string))
    (keyword_path0 : option (list string)) (description0 : option string)
    : bool * store :=
  if negb (valid_name name0) then (false, st)
  else if existsb (fun cs => String.eqb (name cs) name0) (cheatsheets st) then (false, st)
  else
    let description1 :=
      match description0 with
      | Some d => d
      | None => ""
      end in
    let new_cheatsheet :=
      {| name := name0; content := content0;
         categories := or_default categories0;
         keyword_path := None;
         description := description1;
         created_at := now; updated_at := now |} in
    if truthy keyword_path0 then
      let new_cheatsheet :=
        {| name := name new_cheatsheet; content := content new_cheatsheet;
           categories := categories new_cheatsheet;
           keyword_path := Some (or_default keyword_path0);
           description := description new_cheatsheet;
           created_at := created_at new_cheatsheet;
           updated_at := updated_at new_cheatsheet |} in
      let taxonomy' :=
        _ensure_keyword_path_exists (keyword_taxonomy st) (or_default keyword_path0) in
      (saved, {| cheatsheets := cheatsheets st ++ [new_cheatsheet];
                 keyword_taxonomy := taxonomy' |})
    else
      (saved, {| cheatsheets := cheatsheets st ++ [new_cheatsheet];
                 keyword_taxonomy := keyword_taxonomy st |}).

(** ** [CheatSheetManager.migrate_categories_to_paths] *)

Definition with_keyword_path (cs : cheatsheet) (kp : list string) : cheatsheet :=
  {| name := name cs; content := content cs; categories := categories cs;
     keyword_path := Some kp; description := description cs;
     created_at := created_at cs; updated_at := updated_at cs |}.

(** The [for cs in cheatsheets] loop: the sheets already visited are
    returned in place, with the taxonomy and the counter threaded through. *)
Fixpoint migrate_loop (default_root : string) (docs : list cheatsheet)
    (tax : taxonomy) (migrated : nat) : list cheatsheet * taxonomy * nat :=
  match docs with
  | [] => ([], tax, migrated)
  | cs :: rest =>
      match keyword_path cs, categories cs with
      | None, main_category :: _ =>
          let kp := [default_root; main_category] in
          let tax' := _ensure_keyword_path_exists tax kp in
          let '(rest', tax'', n) := migrate_loop default_root rest tax' (S migrated) in
          (with_keyword_path cs kp :: rest', tax'', n)
      | _, _ =>
          let '(rest', tax', n) := migrate_loop default_root rest tax migrated in
          (cs :: rest', tax', n)
      end
  end.

Definition migrate_categories_to_paths (st : store) (default_root : string)
    : nat * store :=
  let '(docs', tax', migrated) :=
    migrate_loop default_root (cheatsheets st) (keyword_taxonomy st) 0 in
  (migrated, {| cheatsheets := docs'; keyword_taxonomy := tax' |}).

(** ** [SearchEngine._create_index] *)

(** [if token not in index: index[token] = set()] then
    [index[token].add(i)]. *)
Definition index_add (i : nat) (token : string) (index : gmap string (gset nat))
    : gmap string (gset nat) :=
  let index :=
    match index !! token with
    | None => <[token := ∅]> index
    | Some _ => index
    end in
  alter (fun postings => postings ∪ {[i]}) token index.

Definition index_tokens (i : nat) (tokens : list string)
    (index : gmap string (gset nat)) : gmap string (gset nat) :=
  foldl (fun idx token => index_add i token idx) index tokens.

Definition index_doc (i : nat) (cs : cheatsheet) (index : gmap string (gset nat))
    : gmap string (gset nat) :=
  let index := index_tokens i (_tokenize (name cs)) index in
  let index :=
    foldl (fun idx category => index_tokens i (_tokenize category) idx)
      index (categories cs) in
  let index :=
    match keyword_path cs with
    | Some kp =>
        foldl (fun idx keyword => index_tokens i (_tokenize keyword) idx) index kp
    | None => index
    end in
  let index := index_tokens i (_tokenize (description cs)) index in
  index_tokens i (_tokenize (content cs)) index.

(** [for i, cs in enumerate(cheatsheets)] from position [i] on. *)
Fixpoint index_loop (i : nat) (docs : list cheatsheet)
    (index : gmap string (gset nat)) : gmap string (gset nat) :=
  match docs with
  | [] => index
  | cs :: rest => index_loop (S i) rest (index_doc i cs index)
  end.

Definition _create_index (docs : list cheatsheet) : gmap string (gset nat) :=
  index_loop 0 docs ∅.

(** ** [SearchEngine.full_text_search] *)

(** The loop over the query tokens: the outer [None] is the early
    [return []] on a token that the index does not have, the inner option
    is [matching_docs] ([None] until the first token is seen). *)
Fixpoint intersect_loop (index : gmap string (gset nat)) (tokens : list string)
    (matching_docs : option (gset nat)) : option (option (gset nat)) :=
  match tokens with
  | [] => Some matching_docs
  | token :: rest =>
      match index !! token with
      | Some postings =>
          let matching_docs' :=
            match matching_docs with
            | None => postings
            | Some m => m ∩ postings
            end in
          intersect_loop index rest (Some matching_docs')
      | None => None
      end
  end.

(** [[cheatsheets[i] for i in matching_docs]].  Python leaves the order
    in which a set is iterated open; for positions of a list the
    interpreter yields them in increasing order in the common case, and
    that order is taken here.  The properties below only use which
    positions are in the set.  Every position comes from the enumeration
    of the same list, so each read is in range (lemma
    [postings_in_range]). *)
Definition set_iter (ids : gset nat) : list nat :=
  merge_sort Nat.le (elements ids).

Definition sheets_at (docs : list cheatsheet) (ids : gset nat) : list cheatsheet :=
  omap (fun i => docs !! i) (set_iter ids).

Definition full_text_search (docs : list cheatsheet) (query : string)
    (keyword_path0 : option (list string)) : list cheatsheet :=
  let query_tokens := _tokenize query in
  match query_tokens with
  | [] => []
  | _ =>
      let index := _create_index docs in
      match intersect_loop index query_tokens None with
      | None => []
      | Some None => []
      | Some (Some matching_docs) =>
          let results := sheets_at docs matching_docs in
          if truthy keyword_path0 then
            List.filter (fun cs =>
              match keyword_path cs with
              | Some kp => _is_prefix (or_default keyword_path0) kp
              | None => false
              end) results
          else results
      end
  end.

(** ** [difflib.SequenceMatcher(None, a, b).ratio()]

    The standard library matcher that [fuzzy_search] calls, with its
    default arguments: no junk predicate, and the automatic heuristic that
    drops popular elements of a long second sequence. *)
Module Difflib.
Section SequenceMatcher.

Variables a b : list ascii.

(** Positions of [elt] in [b], increasing. *)
Definition positions (elt : ascii) : list nat :=
  List.filter (fun j => bool_decide (b !! j = Some elt)) (seq 0 (length b)).

(** [__chain_b]: when [b] has 200 elements or more, an element that
    occurs more than [n // 100 + 1] times is popular and loses its
    entry in [b2j]. *)
Definition popular (elt : ascii) : bool :=
  Nat.leb 200 (length b) &&
  Nat.ltb (length b / 100 + 1) (length (positions elt)).

Definition b2j (elt : ascii) : list nat :=
  if popular elt then [] else positions elt.

(** No junk predicate was given, so the junk set is empty. *)
Definition isbjunk (elt : ascii) : bool := false.

(** [j2len.get(j-1, 0)]: no key is negative. *)
Definition j2lenget (j2len : gmap nat nat) (j : nat) : nat :=
  match j with
  | O => 0
  | S j' => default 0 (j2len !! j')
  end.

(** The loop [for j in b2j.get(a[i], nothing)] for one [i]; a match is
    the triple [(besti, bestj, bestsize)]. *)
Fixpoint scan_row (i blo bhi : nat) (js : list nat) (j2len newj2len : gmap nat nat)
    (best : nat * nat * nat) : gmap nat nat * (nat * nat * nat) :=
  match js with
  | [] => (newj2len, best)
  | j :: js' =>
      if Nat.ltb j blo then scan_row i blo bhi js' j2len newj2len best
      else if Nat.leb bhi j then (newj2len, best)
      else
        let k := j2lenget j2len j + 1 in
        let newj2len := <[j := k]> newj2len in
        let best :=
          if Nat.ltb (snd best) k then (i + 1 - k, j + 1 - k, k) else best in
        scan_row i blo bhi js' j2len newj2len best
  end.

(** The loop [for i in range(alo, ahi)]. *)
Fixpoint scan_rows (rows : list nat) (blo bhi : nat) (j2len : gmap nat nat)
    (best : nat * nat * nat) : nat * nat * nat :=
  match rows with
  | [] => best
  | i :: rows' =>
      let js := match a !! i with Some elt => b2j elt | None => [] end in
      let '(newj2len, best) := scan_row i blo bhi js j2len ∅ best in
      scan_rows rows' blo bhi newj2len best
  end.

Definition same_elt (x y : option ascii) : bool :=
  match x, y with
  | Some c, Some d => Ascii.eqb c d
  | _, _ => false
  end.

Definition junk_is (want : bool) (x : option ascii) : bool :=
  match x with
  | Some c => Bool.eqb (isbjunk c) want
  | None => false
  end.

(** [while besti > alo and bestj > blo and ...]: at most [n] rounds,
    and [n = besti] rounds always suffice. *)
Fixpoint extend_left (n : nat) (want : bool) (alo blo : nat)
    (best : nat * nat * nat) : nat * nat * nat :=
  match n with
  | O => best
  | S n' =>
      let '(besti, bestj, bestsize) := best in
      if Nat.ltb alo besti && Nat.ltb blo bestj &&
         junk_is want (b !! (bestj - 1)) &&
         same_elt (a !! (besti - 1)) (b !! (bestj - 1))
      then extend_left n' want alo blo (besti - 1, bestj - 1, bestsize + 1)
      else best
  end.

(** [while besti+bestsize < ahi and bestj+bestsize < bhi and ...]: at
    most [n] rounds, and [n = ahi] rounds always suffice. *)
Fixpoint extend_right (n : nat) (want : bool) (ahi bhi : nat)
    (best : nat * nat * nat) : nat * nat * nat :=
  match n with
  | O => best
  | S n' =>
      let '(besti, bestj, bestsize) := best in
      if Nat.ltb (besti + bestsize) ahi && Nat.ltb (bestj + bestsize) bhi &&
         junk_is want (b !! (bestj + bestsize)) &&
         same_elt (a !! (besti + bestsize)) (b !! (bestj + bestsize))
      then extend_right n' want ahi bhi (besti, bestj, bestsize + 1)
      else best
  end.

Definition find_longest_match (alo ahi blo bhi : nat) : nat * nat * nat :=
  let best := scan_rows (seq alo (ahi - alo)) blo bhi ∅ (alo, blo, 0) in
  let best := extend_left (fst (fst best)) false alo blo best in
  let best := extend_right ahi false ahi bhi best in
  let best := extend_left (fst (fst best)) true alo blo best in
  extend_right ahi true ahi bhi best.

(** [get_matching_blocks]: the work list [queue] is a stack whose top is
    the head of the list.  [None] when [fuel] rounds do not empty it. *)
Fixpoint blocks_loop (fuel : nat) (queue : list (nat * nat * nat * nat))
    (matching_blocks : list (nat * nat * nat)) : option (list (nat * nat * nat)) :=
  match queue with
  | [] => Some matching_blocks
  | (alo, ahi, blo, bhi) :: queue' =>
      match fuel with
      | O => None
      | S fuel' =>
          let '(i, j, k) := find_longest_match alo ahi blo bhi in
          if Nat.ltb 0 k then
            let queue1 :=
              if Nat.ltb alo i && Nat.ltb blo j
              then (alo, i, blo, j) :: queue' else queue' in
            let queue2 :=
              if Nat.ltb (i + k) ahi && Nat.ltb (j + k) bhi
              then (i + k, ahi, j + k, bhi) :: queue1 else queue1 in
            blocks_loop fuel' queue2 (matching_blocks ++ [(i, j, k)])
          else blocks_loop fuel' queue' matching_blocks
      end
  end.

(** Every round either finds no block or removes at least one element
    of [a] from the ranges still to visit, so [2 * len(a) + 1] rounds
    empty the queue (lemma [get_matching_blocks_total]). *)
Definition get_matching_blocks : option (list (nat * nat * nat)) :=
  blocks_loop (2 * length a + 1) [(0, length a, 0, length b)] [].

(** [sum(triple[-1] for triple in self.get_matching_blocks())] *)
Definition matches : nat :=
  match get_matching_blocks with
  | Some blocks => foldr (fun block acc => snd block + acc) 0 blocks
  | None => 0
  end.

(** [_calculate_ratio(matches, len(a) + len(b))] *)
Definition ratio : Q :=
  let len := length a + length b in
  match len with
  | O => 1%Q
  | S _ => (Z.of_nat (2 * matches) # Pos.of_nat len)%Q
  end.

End SequenceMatcher.
End Difflib.

(** [SequenceMatcher(None, a, b).ratio()] on strings. *)
Definition similarity_ratio (a b : string) : Q :=
  Difflib.ratio (list_ascii_of_string a) (list_ascii_of_string b).

(** ** Scores and the stable descending sort *)

(** [x < y] on scores. *)
Definition Qltb (x y : Q) : bool := negb (Qle_bool y x).

(** [max(x, y)]: the first argument unless the second is larger. *)
Definition Qmax2 (x y : Q) : Q := if Qltb x y then y else x.

(** [l.sort(key=..., reverse=True)].  The sort of Python lists is stable,
    also when reversed: elements with equal keys keep their order.  A
    stable sort has one possible result, so insertion from the right is
    the model: [insert_desc x l] puts [x] in front of the first element
    whose key is not larger. *)
Fixpoint insert_desc {A} (key : A -> Q) (x : A) (l : list A) : list A :=
  match l with
  | [] => [x]
  | y :: r => if Qltb (key x) (key y) then y :: insert_desc key x r else x :: l
  end.

Definition sort_desc {A} (key : A -> Q) (l : list A) : list A :=
  foldr (insert_desc key) [] l.

(** ** [SearchEngine.fuzzy_search] *)

Definition name_similarity (query : string) (cs : cheatsheet) : Q :=
  similarity_ratio query (lower (name cs)).

(** The two loops that fold [max] over a list of labels, from [0]. *)
Definition labels_similarity (query : string) (labels : list string) : Q :=
  foldl (fun best label => Qmax2 best (similarity_ratio query (lower label)))
    0%Q labels.

Definition category_similarity (query : string) (cs : cheatsheet) : Q :=
  labels_similarity query (categories cs).

Definition path_similarity (query : string) (cs : cheatsheet) : Q :=
  match keyword_path cs with
  | Some kp => labels_similarity query kp
  | None => 0%Q
  end.

(** [max(name_similarity, category_similarity, path_similarity)] for the
    lower-cased query. *)
Definition max_similarity (query : string) (cs : cheatsheet) : Q :=
  Qmax2 (Qmax2 (name_similarity query cs) (category_similarity query cs))
    (path_similarity query cs).

Definition fuzzy_search (docs : list cheatsheet) (query : string) (threshold : Q)
    : list cheatsheet :=
  let query := lower query in
  let results :=
    List.filter (fun r : cheatsheet * Q => Qle_bool threshold (snd r))
      (map (fun cs => (cs, max_similarity query cs)) docs) in
  let results := sort_desc snd results in
  map fst results.

(** ** [SearchEngine.basic_search] *)
Definition basic_search (docs : list cheatsheet) (query : string)
    (keyword_path0 : option (list string)) : list cheatsheet :=
  search_cheatsheets docs query keyword_path0.

(** ** [SearchEngine.semantic_search] *)

Inductive exn := ImportError | ValueError.

Inductive result (A : Type) :=
  | Return (x : A)
  | Raise (e : exn).
Arguments Return {A} x.
Arguments Raise {A} e.

(** What the run time offers of [sklearn]: whether each of the two import
    statements succeeds, whether fitting the vectorizer on a corpus raises
    (it does on a corpus without vocabulary), and the cosine similarity of
    the query with document [i] of the corpus. *)
Record runtime := Runtime {
  import_feature_extraction : bool;
  import_pairwise : bool;
  fit_raises : list string -> option exn;
  cosine_similarity : list string -> string -> nat -> Q
}.


(** The text of one sheet in the corpus. *)
Definition corpus_text (cs : cheatsheet) : string :=
  lower (name cs +:+ " " +:+ name cs +:+ " " +:+
         join_space (categories cs) +:+ " " +:+
         match keyword_path cs with
         | Some kp => join_space kp
         | None => ""
         end +:+ " " +:+
         description cs +:+ " " +:+
         content cs).

Definition fallback_warning : string :=
  "Warning: sklearn not available, falling back to basic search".

(** The result is the list of printed lines and the returned value or
    raised exception.  The first import statement stands before the [try];
    the second one and the library calls are inside it. *)
Definition semantic_search (rt : runtime) (docs : list cheatsheet) (query : string)
    (keyword_path0 : option (list string)) : list string * result (list cheatsheet) :=
  let candidates :=
    if truthy keyword_path0
    then search_by_keyword_path docs (or_default keyword_path0) false
    else docs in
  match candidates with
  | [] => ([], Return [])
  | _ =>
      let query_tokens := _tokenize query in
      match query_tokens with
      | [] => ([], Return [])
      | _ =>
          let corpus := map corpus_text candidates in
          if negb (import_feature_extraction rt) then ([], Raise ImportError)
          else
            let handler :=
              ([fallback_warning], Return (basic_search docs query keyword_path0)) in
            match fit_raises rt corpus with
            | Some ImportError => handler
            | Some e => ([], Raise e)
            | None =>
                if negb (import_pairwise rt) then handler
                else
                  let similarities :=
                    map (cosine_similarity rt corpus (join_space query_tokens))
                      (seq 0 (length corpus)) in
                  let similarity_scores := zip (seq 0 (length similarities)) similarities in
                  let similarity_scores := sort_desc snd similarity_scores in
                  ([], Return (omap (fun p : nat * Q =>
                                 if Qltb 0 (snd p) then candidates !! (fst p) else None)
                               similarity_scores))
            end
      end
  end.

(** [ensure_path_exists] on the store, as the method acts on [self]. *)
Definition ensure_path_exists (st : store) (path : list string) : store :=
  {| cheatsheets := cheatsheets st;
     keyword_taxonomy := _ensure_keyword_path_exists (keyword_taxonomy st) path |}.

(** A path resolves in the taxonomy: its keywords name a chain of nodes
    from the root. *)
Fixpoint chain_exists (t : taxonomy) (path : list string) : bool :=
  match path with
  | [] => true
  | keyword :: rest =>
      match get_child keyword (children_of t) with
      | Some child => chain_exists child rest
      | None => false
      end
  end.

(** All prefixes of a path, the empty one and the path itself included. *)
Definition prefixes (path : list string) : list (list string) :=
  map (fun n => take n path) (seq 0 (S (length path))).

(** One sheet respects the taxonomy: it has no keyword path, or every
    prefix of its path resolves. *)
Definition doc_ok (tax : taxonomy) (cs : cheatsheet) : bool :=
  match keyword_path cs with
  | Some kp => forallb (chain_exists tax) (prefixes kp)
  | None => true
  end.

(** The taxonomy invariant of the data model, as a check on a store. *)
Definition taxonomy_invariant (st : store) : bool :=
  forallb (doc_ok (keyword_taxonomy st)) (cheatsheets st).

(** ** Vocabulary of the properties *)

(** The store of the test suite: two sheets with a keyword path, one
    without, and the taxonomy that holds both paths. *)
Definition test_data : store :=
  {| cheatsheets :=
       [ CheatSheet "test1" "Test content 1" ["python"; "testing"]
           (Some ["Computers"; "Programming"; "Python"; "Testing"])
           "Test cheatsheet 1" "2025-03-16T12:00:00" "2025-03-16T12:00:00";
         CheatSheet "test2" "Test content 2" ["bash"; "terminal"]
           (Some ["Computers"; "Shell"; "Bash"])
           "Test cheatsheet 2" "2025-03-16T12:00:00" "2025-03-16T12:00:00";
         CheatSheet "test3" "Test content 3 without path" ["git"; "version-control"]
           None
           "Test cheatsheet 3 without path" "2025-03-16T12:00:00" "2025-03-16T12:00:00" ];
     keyword_taxonomy :=
       Node [("Computers",
              Node [("Programming", Node [("Python", Node [("Testing", Node [])])]);
                    ("Shell", Node [("Bash", Node [])])])] |}.

(** The posting set of a token: [index[token]], empty when the key is
    missing. *)
Definition postings (index : gmap string (gset nat)) (token : string) : gset nat :=
  default ∅ (index !! token).

(** All tokens that [_create_index] reads from one sheet, in its order:
    name, categories, keyword path, description, content. *)
Definition doc_tokens (cs : cheatsheet) : list string :=
  _tokenize (name cs) ++
  concat (map _tokenize (categories cs)) ++
  match keyword_path cs with
  | Some kp => concat (map _tokenize kp)
  | None => []
  end ++
  _tokenize (description cs) ++
  _tokenize (content cs).

(** A sheet contains a token in one of its indexed fields. *)
Definition contains_token (cs : cheatsheet) (token : string) : Prop :=
  token ∈ _tokenize (name cs) \/
  (exists category, category ∈ categories cs /\ token ∈ _tokenize category) \/
  (exists kp keyword,
     keyword_path cs = Some kp /\ keyword ∈ kp /\ token ∈ _tokenize keyword) \/
  token ∈ _tokenize (description cs) \/
  token ∈ _tokenize (content cs).

(** The three sheets of the examples of the specification. *)
Definition git_basics : cheatsheet :=
  CheatSheet "git-basics" "" [] (Some ["Computers"; "VCS"; "Git"]) "" "" "".
Definition git_advanced : cheatsheet :=
  CheatSheet "git-advanced" "" [] (Some ["Computers"; "VCS"; "Git"]) "" "" "".
Definition bash_tips : cheatsheet :=
  CheatSheet "bash-tips" "" [] (Some ["Computers"; "Shell"]) "" "" "".
Definition example_docs : list cheatsheet := [git_basics; git_advanced; bash_tips].

(** The path filter of the last step of [full_text_search]. *)
Definition under_path (keyword_path0 : option (list string)) (cs : cheatsheet) : Prop :=
  truthy keyword_path0 = true ->
  exists kp, keyword_path cs = Some kp /\ _is_prefix (or_default keyword_path0) kp = true.

(** The sheets that a search looks at: those under the path filter when one
    is given and not empty, all of them otherwise. *)
Definition candidates_of (docs : list cheatsheet) (keyword_path0 : option (list string))
    : list cheatsheet :=
  if truthy keyword_path0
  then search_by_keyword_path docs (or_default keyword_path0) false
  else docs.

(** A run time without the library. *)
Definition no_sklearn : runtime :=
  Runtime false false (fun _ => Some ImportError) (fun _ _ _ => 0%Q).

(** The score that [fuzzy_search] gives a sheet, and the sheets it keeps. *)
Definition fuzzy_score (query : string) (cs : cheatsheet) : Q :=
  max_similarity (lower query) cs.

Definition fuzzy_kept (docs : list cheatsheet) (query : string) (threshold : Q)
    : list cheatsheet :=
  List.filter (fun cs => Qle_bool threshold (fuzzy_score query cs)) docs.

(** The labels that the score reads: the name, the categories and the
    keywords of the path. *)
Definition score_labels (cs : cheatsheet) : list string :=
  name cs :: categories cs ++
  match keyword_path cs with Some kp => kp | None => [] end.

(** The order of a list sorted by decreasing key. *)
Definition not_below {A} (key : A -> Q) (x y : A) : Prop := (key y <= key x)%Q.

(** A match found in rows below [hi] lies inside [alo, hi). *)
Definition best_ok (alo hi : nat) (best : nat * nat * nat) : Prop :=
  alo <= fst (fst best) /\ fst (fst best) + snd best <= hi.

(** All lengths recorded for one row stay below a bound. *)
Definition row_ok (bound : nat) (j2len : gmap nat nat) : Prop :=
  map_Forall (fun _ v => v <= bound) j2len.

(** Work left in the queue of [get_matching_blocks]: every range counts
    for twice its length in [a], plus one. *)
Definition queue_work (queue : list (nat * nat * nat * nat)) : nat :=
  foldr (fun '(alo, ahi, _, _) acc => 2 * (ahi - alo) + 1 + acc) 0 queue.

Definition queue_ok (queue : list (nat * nat * nat * nat)) : Prop :=
  Forall (fun '(alo, ahi, _, _) => alo <= ahi) queue.

(** ** [CheatSheetManager.get_cheatsheet] *)
Definition get_cheatsheet (st : store) (name0 : string) : option cheatsheet :=
  List.find (fun cs => String.eqb (name cs) name0) (cheatsheets st).

(** ** [CheatSheetManager.remove_cheatsheet]

    The list under ["cheatsheets"] is replaced by the sheets with another
    name; nothing else of the store is touched.  [saved] is the outcome of
    [_save_cheatsheets]. *)
Definition remove_cheatsheet (saved : bool) (st : store) (name0 : string)
    : bool * store :=
  let initial_count := length (cheatsheets st) in
  let st' :=
    {| cheatsheets :=
         List.filter (fun cs => negb (String.eqb (name cs) name0)) (cheatsheets st);
       keyword_taxonomy := keyword_taxonomy st |} in
  if Nat.eqb (length (cheatsheets st')) initial_count then (false, st')
  else (saved, st').

(** ** [CheatSheetManager.list_keywords]

    The result is a dict in insertion order; with counts a child maps to
    [Some count], without to [None] (the empty dict of the source). *)
Fixpoint dict_set {V} (k : string) (v : V) (d : list (string * V)) : list (string * V) :=
  match d with
  | [] => [(k, v)]
  | (k', v') :: r =>
      if String.eqb k k' then (k', v) :: r else (k', v') :: dict_set k v r
  end.

Fixpoint dict_get {V} (k : string) (d : list (string * V)) : option V :=
  match d with
  | [] => None
  | (k', v) :: r => if String.eqb k k' then Some v else dict_get k r
  end.

Definition list_keywords (st : store) (path : option (list string))
    (include_cheatsheet_count : bool) : list (string * option nat) :=
  let children := get_keyword_children st path in
  foldl (fun result child =>
           if include_cheatsheet_count then
             let child_path := or_default path ++ [child] in
             let count := length (search_by_keyword_path (cheatsheets st) child_path false) in
             dict_set child (Some count) result
           else dict_set child None result)
    [] children.

(** ** The command line: keyword paths and the dry run of [migrate] *)

(** [s.split(",")]: the pieces between the separators, empty ones
    included; [cur] is the piece being read, most recent character
    first. *)
Fixpoint split_sep_go (sep : ascii) (s : string) (cur : list ascii) : list string :=
  match s with
  | EmptyString => [string_of_list_ascii (rev cur)]
  | String c r =>
      if Ascii.eqb c sep then string_of_list_ascii (rev cur) :: split_sep_go sep r []
      else split_sep_go sep r (c :: cur)
  end.

Definition split_sep (sep : ascii) (s : string) : list string := split_sep_go sep s [].

(** [s.strip()]: white space removed at both ends. *)
Fixpoint lstrip_chars (l : list ascii) : list ascii :=
  match l with
  | [] => []
  | c :: r => if is_space c then lstrip_chars r else l
  end.

Definition strip (s : string) : string :=
  string_of_list_ascii
    (rev (lstrip_chars (rev (lstrip_chars (list_ascii_of_string s))))).

(** [[kw.strip() for kw in text.split(",")]], as [main] reads
    [--keywords] and [--path]. *)
Definition parse_keyword_path (text : string) : list string :=
  map strip (split_sep "," text).


(** The counter of [migrate --dry-run]: the sheets without keyword path
    that have a category. *)
Fixpoint dry_run_count (docs : list cheatsheet) (migrated : nat) : nat :=
  match docs with
  | [] => migrated
  | cs :: rest =>
      match keyword_path cs, categories cs with
      | None, _ :: _ => dry_run_count rest (S migrated)
      | _, _ => dry_run_count rest migrated
      end
  end.

(** ** [MigrationTool.suggest_keyword_path] *)

Definition upper_char (c : ascii) : ascii :=
  if is_lower c then ascii_of_nat (nat_of_ascii c - 32) else c.

(** [s.capitalize()] *)
Definition capitalize (s : string) : string :=
  match s with
  | EmptyString => EmptyString
  | String c r => String (upper_char c) (lower r)
  end.

Definition languages : list string :=
  ["python"; "javascript"; "java"; "c++"; "c#"; "ruby"; "php"; "go"; "rust"].

Definition domains : list (string * list string) :=
  [("git", ["Computers"; "Version Control"; "Git"]);
   ("docker", ["Computers"; "Containerization"; "Docker"]);
   ("linux", ["Computers"; "Operating Systems"; "Linux"]);
   ("windows", ["Computers"; "Operating Systems"; "Windows"]);
   ("bash", ["Computers"; "Shell"; "Bash"]);
   ("sql", ["Computers"; "Databases"; "SQL"])].

Definition suggest_keyword_path (cs : cheatsheet) : list string :=
  match categories cs with
  | main_category :: _ => ["Uncategorized"; main_category]
  | [] =>
      let content_lower := lower (content cs) in
      match List.find (fun lang => str_in lang content_lower) languages with
      | Some lang => ["Computers"; "Programming"; capitalize lang]
      | None =>
          match List.find (fun entry => str_in (fst entry) content_lower) domains with
          | Some (_, path) => path
          | None => ["Uncategorized"]
          end
      end
  end.

(** ** [MigrationTool.batch_migrate]

    [defaults] is the dict from category to path ([None] and the empty
    dict are the same), [inputs] the lines that [input()] will read.  The
    loop returns the sheets, the counter and the lines not yet read, or
    [None] when [input()] finds no line left.  The printed prompts are
    not part of the model.  The taxonomy is never touched. *)
Definition first_default (defaults : gmap string (list string)) (cats : list string)
    : option (list string) :=
  match List.find (fun category => bool_decide (is_Some (defaults !! category))) cats with
  | Some category => defaults !! category
  | None => None
  end.

Fixpoint batch_loop (interactive : bool) (defaults : gmap string (list string))
    (inputs : list string) (docs : list cheatsheet) (migrated : nat)
    : option (list cheatsheet * nat * list string) :=
  match docs with
  | [] => Some ([], migrated, inputs)
  | cs :: rest =>
      match keyword_path cs with
      | Some _ =>
          match batch_loop interactive defaults inputs rest migrated with
          | Some (rest', n, inputs') => Some (cs :: rest', n, inputs')
          | None => None
          end
      | None =>
          let default_path :=
            match first_default defaults (categories cs) with
            | Some p => p
            | None => suggest_keyword_path cs
            end in
          let continue_with (cs' : cheatsheet) (migrated' : nat) (inputs' : list string) :=
            match batch_loop interactive defaults inputs' rest migrated' with
            | Some (rest', n, inputs'') => Some (cs' :: rest', n, inputs'')
            | None => None
            end in
          if interactive then
            match inputs with
            | [] => None
            | response :: inputs1 =>
                if String.eqb (lower response) "y" then
                  continue_with (with_keyword_path cs default_path) (S migrated) inputs1
                else if String.eqb (lower response) "m" then
                  match inputs1 with
                  | [] => None
                  | path_str :: inputs2 =>
                      continue_with (with_keyword_path cs (parse_keyword_path path_str))
                        (S migrated) inputs2
                  end
                else continue_with cs migrated inputs1
            end
          else continue_with (with_keyword_path cs default_path) (S migrated) inputs
      end
  end.

Definition batch_migrate (st : store) (interactive : bool)
    (defaults : option (gmap string (list string))) (inputs : list string)
    : option (nat * store) :=
  let defaults := match defaults with Some d => d | None => ∅ end in
  match batch_loop interactive defaults inputs (cheatsheets st) 0 with
  | Some (docs', migrated, _) =>
      Some (migrated, {| cheatsheets := docs'; keyword_taxonomy := keyword_taxonomy st |})
  | None => None
  end.

(** No two sheets share a name. *)
Definition names_unique (st : store) : bool :=
  bool_decide (NoDup (map name (cheatsheets st))).

(** The sheet that [add_cheatsheet] builds from its arguments. *)
Definition new_sheet (now name0 content0 : string) (categories0 : option (list string))
    (keyword_path0 : option (list string)) (description0 : option string) : cheatsheet :=
  {| name := name0; content := content0;
     categories := or_default categories0;
     keyword_path := if truthy keyword_path0 then keyword_path0 else None;
     description := match description0 with Some d => d | None => "" end;
     created_at := now; updated_at := now |}.

(** What the migration does to one sheet. *)
Definition migrate_one (default_root : string) (cs : cheatsheet) : cheatsheet :=
  match keyword_path cs, categories cs with
  | None, main_category :: _ => with_keyword_path cs [default_root; main_category]
  | _, _ => cs
  end.

(** A sheet that the migration would change: no keyword path, but a
    category. *)
Definition needs_migration (cs : cheatsheet) : bool :=
  match keyword_path cs, categories cs with
  | None, _ :: _ => true
  | _, _ => false
  end.

(** A sheet lies at or below a path: it has a keyword path that the path
    is a prefix of. *)
Definition at_or_below (path : list string) (cs : cheatsheet) : bool :=
  match keyword_path cs with
  | Some kp => _is_prefix path kp
  | None => false
  end.

(** A sheet lies strictly below a path: its keyword path is longer. *)
Definition strictly_below (path : list string) (cs : cheatsheet) : bool :=
  match keyword_path cs with
  | Some kp => _is_prefix path kp && Nat.ltb (length path) (length kp)
  | None => false
  end.

(** The counts of a listing of keywords, added up. *)
Definition total_count (listing : list (string * option nat)) : nat :=
  sum_list (map (fun entry => default 0 (snd entry)) listing).

(** The children listed under a path are pairwise different, as the keys
    of a dict are. *)
Definition keys_distinct (st : store) (path : option (list string)) : bool :=
  bool_decide (NoDup (get_keyword_children st path)).

(** All characters of a string pass a test. *)
Fixpoint string_forall (test : ascii -> bool) (s : string) : bool :=
  match s with
  | EmptyString => true
  | String c r => test c && string_forall test r
  end.

(** The characters a token is made of: lower-case letters, digits and the
    underscore. *)
Definition token_char (c : ascii) : bool :=
  is_lower c || is_digit c || Ascii.eqb c "_".

(** A well-formed token: not empty, made of token characters. *)
Definition token_ok (t : string) : bool := nonempty t && string_forall token_char t.

(** A sheet has every one of the tokens in its indexed fields. *)
Definition has_all_tokens (tokens : list string) (cs : cheatsheet) : bool :=
  forallb (fun token => bool_decide (token ∈ doc_tokens cs)) tokens.

(** A sheet passes the path filter of a search: there is none, or the
    sheet lies at or below the path. *)
Definition passes_filter (keyword_path0 : option (list string)) (cs : cheatsheet) : bool :=
  if truthy keyword_path0 then at_or_below (or_default keyword_path0) cs else true.

(** Two lists of tokens hold the same tokens, whatever the order and the
    repetitions. *)
Definition same_token_set (l k : list string) : bool :=
  forallb (fun t => bool_decide (t ∈ k)) l && forallb (fun t => bool_decide (t ∈ l)) k.


(** The path that [batch_migrate] proposes for a sheet: the default of
    its first category that has one, or else the suggestion. *)
Definition proposed_path (defaults : gmap string (list string)) (cs : cheatsheet)
    : list string :=
  match first_default defaults (categories cs) with
  | Some p => p
  | None => suggest_keyword_path cs
  end.

(** What [batch_migrate] does to one sheet when the proposal is taken. *)
Definition batch_one (defaults : gmap string (list string)) (cs : cheatsheet) : cheatsheet :=
  match keyword_path cs with
  | Some _ => cs
  | None => with_keyword_path cs (proposed_path defaults cs)
  end.

(** The sheets without keyword path. *)
Definition pathless (docs : list cheatsheet) : list cheatsheet :=
  List.filter (fun cs => negb (bool_decide (is_Some (keyword_path cs)))) docs.


(** The score that [semantic_search] gives the candidate at a position,
    and the positions in the order of the ranking. *)
Definition semantic_score (rt : runtime) (docs : list cheatsheet) (query : string)
    (keyword_path0 : option (list string)) (i : nat) : Q :=
  cosine_similarity rt (map corpus_text (candidates_of docs keyword_path0))
    (join_space (_tokenize query)) i.

Definition positive_positions (rt : runtime) (docs : list cheatsheet) (query : string)
    (keyword_path0 : option (list string)) : list nat :=
  List.filter (fun i => Qltb 0 (semantic_score rt docs query keyword_path0 i))
    (seq 0 (length (candidates_of docs keyword_path0))).

(** The library answers: both imports succeed and fitting the corpus of
    the candidates does not raise. *)
Definition sklearn_answers (rt : runtime) (docs : list cheatsheet)
    (keyword_path0 : option (list string)) : bool :=
  import_feature_extraction rt && import_pairwise rt &&
  match fit_raises rt (map corpus_text (candidates_of docs keyword_path0)) with
  | None => true
  | Some _ => false
  end.

(** A run time in which the library answers with fixed similarities. *)
Definition example_runtime : runtime :=
  Runtime true true (fun _ => None)
    (fun _ _ i => match i with O => (1 # 4)%Q | S O => 0%Q | _ => (3 # 4)%Q end).

(** The same bounds on the side of [b]. *)
Definition best_ok_b (blo bhi : nat) (best : nat * nat * nat) : Prop :=
  blo <= snd (fst best) /\ snd (fst best) + snd best <= bhi.

Definition row_ok_b (blo bhi : nat) (j2len : gmap nat nat) : Prop :=
  map_Forall (fun j v => blo <= j /\ j < bhi /\ v <= j + 1 - blo) j2len.

(** The total size of a list of matching blocks. *)
Definition block_total (blocks : list (nat * nat * nat)) : nat :=
  foldr (fun block acc => snd block + acc) 0 blocks.

(** The elements of [a] and of [b] in the ranges still to visit. *)
Definition work_a (queue : list (nat * nat * nat * nat)) : nat :=
  foldr (fun '(alo, ahi, _, _) acc => (ahi - alo) + acc) 0 queue.

Definition work_b (queue : list (nat * nat * nat * nat)) : nat :=
  foldr (fun '(_, _, blo, bhi) acc => (bhi - blo) + acc) 0 queue.

Definition ranges_ok (queue : list (nat * nat * nat * nat)) : Prop :=
  Forall (fun '(alo, ahi, blo, bhi) => alo <= ahi /\ blo <= bhi) queue.

(** * Properties *)

(** ** Prefix test *)

Lemma loop_prefix_spec (prefix : list string) : forall i (full_path : list string),
  loop_prefix i prefix full_path = true <->
  forall k x, prefix !! k = Some x -> full_path !! (i + k) = Some x.
Proof.
  induction prefix as [|keyword rest IH]; intros i full_path; simpl.
  - split; [intros _ k x Hk; destruct k; discriminate | done].
  - destruct (full_path !! i) as [y|] eqn:Hy.
    + destruct (String.eqb_spec y keyword) as [->|Hne]; simpl.
      * rewrite IH. split.
        -- intros H [|k] x Hk; simpl in Hk.
           ++ rewrite Nat.add_0_r. congruence.
           ++ replace (i + S k) with (S i + k) by lia. by apply H.
        -- intros H k x Hk. replace (S i + k) with (i + S k) by lia.
           by apply H.
      * split; [done|]. intros H.
        specialize (H 0 keyword eq_refl). rewrite Nat.add_0_r in H. congruence.
    + split; [done|]. intros H.
      specialize (H 0 keyword eq_refl). rewrite Nat.add_0_r in H. congruence.
Qed.

Lemma is_prefix_spec (prefix full_path : list string) :
  _is_prefix prefix full_path = true <->
  length prefix <= length full_path /\
  forall i x, prefix !! i = Some x -> full_path !! i = Some x.
Proof.
  unfold _is_prefix. destruct (Nat.ltb_spec (length full_path) (length prefix)).
  - split; [done | lia].
  - rewrite loop_prefix_spec. simpl. split; [by split | by intros [_ ?]].
Qed.

(** After the length test every read [full_path[i]] of the loop is in
    range. *)
Lemma is_prefix_reads_in_range (prefix full_path : list string) i :
  length prefix <= length full_path -> i < length prefix ->
  is_Some (full_path !! i).
Proof. intros. apply lookup_lt_is_Some. lia. Qed.

Lemma is_prefix_iff_prefix_of (prefix full_path : list string) :
  _is_prefix prefix full_path = true <-> prefix `prefix_of` full_path.
Proof.
  rewrite is_prefix_spec. split.
  - intros [Hlen H]. exists (drop (length prefix) full_path).
    rewrite <- (take_drop (length prefix) full_path) at 1. f_equal.
    apply list_eq. intros i. destruct (decide (i < length prefix)) as [Hi|Hi].
    + rewrite lookup_take_lt by done.
      destruct (lookup_lt_is_Some_2 prefix i Hi) as [x Hx].
      rewrite Hx. by apply H.
    + rewrite lookup_take_ge by lia. symmetry. apply lookup_ge_None. lia.
  - intros [k ->]. split.
    + rewrite length_app. lia.
    + intros i x Hx. by apply lookup_app_l_Some.
Qed.

(** C6. [_is_prefix prefix full_path] holds exactly when [prefix] is empty,
    or [prefix] is no longer than [full_path] and agrees with it at every
    position; the empty prefix matches everything, every path is a prefix
    of itself, and a path extended by one keyword is never a prefix of the
    path. *)
Theorem is_prefix_characterisation :
  (forall prefix full_path : list string,
     _is_prefix prefix full_path = true <->
     prefix = [] \/
     (length prefix <= length full_path /\
      forall i x, prefix !! i = Some x -> full_path !! i = Some x)) /\
  (forall anything, _is_prefix [] anything = true) /\
  (forall p, _is_prefix p p = true) /\
  (forall (p : list string) x, _is_prefix (p ++ [x]) p = false).
Proof.
  split; [|split; [|split]].
  - intros prefix full_path. rewrite is_prefix_spec. split; [by right|].
    intros [->|H]; [|done]. split; [simpl; lia|]. intros i x Hi.
    destruct i; discriminate.
  - intros anything. apply is_prefix_spec. split; [simpl; lia|].
    intros i x Hi. destruct i; discriminate.
  - intros p. apply is_prefix_spec. split; [lia | done].
  - intros p x. unfold _is_prefix.
    destruct (Nat.ltb_spec (length p) (length (p ++ [x]))) as [|H]; [done|].
    rewrite length_app in H. simpl in H. lia.
Qed.

(** ** Taxonomy *)

Section Taxonomy.

Implicit Types (t current child : taxonomy) (kids : list (string * taxonomy)).
Implicit Types (k keyword : string) (p path rest : list string).

Lemma get_child_alter f k k' kids :
  get_child k (alter_child f k' kids) =
  if String.eqb k k' then f <$> get_child k kids else get_child k kids.
Proof.
  induction kids as [|[k0 c] r IH]; simpl.
  - by destruct (String.eqb k k').
  - destruct (String.eqb_spec k' k0) as [->|Hne]; simpl.
    + destruct (String.eqb_spec k k0); [done|].
      by destruct (String.eqb k k0).
    + destruct (String.eqb_spec k k0) as [->|Hne'].
      * destruct (String.eqb_spec k0 k'); [congruence | done].
      * apply IH.
Qed.

Lemma get_child_app k kids kids' :
  get_child k (kids ++ kids') =
  match get_child k kids with
  | Some c => Some c
  | None => get_child k kids'
  end.
Proof.
  induction kids as [|[k0 c] r IH]; simpl; [done|].
  by destruct (String.eqb k k0).
Qed.

Lemma get_child_key k kids c : get_child k kids = Some c -> k ∈ map fst kids.
Proof.
  induction kids as [|[k0 c0] r IH]; simpl; [done|].
  destruct (String.eqb_spec k k0) as [->|Hne]; intros H.
  - apply list_elem_of_here.
  - apply list_elem_of_further. by apply IH.
Qed.

Lemma alter_child_compose f g k kids :
  alter_child f k (alter_child g k kids) = alter_child (fun c => f (g c)) k kids.
Proof.
  induction kids as [|[k0 c] r IH]; simpl; [done|].
  destruct (String.eqb_spec k k0) as [->|Hne]; simpl.
  - by rewrite String.eqb_refl.
  - destruct (String.eqb_spec k k0); [done|]. by rewrite IH.
Qed.

Lemma alter_child_ext f g k kids :
  (forall c, f c = g c) -> alter_child f k kids = alter_child g k kids.
Proof.
  intros Hfg. induction kids as [|[k0 c] r IH]; simpl; [done|].
  destruct (String.eqb k k0); [by rewrite Hfg | by rewrite IH].
Qed.

(** The children of a node after one step of the walk. *)
Lemma ensure_step_child current keyword rest k :
  get_child k (children_of (_ensure_keyword_path_exists current (keyword :: rest))) =
  if String.eqb k keyword
  then Some (_ensure_keyword_path_exists
               (default (Node []) (get_child keyword (children_of current))) rest)
  else get_child k (children_of current).
Proof.
  simpl. rewrite get_child_alter. unfold has_key.
  destruct (String.eqb_spec k keyword) as [->|Hne].
  - destruct (get_child keyword (children_of current)) as [c|] eqn:Hc.
    + by rewrite Hc.
    + rewrite get_child_app, Hc. simpl. by rewrite String.eqb_refl.
  - destruct (get_child keyword (children_of current)) as [c|] eqn:Hc; [done|].
    rewrite get_child_app. destruct (get_child k (children_of current)); [done|].
    simpl. by destruct (String.eqb_spec k keyword).
Qed.

Lemma ensure_has_key current keyword rest :
  has_key keyword
    (children_of (_ensure_keyword_path_exists current (keyword :: rest))) = true.
Proof. unfold has_key. by rewrite ensure_step_child, String.eqb_refl. Qed.

Lemma chain_exists_ensure path : forall current,
  chain_exists (_ensure_keyword_path_exists current path) path = true.
Proof.
  induction path as [|keyword rest IH]; intros current; [done|].
  cbn [chain_exists]. rewrite ensure_step_child, String.eqb_refl. apply IH.
Qed.

(** Creating a path never removes a chain that was there. *)
Lemma chain_exists_preserved p : forall current path,
  chain_exists current p = true ->
  chain_exists (_ensure_keyword_path_exists current path) p = true.
Proof.
  induction p as [|k r IH]; intros current path H; [done|].
  destruct path as [|keyword rest]; [done|].
  cbn [chain_exists] in *. rewrite ensure_step_child.
  destruct (String.eqb_spec k keyword) as [->|Hne].
  - destruct (get_child keyword (children_of current)) as [c|]; [|done].
    by apply IH.
  - done.
Qed.

Lemma chain_exists_take p : forall current n,
  chain_exists current p = true -> chain_exists current (take n p) = true.
Proof.
  induction p as [|k r IH]; intros current n H.
  - by rewrite take_nil.
  - destruct n as [|n]; [done|]. cbn [take chain_exists] in *.
    destruct (get_child k (children_of current)); [by apply IH | done].
Qed.

Lemma chain_exists_prefixes current p :
  chain_exists current p = true ->
  forallb (chain_exists current) (prefixes p) = true.
Proof.
  intros H. apply forallb_forall. intros q Hq. unfold prefixes in Hq.
  apply in_map_iff in Hq as (n & <- & _). by apply chain_exists_take.
Qed.

Lemma children_after_ensure p : forall current x,
  x ∈ walk_children (_ensure_keyword_path_exists current (p ++ [x])) p.
Proof.
  induction p as [|k r IH]; intros current x.
  - cbn [walk_children app].
    pose proof (ensure_has_key current x []) as Hk. unfold has_key in Hk.
    destruct (get_child x _) as [c|] eqn:Hc; [|done].
    by eapply get_child_key.
  - rewrite <- app_comm_cons. cbn [walk_children].
    rewrite ensure_step_child, String.eqb_refl. apply IH.
Qed.

Lemma ensure_idempotent path : forall current,
  _ensure_keyword_path_exists (_ensure_keyword_path_exists current path) path =
  _ensure_keyword_path_exists current path.
Proof.
  induction path as [|keyword rest IH]; intros current; [done|].
  pose proof (ensure_has_key current keyword rest) as Hk.
  remember (_ensure_keyword_path_exists current (keyword :: rest)) as once eqn:Honce.
  cbn [_ensure_keyword_path_exists]. rewrite Hk.
  rewrite Honce. cbn [_ensure_keyword_path_exists children_of].
  rewrite alter_child_compose. f_equal.
  apply alter_child_ext. intros c. apply IH.
Qed.

End Taxonomy.

(** C7. For a non-empty keyword path [P] and any store, after
    [ensure_path_exists P] the children listed at [P[:-1]] include
    [P[-1]]; and ensuring the same path a second time leaves the store as
    it is. *)
Theorem ensure_path_round_trip (st : store) (P : list string) (leaf : string) :
  last P = Some leaf ->
  leaf ∈ get_keyword_children (ensure_path_exists st P) (Some (removelast P)) /\
  ensure_path_exists (ensure_path_exists st P) P = ensure_path_exists st P.
Proof.
  intros Hlast. split.
  - unfold get_keyword_children, ensure_path_exists; simpl.
    destruct (decide (P = [])) as [->|Hne]; [done|].
    destruct (exists_last Hne) as (p & x & ->).
    rewrite last_snoc in Hlast. injection Hlast as <-.
    rewrite removelast_last. apply children_after_ensure.
  - unfold ensure_path_exists; simpl. f_equal. apply ensure_idempotent.
Qed.

Lemma ensure_path_round_trip_witness :
  "Git" ∈ get_keyword_children
            (ensure_path_exists (Store [] (Node [("Computers", Node [])]))
               ["Computers"; "VCS"; "Git"])
            (Some (removelast ["Computers"; "VCS"; "Git"])) /\
  ensure_path_exists
    (ensure_path_exists (Store [] (Node [("Computers", Node [])]))
       ["Computers"; "VCS"; "Git"]) ["Computers"; "VCS"; "Git"] =
  ensure_path_exists (Store [] (Node [("Computers", Node [])]))
    ["Computers"; "VCS"; "Git"].
Proof.
  apply (ensure_path_round_trip (Store [] (Node [("Computers", Node [])]))
           ["Computers"; "VCS"; "Git"] "Git").
  reflexivity.
Defined.

(** ** The taxonomy invariant *)

Lemma taxonomy_invariant_docs st :
  taxonomy_invariant st = forallb (doc_ok (keyword_taxonomy st)) (cheatsheets st).
Proof. reflexivity. Qed.

Lemma prefixes_spec (kp pre : list string) : In pre (prefixes kp) <-> pre `prefix_of` kp.
Proof.
  unfold prefixes. rewrite in_map_iff. split.
  - intros (n & <- & _). exists (drop n kp). by rewrite take_drop.
  - intros [k ->]. exists (length pre). split.
    + by rewrite take_app_length.
    + apply in_seq. rewrite length_app. lia.
Qed.

(** The check says what the data model asks for: every prefix of the path
    of every sheet, the full path included, resolves in the taxonomy. *)
Lemma taxonomy_invariant_spec st :
  taxonomy_invariant st = true <->
  forall cs kp pre,
    cs ∈ cheatsheets st -> keyword_path cs = Some kp -> pre `prefix_of` kp ->
    chain_exists (keyword_taxonomy st) pre = true.
Proof.
  unfold taxonomy_invariant. rewrite forallb_forall. split.
  - intros H cs kp pre Hcs Hkp Hpre.
    apply list_elem_of_In in Hcs. specialize (H cs Hcs).
    unfold doc_ok in H. rewrite Hkp in H.
    rewrite forallb_forall in H. apply H. by apply prefixes_spec.
  - intros H cs Hcs. unfold doc_ok.
    destruct (keyword_path cs) as [kp|] eqn:Hkp; [|done].
    apply forallb_forall. intros pre Hpre.
    apply (H cs kp pre); [by apply list_elem_of_In | done | by apply prefixes_spec].
Qed.

Lemma doc_ok_mono tax tax' cs :
  (forall p, chain_exists tax p = true -> chain_exists tax' p = true) ->
  doc_ok tax cs = true -> doc_ok tax' cs = true.
Proof.
  unfold doc_ok. intros Hmono. destruct (keyword_path cs); [|done].
  rewrite !forallb_forall. auto.
Qed.

Lemma docs_ok_mono tax tax' docs :
  (forall p, chain_exists tax p = true -> chain_exists tax' p = true) ->
  forallb (doc_ok tax) docs = true -> forallb (doc_ok tax') docs = true.
Proof.
  intros Hmono. rewrite !forallb_forall. intros H cs Hcs.
  eapply doc_ok_mono; eauto.
Qed.

Lemma doc_ok_attached tax cs kp :
  doc_ok (_ensure_keyword_path_exists tax kp) (with_keyword_path cs kp) = true.
Proof. apply chain_exists_prefixes, chain_exists_ensure. Qed.

Lemma migrate_loop_spec default_root docs : forall tax n,
  let '(docs', tax', _) := migrate_loop default_root docs tax n in
  (forall p, chain_exists tax p = true -> chain_exists tax' p = true) /\
  (forallb (doc_ok tax) docs = true -> forallb (doc_ok tax') docs' = true).
Proof.
  induction docs as [|cs rest IH]; intros tax n; [done|].
  cbn [migrate_loop].
  destruct (keyword_path cs) as [kp|] eqn:Hkp.
  - specialize (IH tax n).
    destruct (migrate_loop default_root rest tax n) as [[rest' tax'] n'].
    destruct IH as [Hmono Hok]. split; [done|].
    cbn [forallb]. rewrite !andb_true_iff. intros [Hcs Hrest].
    split; [by eapply doc_ok_mono | auto].
  - destruct (categories cs) as [|main_category others] eqn:Hcat.
    + specialize (IH tax n).
      destruct (migrate_loop default_root rest tax n) as [[rest' tax'] n'].
      destruct IH as [Hmono Hok]. split; [done|].
      cbn [forallb]. rewrite !andb_true_iff. intros [Hcs Hrest].
      split; [by eapply doc_ok_mono | auto].
    + set (kp := [default_root; main_category]).
      specialize (IH (_ensure_keyword_path_exists tax kp) (S n)).
      destruct (migrate_loop default_root rest _ (S n)) as [[rest' tax'] n'].
      destruct IH as [Hmono Hok]. split.
      * intros p Hp. by apply Hmono, chain_exists_preserved.
      * cbn [forallb]. rewrite !andb_true_iff. intros [Hcs Hrest]. split.
        -- eapply doc_ok_mono; [exact Hmono | apply doc_ok_attached].
        -- apply Hok. eapply docs_ok_mono; [|exact Hrest].
           intros p Hp. by apply chain_exists_preserved.
Qed.

Lemma add_cheatsheet_invariant now saved st name0 content0 categories0 keyword_path0
    description0 :
  taxonomy_invariant st = true ->
  taxonomy_invariant
    (snd (add_cheatsheet now saved st name0 content0 categories0 keyword_path0
            description0)) = true.
Proof.
  intros Hinv. unfold add_cheatsheet.
  destruct (negb (valid_name name0)); [done|].
  destruct (existsb _ (cheatsheets st)); [done|].
  destruct (truthy keyword_path0); unfold taxonomy_invariant in *; simpl.
  - rewrite forallb_app, andb_true_iff. split.
    + eapply docs_ok_mono; [|exact Hinv].
      intros p Hp. by apply chain_exists_preserved.
    + simpl. rewrite andb_true_r.
      apply chain_exists_prefixes, chain_exists_ensure.
  - rewrite forallb_app, andb_true_iff. by split.
Qed.

Lemma migrate_invariant st default_root :
  taxonomy_invariant st = true ->
  taxonomy_invariant (snd (migrate_categories_to_paths st default_root)) = true.
Proof.
  intros Hinv. unfold migrate_categories_to_paths.
  pose proof (migrate_loop_spec default_root (cheatsheets st) (keyword_taxonomy st) 0) as H.
  destruct (migrate_loop default_root (cheatsheets st) (keyword_taxonomy st) 0)
    as [[docs' tax'] n'].
  destruct H as [_ Hok]. unfold taxonomy_invariant; simpl. by apply Hok.
Qed.

(** C5. Adding a sheet (with or without a keyword path, accepted or
    refused) and migrating the legacy categories both preserve the
    taxonomy invariant: afterwards every prefix of the keyword path of
    every sheet, the full path included, is a chain of the taxonomy. *)
Theorem taxonomy_invariant_preserved now saved st name0 content0 categories0
    keyword_path0 description0 default_root :
  taxonomy_invariant st = true ->
  taxonomy_invariant
    (snd (add_cheatsheet now saved st name0 content0 categories0 keyword_path0
            description0)) = true /\
  taxonomy_invariant (snd (migrate_categories_to_paths st default_root)) = true.
Proof.
  intros Hinv. split; [by apply add_cheatsheet_invariant | by apply migrate_invariant].
Qed.

Lemma taxonomy_invariant_preserved_witness :
  taxonomy_invariant
    (snd (add_cheatsheet "2025-03-17T09:00:00" true test_data "test4" "Test content 4"
            (Some ["rust"; "programming"]) (Some ["Computers"; "Programming"; "Rust"])
            (Some "Test cheatsheet 4"))) = true /\
  taxonomy_invariant (snd (migrate_categories_to_paths test_data "Uncategorized")) = true.
Proof.
  apply (taxonomy_invariant_preserved "2025-03-17T09:00:00" true test_data "test4"
           "Test content 4" (Some ["rust"; "programming"])
           (Some ["Computers"; "Programming"; "Rust"]) (Some "Test cheatsheet 4")
           "Uncategorized").
  vm_compute. reflexivity.
Defined.

(** ** Inverted index *)

Section Index.

Implicit Types (index : gmap string (gset nat)) (i j : nat).
Implicit Types (token t : string) (tokens : list string) (cs : cheatsheet).

Lemma index_add_lookup i token index t :
  index_add i token index !! t =
  if decide (t = token) then Some (postings index token ∪ {[i]})
  else index !! t.
Proof.
  unfold index_add, postings. case_decide as Ht.
  - subst t. rewrite lookup_alter_eq.
    destruct (index !! token) as [s|] eqn:Hs.
    + by rewrite Hs.
    + by rewrite lookup_insert_eq.
  - rewrite lookup_alter_ne by done.
    destruct (index !! token); [done|]. by rewrite lookup_insert_ne.
Qed.

Lemma index_tokens_postings tokens : forall i index t j,
  j ∈ postings (index_tokens i tokens index) t <->
  j ∈ postings index t \/ (j = i /\ t ∈ tokens).
Proof.
  unfold index_tokens.
  induction tokens as [|token rest IH]; intros i index t j; simpl.
  - split; [by left|]. intros [?|[_ H]]; [done|]. by apply elem_of_nil in H.
  - rewrite IH. unfold postings at 1. rewrite index_add_lookup.
    rewrite elem_of_cons. case_decide as Ht; simpl.
    + subst t. rewrite elem_of_union, elem_of_singleton. tauto.
    + fold (postings index t). tauto.
Qed.

Lemma index_tokens_keys tokens : forall i index t,
  is_Some (index_tokens i tokens index !! t) <->
  is_Some (index !! t) \/ t ∈ tokens.
Proof.
  unfold index_tokens.
  induction tokens as [|token rest IH]; intros i index t; simpl.
  - split; [by left|]. intros [?|H]; [done|]. by apply elem_of_nil in H.
  - rewrite IH, index_add_lookup, elem_of_cons.
    case_decide as Ht.
    + split; [intros _; right; by left | intros _; left; eauto].
    + tauto.
Qed.

Lemma index_tokens_app i tokens tokens' index :
  index_tokens i (tokens ++ tokens') index =
  index_tokens i tokens' (index_tokens i tokens index).
Proof. unfold index_tokens. apply foldl_app. Qed.

Lemma index_fields i (fields : list string) : forall index,
  foldl (fun idx field => index_tokens i (_tokenize field) idx) index fields =
  index_tokens i (concat (map _tokenize fields)) index.
Proof.
  induction fields as [|f r IH]; intros index; simpl; [done|].
  by rewrite IH, index_tokens_app.
Qed.

(** One round of the enumeration adds the tokens of the sheet. *)
Lemma index_doc_tokens i cs index :
  index_doc i cs index = index_tokens i (doc_tokens cs) index.
Proof.
  unfold index_doc, doc_tokens. rewrite !index_tokens_app, index_fields.
  destruct (keyword_path cs); [by rewrite index_fields | done].
Qed.

Lemma index_loop_postings docs : forall i index t j,
  j ∈ postings (index_loop i docs index) t <->
  j ∈ postings index t \/
  (i <= j /\ exists cs, docs !! (j - i) = Some cs /\ t ∈ doc_tokens cs).
Proof.
  induction docs as [|cs rest IH]; intros i index t j; cbn [index_loop].
  - split; [by left|]. by intros [?|(_ & ? & ? & _)].
  - rewrite IH, index_doc_tokens, index_tokens_postings. split.
    + intros [[?|[-> Ht]]|(Hle & cs' & Hcs' & Ht)].
      * by left.
      * right. split; [lia|]. exists cs. by rewrite Nat.sub_diag.
      * right. split; [lia|]. exists cs'. split; [|done].
        replace (j - i) with (S (j - S i)) by lia. done.
    + intros [?|(Hle & cs' & Hcs' & Ht)]; [by left; left|].
      destruct (decide (j = i)) as [->|Hne].
      * rewrite Nat.sub_diag in Hcs'. injection Hcs' as <-. left; right. done.
      * right. split; [lia|]. exists cs'. split; [|done].
        replace (j - i) with (S (j - S i)) in Hcs' by lia. done.
Qed.

Lemma index_loop_keys docs : forall i index t,
  is_Some (index_loop i docs index !! t) <->
  is_Some (index !! t) \/ exists cs, cs ∈ docs /\ t ∈ doc_tokens cs.
Proof.
  induction docs as [|cs rest IH]; intros i index t; cbn [index_loop].
  - split; [by left|]. intros [?|(? & H & _)]; [done|]. by apply elem_of_nil in H.
  - rewrite IH, index_doc_tokens, index_tokens_keys. split.
    + intros [[?|?]|(cs' & ? & ?)]; [by left| |].
      * right. exists cs. split; [apply list_elem_of_here | done].
      * right. exists cs'. split; [by apply list_elem_of_further | done].
    + intros [?|(cs' & Hcs' & ?)]; [by left; left|].
      apply elem_of_cons in Hcs' as [->|?]; [by left; right|].
      right. by exists cs'.
Qed.

(** The posting set of a token holds the positions of the sheets that
    have the token in a field. *)
Lemma create_index_postings docs t j :
  j ∈ postings (_create_index docs) t <->
  exists cs, docs !! j = Some cs /\ t ∈ doc_tokens cs.
Proof.
  unfold _create_index. rewrite index_loop_postings.
  unfold postings at 1. rewrite lookup_empty. simpl.
  rewrite Nat.sub_0_r. split.
  - intros [H|[_ H]]; [by apply not_elem_of_empty in H | done].
  - intros H. right. split; [lia | done].
Qed.

(** A token is a key of the index exactly when some sheet has it. *)
Lemma create_index_keys docs t :
  is_Some (_create_index docs !! t) <->
  exists cs, cs ∈ docs /\ t ∈ doc_tokens cs.
Proof.
  unfold _create_index. rewrite index_loop_keys, lookup_empty. split.
  - intros [[? H]|?]; [discriminate | done].
  - by right.
Qed.

(** Every position stored in the index is a position of the list, so
    [cheatsheets[i]] never fails in [full_text_search]. *)
Lemma postings_in_range docs t j :
  j ∈ postings (_create_index docs) t -> j < length docs.
Proof.
  rewrite create_index_postings. intros (cs & Hcs & _).
  by eapply lookup_lt_Some.
Qed.

Lemma doc_tokens_contains cs t : t ∈ doc_tokens cs <-> contains_token cs t.
Proof.
  unfold doc_tokens, contains_token.
  rewrite !elem_of_app.
  assert (Hconcat : forall fields : list string,
    t ∈ concat (map _tokenize fields) <->
    exists f, f ∈ fields /\ t ∈ _tokenize f).
  { intros fields. rewrite list_elem_of_In, in_concat. split.
    - intros (l & Hl & Ht). apply in_map_iff in Hl as (f & <- & Hf).
      exists f. by rewrite !list_elem_of_In.
    - intros (f & Hf & Ht). exists (_tokenize f). split.
      + apply in_map. by apply list_elem_of_In.
      + by apply list_elem_of_In. }
  rewrite Hconcat. destruct (keyword_path cs) as [kp|].
  - rewrite Hconcat. split.
    + intros [?|[?|[(f & ? & ?)|[?|?]]]]; eauto 8.
    + intros [?|[?|[(kp' & f & [= <-] & ? & ?)|[?|?]]]]; eauto 8.
  - split.
    + intros [?|[?|[H|[?|?]]]]; eauto 8. by apply elem_of_nil in H.
    + intros [?|[?|[(kp' & f & ? & ? & ?)|[?|?]]]]; eauto 8. discriminate.
Qed.

Lemma intersect_loop_members index tokens : forall m s j,
  intersect_loop index tokens m = Some (Some s) ->
  j ∈ s ->
  (forall m0, m = Some m0 -> j ∈ m0) /\
  (forall t, t ∈ tokens -> j ∈ postings index t).
Proof.
  induction tokens as [|token rest IH]; intros m s j Hrun Hj; simpl in Hrun.
  - injection Hrun as ->. split; [by intros ? [= <-]|].
    intros t Ht. by apply elem_of_nil in Ht.
  - destruct (index !! token) as [p|] eqn:Hp; [|discriminate].
    destruct (IH _ _ _ Hrun Hj) as [Hm Hrest].
    specialize (Hm _ eq_refl). split.
    + intros m0 ->. by apply elem_of_intersection in Hm as [? _].
    + intros t Ht. apply elem_of_cons in Ht as [->|Ht]; [|by apply Hrest].
      unfold postings. rewrite Hp. simpl.
      destruct m; [by apply elem_of_intersection in Hm as [_ ?] | done].
Qed.

(** The loop stops with the early return exactly when a token of the
    query is missing from the index. *)
Lemma intersect_loop_missing index tokens : forall m,
  intersect_loop index tokens m = None <->
  exists t, t ∈ tokens /\ index !! t = None.
Proof.
  induction tokens as [|token rest IH]; intros m; simpl.
  - split; [done|]. intros (t & Ht & _). by apply elem_of_nil in Ht.
  - destruct (index !! token) as [p|] eqn:Hp.
    + rewrite IH. split.
      * intros (t & ? & ?). exists t. split; [by apply list_elem_of_further | done].
      * intros (t & Ht & Hnone). apply elem_of_cons in Ht as [->|Ht].
        -- congruence.
        -- by exists t.
    + split; [|done]. intros _. exists token. split; [apply list_elem_of_here | done].
Qed.

Lemma sheets_at_spec docs (ids : gset nat) cs :
  cs ∈ sheets_at docs ids <-> exists i, i ∈ ids /\ docs !! i = Some cs.
Proof.
  unfold sheets_at, set_iter. rewrite list_elem_of_omap.
  setoid_rewrite merge_sort_Permutation. by setoid_rewrite elem_of_elements.
Qed.

End Index.

(** ** Full-text search *)

Lemma intersect_loop_complete index tokens : forall m,
  (forall t, t ∈ tokens -> is_Some (index !! t)) ->
  exists r, intersect_loop index tokens m = Some r /\
    (tokens = [] -> r = m) /\
    (tokens <> [] ->
     exists s, r = Some s /\
       forall j, j ∈ s <->
         (forall m0, m = Some m0 -> j ∈ m0) /\
         (forall t, t ∈ tokens -> j ∈ postings index t)).
Proof.
  induction tokens as [|token rest IH]; intros m Hall; simpl.
  - exists m. by split.
  - destruct (Hall token (list_elem_of_here _ _)) as [p Hp]. rewrite Hp.
    set (m' := match m with None => p | Some m0 => m0 ∩ p end).
    destruct (IH (Some m')) as (r & Hrun & Hnil & Hcons).
    { intros t Ht. apply Hall. by apply list_elem_of_further. }
    exists r. split; [done|]. split; [done|]. intros _.
    assert (Hm' : forall j, j ∈ m' <->
              (forall m0, m = Some m0 -> j ∈ m0) /\ j ∈ postings index token).
    { intros j. unfold postings, m'. rewrite Hp. simpl. destruct m as [m0|].
      - rewrite elem_of_intersection. split.
        + intros [? ?]. split; [by intros ? [= <-] | done].
        + intros [H ?]. split; [by apply H | done].
      - split; [by intros ? | by intros [_ ?]]. }
    destruct rest as [|t' rest'].
    + exists m'. split; [by apply Hnil|]. intros j. rewrite Hm'. split.
      * intros [? ?]. split; [done|]. intros t Ht.
        apply list_elem_of_singleton in Ht as ->. done.
      * intros [? H]. split; [done|]. apply H, list_elem_of_here.
    + destruct Hcons as (s & -> & Hs); [done|]. exists s. split; [done|].
      intros j. rewrite Hs. split.
      * intros [Hj Hrest]. specialize (Hj m' eq_refl). apply Hm' in Hj as [? ?].
        split; [done|]. intros t Ht. apply elem_of_cons in Ht as [->|Ht]; auto.
      * intros [Hm Hts]. split.
        -- intros ? [= <-]. apply Hm'. split; [done|]. apply Hts, list_elem_of_here.
        -- intros t Ht. by apply Hts, list_elem_of_further.
Qed.

Lemma filter_elem_of {A} (f : A -> bool) (l : list A) (x : A) :
  x ∈ List.filter f l <-> x ∈ l /\ f x = true.
Proof. rewrite !list_elem_of_In. apply filter_In. Qed.

(** What [full_text_search] returns, as a set. *)
Lemma full_text_search_spec docs query keyword_path0 cs :
  cs ∈ full_text_search docs query keyword_path0 <->
  _tokenize query <> [] /\ cs ∈ docs /\
  (forall token, token ∈ _tokenize query -> contains_token cs token) /\
  under_path keyword_path0 cs.
Proof.
  unfold full_text_search, under_path.
  destruct (_tokenize query) as [|tok toks] eqn:Htoks.
  { split; [intros H; by apply elem_of_nil in H | by intros [? _]]. }
  rewrite <- Htoks. assert (Hne : _tokenize query <> []) by (by rewrite Htoks).
  clear Htoks.
  destruct (intersect_loop (_create_index docs) (_tokenize query) None) as [r|] eqn:Hrun.
  - assert (Hall : forall t, t ∈ _tokenize query -> is_Some (_create_index docs !! t)).
    { intros t Ht. destruct (_create_index docs !! t) eqn:Hl; [eauto|].
      assert (intersect_loop (_create_index docs) (_tokenize query) None = None)
        by (apply intersect_loop_missing; eauto). congruence. }
    destruct (intersect_loop_complete _ _ None Hall) as (r' & Hrun' & _ & Hcons).
    rewrite Hrun in Hrun'. injection Hrun' as <-.
    destruct (Hcons Hne) as (s & -> & Hs).
    assert (Hmem : cs ∈ sheets_at docs s <->
              cs ∈ docs /\ forall token, token ∈ _tokenize query -> contains_token cs token).
    { rewrite sheets_at_spec. split.
      - intros (i & Hi & Hcs). apply Hs in Hi as [_ Hi]. split.
        + apply list_elem_of_lookup. eauto.
        + intros token Ht. apply doc_tokens_contains.
          apply Hi, create_index_postings in Ht as (cs' & Hcs' & ?). congruence.
      - intros [Hcs Hts]. apply list_elem_of_lookup in Hcs as [i Hi].
        exists i. split; [|done]. apply Hs. split; [done|].
        intros t Ht. apply create_index_postings. exists cs. split; [done|].
        by apply doc_tokens_contains, Hts. }
    destruct (truthy keyword_path0).
    + rewrite filter_elem_of, Hmem. split.
      * intros [[? ?] Hp]. repeat split; try done. intros _.
        destruct (keyword_path cs) as [kp|]; [eauto | done].
      * intros (_ & ? & ? & Hp). split; [done|].
        destruct (Hp eq_refl) as (kp & -> & ?). done.
    + rewrite Hmem. split; [intros [? ?]; by repeat split | by intros (_ & ? & ? & _)].
  - apply intersect_loop_missing in Hrun as (t & Ht & Hnone).
    split; [intros H; by apply elem_of_nil in H|].
    intros (_ & Hcs & Hts & _). exfalso.
    assert (is_Some (_create_index docs !! t)) as [? ?]; [|congruence].
    apply create_index_keys. exists cs. split; [done|].
    by apply doc_tokens_contains, Hts.
Qed.

Example full_text_git :
  full_text_search example_docs "git" None = [git_basics; git_advanced].
Proof. vm_compute. reflexivity. Qed.

Example full_text_git_basics :
  full_text_search example_docs "git basics" None = [git_basics].
Proof. vm_compute. reflexivity. Qed.

Example full_text_git_nonexistentterm :
  full_text_search example_docs "git nonexistentterm" None = [].
Proof. vm_compute. reflexivity. Qed.

Example full_text_path_filter :
  full_text_search example_docs "computers" (Some ["Computers"; "VCS"]) =
  [git_basics; git_advanced].
Proof. vm_compute. reflexivity. Qed.

(** C1. Whatever the query, the document set and the path filter, every
    sheet that [full_text_search] returns is a sheet of the document set,
    and it contains every token of the tokenized query in at least one of
    its indexed fields: name, a category, a keyword of the path, the
    description or the content, all read through [_tokenize]. *)
Theorem full_text_search_sound docs query keyword_path0 cs :
  cs ∈ full_text_search docs query keyword_path0 ->
  cs ∈ docs /\
  forall token, token ∈ _tokenize query -> contains_token cs token.
Proof. rewrite full_text_search_spec. by intros (_ & ? & ? & _). Qed.

Lemma full_text_search_sound_witness :
  git_basics ∈ example_docs /\
  forall token, token ∈ _tokenize "git basics" -> contains_token git_basics token.
Proof.
  apply (full_text_search_sound example_docs "git basics" None git_basics).
  vm_compute. apply list_elem_of_here.
Defined.

(** A token is missing from the index exactly when no sheet has it. *)
Lemma absent_from_index docs token :
  _create_index docs !! token = None <->
  forall cs, cs ∈ docs -> ~ contains_token cs token.
Proof.
  split.
  - intros Hnone cs Hcs Hc.
    assert (is_Some (_create_index docs !! token)) as [? ?]; [|congruence].
    apply create_index_keys. exists cs. split; [done|]. by apply doc_tokens_contains.
  - intros H. destruct (_create_index docs !! token) eqn:Hl; [|done]. exfalso.
    assert (is_Some (_create_index docs !! token)) as Hs by eauto.
    apply create_index_keys in Hs as (cs & Hcs & Ht).
    apply (H cs Hcs). by apply doc_tokens_contains.
Qed.

(** C4. When a token of the tokenized query is not a key of the inverted
    index, which is the case exactly when no sheet has it in an indexed
    field, [full_text_search] returns the empty list for the whole query,
    whatever the other tokens match. *)
Theorem full_text_search_missing_token docs query keyword_path0 token :
  token ∈ _tokenize query ->
  _create_index docs !! token = None ->
  (forall cs, cs ∈ docs -> ~ contains_token cs token) /\
  full_text_search docs query keyword_path0 = [].
Proof.
  intros Ht Hnone. split.
  - by apply absent_from_index.
  - unfold full_text_search. destruct (_tokenize query) as [|tok toks] eqn:Htoks.
    + done.
    + rewrite <- Htoks in *.
      assert (intersect_loop (_create_index docs) (_tokenize query) None = None) as ->
        by (apply intersect_loop_missing; eauto).
      done.
Qed.

Lemma full_text_search_missing_token_witness :
  (forall cs, cs ∈ example_docs -> ~ contains_token cs "nonexistentterm") /\
  full_text_search example_docs "git nonexistentterm" None = [].
Proof.
  apply (full_text_search_missing_token example_docs "git nonexistentterm" None
           "nonexistentterm").
  - vm_compute. apply list_elem_of_further, list_elem_of_here.
  - vm_compute. reflexivity.
Defined.

(** ** Queries without tokens, and the empty path filter *)

Lemma startswith_empty s : startswith "" s = true.
Proof. by destruct s. Qed.

Lemma str_in_empty s : str_in "" s = true.
Proof. destruct s; reflexivity. Qed.

Lemma matches_empty_query cs : matches_query "" cs = true.
Proof. unfold matches_query. by rewrite str_in_empty. Qed.

Lemma filter_all {A} (f : A -> bool) (l : list A) :
  (forall x, f x = true) -> List.filter f l = l.
Proof.
  intros Hf. induction l as [|x l IH]; simpl; [done|]. by rewrite Hf, IH.
Qed.

(** [basic_search] keeps a candidate exactly when one of its fields
    contains the lower-cased query. *)
Lemma basic_search_spec docs query keyword_path0 cs :
  cs ∈ basic_search docs query keyword_path0 <->
  cs ∈ candidates_of docs keyword_path0 /\ matches_query (lower query) cs = true.
Proof. unfold basic_search, search_cheatsheets. apply filter_elem_of. Qed.

Lemma semantic_search_guards rt docs query keyword_path0 :
  candidates_of docs keyword_path0 = [] \/ _tokenize query = [] ->
  semantic_search rt docs query keyword_path0 = ([], Return []).
Proof.
  unfold semantic_search, candidates_of. intros [->| ->]; [done|].
  by destruct (if truthy keyword_path0 then _ else _).
Qed.

(** The claim of the specification fails for the substring strategy: the
    empty string has no token, and every sheet contains it. *)
Lemma empty_query_counterexample :
  _tokenize "" = [] /\ basic_search example_docs "" None = example_docs.
Proof. split; vm_compute; reflexivity. Qed.

(** The same for the fuzzy strategy: ["c++"] and ["C"] differ, a query of
    punctuation only is compared as it is, without tokens. *)
Lemma tokenless_fuzzy_match :
  _tokenize "++" = [] /\
  fuzzy_search [CheatSheet "cpp" "" ["++"] None "" "" ""] "++" (7 # 10) =
  [CheatSheet "cpp" "" ["++"] None "" "" ""].
Proof. split; vm_compute; reflexivity. Qed.

(** C10. An empty list as path filter is the same as no filter, for
    [basic_search], [full_text_search] and [semantic_search] alike; so a
    sheet without a keyword path is not dropped by the filter step: it is
    returned whenever the query alone selects it. *)
Theorem empty_filter_is_no_filter :
  (forall docs query,
     basic_search docs query (Some []) = basic_search docs query None) /\
  (forall docs query,
     full_text_search docs query (Some []) = full_text_search docs query None) /\
  (forall rt docs query,
     semantic_search rt docs query (Some []) = semantic_search rt docs query None) /\
  (forall docs query cs,
     cs ∈ docs -> keyword_path cs = None ->
     matches_query (lower query) cs = true ->
     cs ∈ basic_search docs query (Some [])) /\
  (forall docs query cs,
     cs ∈ docs -> keyword_path cs = None ->
     _tokenize query <> [] ->
     (forall token, token ∈ _tokenize query -> contains_token cs token) ->
     cs ∈ full_text_search docs query (Some [])).
Proof.
  split; [|split; [|split; [|split]]].
  - reflexivity.
  - reflexivity.
  - reflexivity.
  - intros docs query cs Hcs _ Hm. apply basic_search_spec. by split.
  - intros docs query cs Hcs _ Hne Hall. apply full_text_search_spec.
    repeat split; try done.
Qed.

Example empty_filter_keeps_pathless_sheet :
  map name (basic_search (cheatsheets test_data) "git" (Some [])) = ["test3"] /\
  map name (full_text_search (cheatsheets test_data) "git" (Some [])) = ["test3"] /\
  basic_search (cheatsheets test_data) "git" (Some ["Computers"]) = [].
Proof. repeat split; vm_compute; reflexivity. Qed.

(** ** Semantic search without the library *)

(** With the library missing, a non-empty candidate set and a query with
    tokens, the first import statement raises before the [try] is entered:
    the handler is not reached. *)
Lemma semantic_search_import_error rt docs query keyword_path0 :
  import_feature_extraction rt = false ->
  candidates_of docs keyword_path0 <> [] ->
  _tokenize query <> [] ->
  semantic_search rt docs query keyword_path0 = ([], Raise ImportError).
Proof.
  unfold semantic_search, candidates_of. intros -> Hc Ht.
  destruct (if truthy keyword_path0 then _ else _); [done|].
  by destruct (_tokenize query).
Qed.



(** With the library missing and a query with tokens, the import before the
    [try] raises. *)
Example semantic_search_git_without_sklearn :
  semantic_search no_sklearn example_docs "git" None = ([], Raise ImportError).
Proof. vm_compute. reflexivity. Qed.


Example semantic_search_handler_reached :
  semantic_search (Runtime true false (fun _ => None) (fun _ _ _ => 0%Q))
    example_docs "basics" None =
  ([fallback_warning], Return [git_basics]).
Proof. vm_compute. reflexivity. Qed.

(** ** Fuzzy search *)

Section Sorting.

Context {A : Type} (key : A -> Q).

Lemma Qltb_lt (x y : Q) : Qltb x y = true <-> (x < y)%Q.
Proof.
  unfold Qltb. rewrite negb_true_iff. split.
  - intros H. apply Qnot_le_lt. intros Hle.
    apply Qle_bool_iff in Hle. congruence.
  - intros H. destruct (Qle_bool y x) eqn:E; [|done].
    apply Qle_bool_iff in E. by apply Qlt_not_le in H.
Qed.

Lemma Qltb_ge (x y : Q) : Qltb x y = false <-> (y <= x)%Q.
Proof.
  unfold Qltb. rewrite negb_false_iff. apply Qle_bool_iff.
Qed.

Lemma insert_desc_perm x l : insert_desc key x l ≡ₚ x :: l.
Proof.
  induction l as [|y r IH]; simpl; [done|].
  destruct (Qltb (key x) (key y)); [|done].
  rewrite IH. apply perm_swap.
Qed.

Lemma sort_desc_perm l : sort_desc key l ≡ₚ l.
Proof.
  induction l as [|x l IH]; simpl; [done|].
  unfold sort_desc in *. simpl. by rewrite insert_desc_perm, IH.
Qed.

Lemma insert_desc_sorted x l :
  StronglySorted (not_below key) l -> StronglySorted (not_below key) (insert_desc key x l).
Proof.
  induction l as [|y r IH]; intros Hs; simpl.
  - by repeat constructor.
  - apply StronglySorted_inv in Hs as [Hr Hy].
    destruct (Qltb (key x) (key y)) eqn:E.
    + constructor; [by apply IH|].
      rewrite insert_desc_perm. constructor; [|done].
      apply Qltb_lt in E. by apply Qlt_le_weak.
    + apply Qltb_ge in E. constructor; [by constructor|].
      constructor; [done|].
      eapply Forall_impl; [exact Hy|]. intros z Hz. unfold not_below in *.
      by eapply Qle_trans.
Qed.

Lemma sort_desc_sorted l : StronglySorted (not_below key) (sort_desc key l).
Proof.
  induction l as [|x l IH]; [constructor|].
  unfold sort_desc in *. simpl. by apply insert_desc_sorted.
Qed.

(** Stability: among the elements with a given key, insertion changes
    nothing but the new element in front. *)
Lemma insert_desc_stable q x l :
  List.filter (fun z => Qeq_bool (key z) q) (insert_desc key x l) =
  List.filter (fun z => Qeq_bool (key z) q) (x :: l).
Proof.
  induction l as [|y r IH]; [done|].
  cbn [insert_desc]. destruct (Qltb (key x) (key y)) eqn:E; [|done].
  apply Qltb_lt in E. cbn [List.filter] in *. rewrite IH.
  destruct (Qeq_bool (key x) q) eqn:Ex; [|done].
  destruct (Qeq_bool (key y) q) eqn:Ey; [|done].
  apply Qeq_bool_iff in Ex, Ey. exfalso.
  rewrite Ex, Ey in E. by apply Qlt_irrefl in E.
Qed.

Lemma sort_desc_stable q l :
  List.filter (fun z => Qeq_bool (key z) q) (sort_desc key l) =
  List.filter (fun z => Qeq_bool (key z) q) l.
Proof.
  induction l as [|x l IH]; [done|].
  unfold sort_desc in *. cbn [foldr]. rewrite insert_desc_stable.
  cbn [List.filter]. by rewrite IH.
Qed.

End Sorting.

Section Fuzzy.

Lemma ratio_nonneg a b : (0 <= Difflib.ratio a b)%Q.
Proof.
  unfold Difflib.ratio. destruct (length a + length b); [done|].
  unfold Qle. simpl. lia.
Qed.

Lemma Qmax2_l x y : (x <= Qmax2 x y)%Q.
Proof.
  unfold Qmax2. destruct (Qltb x y) eqn:E.
  - apply Qltb_lt in E. by apply Qlt_le_weak.
  - apply Qle_refl.
Qed.

Lemma Qmax2_r x y : (y <= Qmax2 x y)%Q.
Proof.
  unfold Qmax2. destruct (Qltb x y) eqn:E.
  - apply Qle_refl.
  - by apply Qltb_ge in E.
Qed.

Lemma Qmax2_cases x y : Qmax2 x y = x \/ Qmax2 x y = y.
Proof. unfold Qmax2. destruct (Qltb x y); auto. Qed.

(** The fold of [max] over a list of labels is an upper bound of the
    start value and of every ratio, and it is one of them. *)
Lemma fold_max_spec query labels : forall init,
  let best :=
    foldl (fun best label => Qmax2 best (similarity_ratio query (lower label)))
      init labels in
  (init <= best)%Q /\
  (forall label, label ∈ labels ->
     (similarity_ratio query (lower label) <= best)%Q) /\
  (best = init \/
   exists label, label ∈ labels /\ best = similarity_ratio query (lower label)).
Proof.
  induction labels as [|l r IH]; intros init; simpl.
  - split; [apply Qle_refl|]. split; [|by left].
    intros label H. by apply elem_of_nil in H.
  - destruct (IH (Qmax2 init (similarity_ratio query (lower l)))) as (Hi & Hall & Hex).
    split; [|split].
    + eapply Qle_trans; [apply Qmax2_l | exact Hi].
    + intros label Hl. apply elem_of_cons in Hl as [->|Hl]; [|by apply Hall].
      eapply Qle_trans; [apply Qmax2_r | exact Hi].
    + destruct Hex as [Heq|(label & Hl & Heq)].
      * destruct (Qmax2_cases init (similarity_ratio query (lower l))) as [E|E].
        -- left. by rewrite Heq.
        -- right. exists l. split; [apply list_elem_of_here | by rewrite Heq].
      * right. exists label. split; [by apply list_elem_of_further | done].
Qed.

(** The score of a sheet is the largest ratio between the query and one
    of its labels. *)
Lemma max_similarity_spec query cs :
  (forall label, label ∈ score_labels cs ->
     (similarity_ratio query (lower label) <= max_similarity query cs)%Q) /\
  (exists label, label ∈ score_labels cs /\
     (max_similarity query cs == similarity_ratio query (lower label))%Q).
Proof.
  unfold max_similarity, score_labels, name_similarity, category_similarity,
    path_similarity, labels_similarity.
  set (n := similarity_ratio query (lower (name cs))).
  destruct (fold_max_spec query (categories cs) 0%Q) as (Hc0 & Hc & Hcex).
  set (c := foldl _ 0%Q (categories cs)) in *.
  assert (Hp : exists p kp,
    match keyword_path cs with
    | Some kp => foldl (fun best label =>
                   Qmax2 best (similarity_ratio query (lower label))) 0%Q kp
    | None => 0%Q
    end = p /\
    match keyword_path cs with Some kp => kp | None => [] end = kp /\
    (0 <= p)%Q /\
    (forall label, label ∈ kp -> (similarity_ratio query (lower label) <= p)%Q) /\
    (p = 0%Q \/ exists label, label ∈ kp /\ p = similarity_ratio query (lower label))).
  { destruct (keyword_path cs) as [kp|].
    - destruct (fold_max_spec query kp 0%Q) as (? & ? & ?). eauto 10.
    - exists 0%Q, []. repeat split; [done| |by left].
      intros label H. by apply elem_of_nil in H. }
  destruct Hp as (p & kp & -> & -> & Hp0 & Hp & Hpex).
  assert (Hn0 : (0 <= n)%Q) by apply ratio_nonneg.
  split.
  - intros label Hl. apply elem_of_cons in Hl as [->|Hl].
    + eapply Qle_trans; [apply Qmax2_l|]. apply Qmax2_l.
    + apply elem_of_app in Hl as [Hl|Hl].
      * eapply Qle_trans; [by apply Hc|].
        eapply Qle_trans; [apply Qmax2_r|]. apply Qmax2_l.
      * eapply Qle_trans; [by apply Hp|]. apply Qmax2_r.
  - set (m := Qmax2 (Qmax2 n c) p).
    assert (Hnm : (n <= m)%Q).
    { eapply Qle_trans; [apply Qmax2_l|]. apply Qmax2_l. }
    assert (Hzero : m = 0%Q -> (m == n)%Q).
    { intros Hz. apply Qle_antisym; [|done]. by rewrite Hz. }
    assert (Hname : (m == n)%Q ->
              exists label, label ∈ name cs :: categories cs ++ kp /\
                (m == similarity_ratio query (lower label))%Q).
    { intros Hmn. exists (name cs). split; [apply list_elem_of_here | done]. }
    destruct (Qmax2_cases (Qmax2 n c) p) as [E|E]; fold m in E.
    + destruct (Qmax2_cases n c) as [E'|E']; rewrite E' in E.
      * apply Hname. by rewrite E.
      * destruct Hcex as [Hc'|(label & Hl & Hc')].
        -- apply Hname, Hzero. by rewrite E.
        -- exists label. split; [|by rewrite E, Hc'].
           apply list_elem_of_further, elem_of_app. by left.
    + destruct Hpex as [Hp'|(label & Hl & Hp')].
      * apply Hname, Hzero. by rewrite E.
      * exists label. split; [|by rewrite E, Hp'].
        apply list_elem_of_further, elem_of_app. by right.
Qed.

Lemma filter_map_pair {A B} (g : A -> B) (p : B -> bool) (l : list A) :
  List.filter p (map g l) = map g (List.filter (fun x => p (g x)) l).
Proof.
  induction l as [|x l IH]; simpl; [done|].
  destruct (p (g x)); simpl; by rewrite IH.
Qed.

Lemma insert_desc_map {A} (f : A -> Q) x l :
  insert_desc snd (x, f x) (map (fun y => (y, f y)) l) =
  map (fun y => (y, f y)) (insert_desc f x l).
Proof.
  induction l as [|y r IH]; simpl; [done|].
  destruct (Qltb (f x) (f y)); simpl; [by rewrite IH | done].
Qed.

Lemma sort_desc_map {A} (f : A -> Q) l :
  sort_desc snd (map (fun y => (y, f y)) l) =
  map (fun y => (y, f y)) (sort_desc f l).
Proof.
  induction l as [|x l IH]; simpl; [done|].
  unfold sort_desc in *. simpl. by rewrite IH, insert_desc_map.
Qed.

(** [fuzzy_search] sorts the sheets it keeps by their score. *)
Lemma fuzzy_search_sorted_kept docs query threshold :
  fuzzy_search docs query threshold =
  sort_desc (fuzzy_score query) (fuzzy_kept docs query threshold).
Proof.
  unfold fuzzy_search, fuzzy_kept, fuzzy_score.
  rewrite (filter_map_pair (fun cs => (cs, max_similarity (lower query) cs))).
  rewrite (sort_desc_map (max_similarity (lower query))).
  rewrite map_map. simpl. apply map_id.
Qed.

End Fuzzy.

(** C3 (amended). For a query without tokens, [full_text_search] and
    [semantic_search] return the empty result and raise nothing, for every
    document set, path filter and run time.  The other two strategies do
    not tokenize: [basic_search] on the empty string returns every
    candidate sheet, and [fuzzy_search] returns the sheets whose score for
    the query as it is reaches the threshold. *)
Theorem tokenless_query_results rt docs query keyword_path0 threshold :
  _tokenize query = [] ->
  full_text_search docs query keyword_path0 = [] /\
  semantic_search rt docs query keyword_path0 = ([], Return []) /\
  basic_search docs "" keyword_path0 = candidates_of docs keyword_path0 /\
  fuzzy_search docs query threshold ≡ₚ
    List.filter (fun cs => Qle_bool threshold (fuzzy_score query cs)) docs.
Proof.
  intros Htok. split; [|split; [|split]].
  - unfold full_text_search. by rewrite Htok.
  - apply semantic_search_guards. by right.
  - unfold basic_search, search_cheatsheets. simpl.
    apply filter_all, matches_empty_query.
  - rewrite fuzzy_search_sorted_kept. apply sort_desc_perm.
Qed.

Lemma tokenless_query_results_witness :
  full_text_search example_docs "?!" (Some ["Computers"]) = [] /\
  semantic_search (Runtime true true (fun _ => None) (fun _ _ _ => 1%Q))
    example_docs "?!" (Some ["Computers"]) = ([], Return []) /\
  basic_search example_docs "" (Some ["Computers"]) =
  candidates_of example_docs (Some ["Computers"]) /\
  fuzzy_search example_docs "?!" (7 # 10) ≡ₚ
    List.filter (fun cs => Qle_bool (7 # 10) (fuzzy_score "?!" cs)) example_docs.
Proof.
  apply (tokenless_query_results
           (Runtime true true (fun _ => None) (fun _ _ _ => 1%Q))
           example_docs "?!" (Some ["Computers"]) (7 # 10)).
  vm_compute. reflexivity.
Defined.

(** C8. [fuzzy_search] scores a sheet by the largest similarity ratio
    between the lower-cased query and the lower-cased name, categories and
    keywords of the path (no other field); it returns exactly the sheets
    whose score is at least the threshold, in an order in which the scores
    never increase, and sheets with equal scores stay in the order of the
    document set. *)
Theorem fuzzy_search_ranked docs query threshold :
  (forall cs,
     (forall label, label ∈ score_labels cs ->
        (similarity_ratio (lower query) (lower label) <= fuzzy_score query cs)%Q) /\
     (exists label, label ∈ score_labels cs /\
        (fuzzy_score query cs == similarity_ratio (lower query) (lower label))%Q)) /\
  (forall cs cs',
     name cs = name cs' -> categories cs = categories cs' ->
     keyword_path cs = keyword_path cs' ->
     fuzzy_score query cs = fuzzy_score query cs') /\
  fuzzy_search docs query threshold ≡ₚ
    List.filter (fun cs => Qle_bool threshold (fuzzy_score query cs)) docs /\
  StronglySorted (fun x y => (fuzzy_score query y <= fuzzy_score query x)%Q)
    (fuzzy_search docs query threshold) /\
  (forall score,
     List.filter (fun cs => Qeq_bool (fuzzy_score query cs) score)
       (fuzzy_search docs query threshold) =
     List.filter (fun cs => Qeq_bool (fuzzy_score query cs) score)
       (List.filter (fun cs => Qle_bool threshold (fuzzy_score query cs)) docs)).
Proof.
  split; [|split; [|split; [|split]]].
  - intros cs. apply max_similarity_spec.
  - intros cs cs' Hn Hc Hp.
    unfold fuzzy_score, max_similarity, name_similarity, category_similarity,
      path_similarity. by rewrite Hn, Hc, Hp.
  - rewrite fuzzy_search_sorted_kept. apply sort_desc_perm.
  - rewrite fuzzy_search_sorted_kept. apply (sort_desc_sorted (fuzzy_score query)).
  - intros score. rewrite fuzzy_search_sorted_kept.
    apply (sort_desc_stable (fuzzy_score query)).
Qed.

(** The scores of the example sheets for the query ["gti"]: the best label
    of the two git sheets is the keyword ["Git"], with ratio 4/6. *)
Example fuzzy_scores_gti :
  map (fuzzy_score "gti") example_docs = [(4 # 6)%Q; (4 # 6)%Q; (4 # 12)%Q].
Proof. vm_compute. reflexivity. Qed.



(** ** The matcher always answers *)

Section MatcherTotal.

Variables a b : list ascii.

Lemma j2lenget_bound bound j2len j :
  row_ok bound j2len -> Difflib.j2lenget j2len j <= bound.
Proof.
  intros H. destruct j as [|j']; simpl; [lia|].
  destruct (j2len !! j') as [v|] eqn:Hv; simpl; [|lia].
  by apply (H j' v).
Qed.

Lemma scan_row_ok i alo blo bhi js j2len : forall newj2len best,
  alo <= i ->
  row_ok (i - alo) j2len ->
  row_ok (i + 1 - alo) newj2len ->
  best_ok alo (i + 1) best ->
  row_ok (i + 1 - alo) (fst (Difflib.scan_row i blo bhi js j2len newj2len best)) /\
  best_ok alo (i + 1) (snd (Difflib.scan_row i blo bhi js j2len newj2len best)).
Proof.
  induction js as [|j js' IH]; intros newj2len best Hi Hprev Hnew Hbest; simpl.
  - done.
  - destruct (Nat.ltb j blo); [by apply IH|].
    destruct (Nat.leb bhi j); [done|].
    pose proof (j2lenget_bound _ _ j Hprev) as Hk.
    apply IH; [done | done | |].
    + apply map_Forall_insert_2; [lia | done].
    + destruct (Nat.ltb_spec (snd best) (Difflib.j2lenget j2len j + 1)); [|done].
      unfold best_ok. simpl. lia.
Qed.

Lemma scan_rows_ok alo blo bhi n : forall i j2len best,
  alo <= i ->
  row_ok (i - alo) j2len ->
  best_ok alo i best ->
  best_ok alo (i + n) (Difflib.scan_rows a b (seq i n) blo bhi j2len best).
Proof.
  induction n as [|n IH]; intros i j2len best Hi Hprev Hbest; simpl.
  - by rewrite Nat.add_0_r.
  - set (js := match a !! i with Some elt => Difflib.b2j b elt | None => [] end).
    destruct (scan_row_ok i alo blo bhi js j2len ∅ best) as [Hrow Hb]; try done.
    { unfold best_ok in *. lia. }
    destruct (Difflib.scan_row i blo bhi js j2len ∅ best) as [newj2len best'].
    simpl in Hrow, Hb. replace (i + S n) with (S i + n) by lia.
    apply IH; [lia | | ].
    + by replace (S i - alo) with (i + 1 - alo) by lia.
    + by replace (S i) with (i + 1) by lia.
Qed.

Lemma extend_left_ok n want alo blo hi : forall best,
  best_ok alo hi best -> best_ok alo hi (Difflib.extend_left a b n want alo blo best).
Proof.
  induction n as [|n IH]; intros [[besti bestj] bestsize] Hbest; simpl; [done|].
  destruct (Nat.ltb_spec alo besti); simpl; [|done].
  destruct (_ && _ && _); [|done].
  apply IH. unfold best_ok in *. simpl in *. lia.
Qed.

Lemma extend_right_ok n want alo ahi bhi : forall best,
  best_ok alo ahi best -> best_ok alo ahi (Difflib.extend_right a b n want ahi bhi best).
Proof.
  induction n as [|n IH]; intros [[besti bestj] bestsize] Hbest; simpl; [done|].
  destruct (Nat.ltb_spec (besti + bestsize) ahi); simpl; [|done].
  destruct (_ && _ && _); [|done].
  apply IH. unfold best_ok in *. simpl in *. lia.
Qed.

(** The block that [find_longest_match] returns lies inside the range of
    [a] it was asked about. *)
Lemma find_longest_match_bounds alo ahi blo bhi :
  alo <= ahi -> best_ok alo ahi (Difflib.find_longest_match a b alo ahi blo bhi).
Proof.
  intros Hle. unfold Difflib.find_longest_match.
  apply extend_right_ok, extend_left_ok, extend_right_ok, extend_left_ok.
  pose proof (scan_rows_ok alo blo bhi (ahi - alo) alo ∅ (alo, blo, 0)) as H.
  replace (alo + (ahi - alo)) with ahi in H by lia.
  apply H; [done | | ].
  - intros j v Hv. by rewrite lookup_empty in Hv.
  - unfold best_ok. simpl. lia.
Qed.

Lemma blocks_loop_total fuel : forall queue blocks,
  queue_ok queue -> queue_work queue <= fuel ->
  is_Some (Difflib.blocks_loop a b fuel queue blocks).
Proof.
  induction fuel as [|fuel IH]; intros queue blocks Hok Hwork.
  - destruct queue as [|[[[alo ahi] blo] bhi] queue']; [by eexists|].
    simpl in Hwork. lia.
  - destruct queue as [|[[[alo ahi] blo] bhi] queue']; [by eexists|].
    apply Forall_cons in Hok as [Hle Hok']. cbn [Difflib.blocks_loop].
    pose proof (find_longest_match_bounds alo ahi blo bhi Hle) as Hb.
    destruct (Difflib.find_longest_match a b alo ahi blo bhi) as [[i j] k].
    unfold best_ok in Hb. simpl in Hb, Hwork.
    destruct (Nat.ltb_spec 0 k) as [Hk|Hk].
    + apply IH.
      * destruct (Nat.ltb_spec (i + k) ahi); simpl;
          destruct (Nat.ltb_spec alo i); simpl;
          destruct (Nat.ltb blo j); simpl;
          destruct (Nat.ltb (j + k) bhi); simpl;
          repeat (apply Forall_cons; split); try done; lia.
      * destruct (Nat.ltb (i + k) ahi && Nat.ltb (j + k) bhi);
          destruct (Nat.ltb alo i && Nat.ltb blo j); simpl; lia.
    + apply IH; [done | lia].
Qed.

Lemma get_matching_blocks_total : is_Some (Difflib.get_matching_blocks a b).
Proof.
  unfold Difflib.get_matching_blocks. apply blocks_loop_total.
  - apply Forall_cons. split; [lia | constructor].
  - simpl. lia.
Qed.

End MatcherTotal.

(** ** The cases of the test suite *)

Example test_get_keyword_children :
  get_keyword_children test_data (Some ["Computers"; "Programming"]) = ["Python"].
Proof. reflexivity. Qed.

Example test_search_by_keyword_path_exact :
  map name (search_by_keyword_path (cheatsheets test_data)
              ["Computers"; "Programming"; "Python"; "Testing"] true) = ["test1"].
Proof. vm_compute. reflexivity. Qed.

Example test_search_by_keyword_path_prefix :
  map name (search_by_keyword_path (cheatsheets test_data)
              ["Computers"; "Programming"] false) = ["test1"].
Proof. vm_compute. reflexivity. Qed.

Example test_add_cheatsheet_with_keyword_path :
  let '(added, st) :=
    add_cheatsheet "2025-03-17T09:00:00" true test_data "test4" "Test content 4"
      (Some ["rust"; "programming"]) (Some ["Computers"; "Programming"; "Rust"])
      (Some "Test cheatsheet 4") in
  added = true /\
  map name (cheatsheets st) = ["test1"; "test2"; "test3"; "test4"] /\
  get_keyword_children st (Some ["Computers"; "Programming"]) = ["Python"; "Rust"].
Proof. vm_compute. repeat split; reflexivity. Qed.

Example test_migrate_categories_to_paths :
  let '(migrated, st) := migrate_categories_to_paths test_data "Uncategorized" in
  migrated = 1 /\
  map keyword_path (cheatsheets st) =
    [Some ["Computers"; "Programming"; "Python"; "Testing"];
     Some ["Computers"; "Shell"; "Bash"];
     Some ["Uncategorized"; "git"]] /\
  get_keyword_children st None = ["Computers"; "Uncategorized"].
Proof. vm_compute. repeat split; reflexivity. Qed.

Example test_search_with_keyword_path_filter :
  let '(_, st) :=
    add_cheatsheet "2025-03-17T09:00:00" true test_data "test5"
      "Python content but in a different path" (Some ["docs"])
      (Some ["Documents"; "Programming"; "Python"]) (Some "Test cheatsheet 5") in
  map name (search_cheatsheets (cheatsheets st) "Python" (Some ["Computers"])) = ["test1"].
Proof. vm_compute. reflexivity. Qed.

(** * Further properties of the code *)

(** ** Adding, reading and removing sheets *)

Section Sheets.

Implicit Types (st : store) (cs : cheatsheet) (docs : list cheatsheet).

Lemma find_name_app docs docs' (n : string) :
  List.find (fun cs => String.eqb (name cs) n) (docs ++ docs') =
  match List.find (fun cs => String.eqb (name cs) n) docs with
  | Some cs => Some cs
  | None => List.find (fun cs => String.eqb (name cs) n) docs'
  end.
Proof.
  induction docs as [|cs r IH]; simpl; [done|].
  by destruct (String.eqb (name cs) n).
Qed.

Lemma existsb_name_find docs (n : string) :
  existsb (fun cs => String.eqb (name cs) n) docs =
  bool_decide (is_Some (List.find (fun cs => String.eqb (name cs) n) docs)).
Proof.
  induction docs as [|cs r IH]; simpl; [done|].
  by destruct (String.eqb (name cs) n).
Qed.

Lemma find_name_none docs (n : string) :
  List.find (fun cs => String.eqb (name cs) n) docs = None <->
  n ∉ map name docs.
Proof.
  induction docs as [|cs r IH]; simpl.
  - split; [intros _; apply not_elem_of_nil | done].
  - rewrite not_elem_of_cons. destruct (String.eqb_spec (name cs) n) as [E|E].
    + split; [done | intros [H _]; congruence].
    + rewrite IH. split; [intros ?; split; congruence | by intros [_ ?]].
Qed.

Lemma find_name_filter docs (n n' : string) :
  List.find (fun cs => String.eqb (name cs) n')
    (List.filter (fun cs => negb (String.eqb (name cs) n)) docs) =
  if String.eqb n n' then None
  else List.find (fun cs => String.eqb (name cs) n') docs.
Proof.
  induction docs as [|cs r IH]; simpl; [by destruct (String.eqb n n')|].
  destruct (String.eqb_spec (name cs) n) as [E|E]; simpl.
  - rewrite IH. destruct (String.eqb_spec n n') as [E'|E']; [done|].
    destruct (String.eqb_spec (name cs) n'); [congruence | done].
  - destruct (String.eqb_spec (name cs) n') as [E'|E']; [|done].
    destruct (String.eqb_spec n n'); [congruence | done].
Qed.

Lemma filter_length_eq {A} (f : A -> bool) (l : list A) :
  length (List.filter f l) = length l -> List.filter f l = l.
Proof.
  induction l as [|x l IH]; simpl; [done|].
  destruct (f x); simpl; intros H.
  - f_equal. apply IH. lia.
  - pose proof (filter_length_le f l). lia.
Qed.

Lemma filter_other_names docs (n : string) :
  n ∉ map name docs ->
  List.filter (fun cs => negb (String.eqb (name cs) n)) docs = docs.
Proof.
  induction docs as [|cs r IH]; simpl; [done|].
  rewrite not_elem_of_cons. intros [Hne Hr].
  destruct (String.eqb_spec (name cs) n); [congruence|]. simpl. by rewrite IH.
Qed.

End Sheets.

(** X1. A valid name that no sheet carries is accepted: the flag returned
    is the outcome of the save, the sheet built from the arguments can be
    read back under its name, and every other name reads as before. *)
Theorem add_then_get now saved st name0 content0 categories0 keyword_path0 description0 :
  valid_name name0 = true ->
  get_cheatsheet st name0 = None ->
  fst (add_cheatsheet now saved st name0 content0 categories0 keyword_path0
         description0) = saved /\
  get_cheatsheet
    (snd (add_cheatsheet now saved st name0 content0 categories0 keyword_path0
            description0)) name0 =
  Some (new_sheet now name0 content0 categories0 keyword_path0 description0) /\
  forall other, other <> name0 ->
    get_cheatsheet
      (snd (add_cheatsheet now saved st name0 content0 categories0 keyword_path0
              description0)) other =
    get_cheatsheet st other.
Proof.
  intros Hvalid Hfresh. unfold get_cheatsheet in Hfresh.
  assert (Hadd : add_cheatsheet now saved st name0 content0 categories0 keyword_path0
                   description0 =
    (saved, {| cheatsheets :=
                 cheatsheets st ++
                 [new_sheet now name0 content0 categories0 keyword_path0 description0];
               keyword_taxonomy :=
                 if truthy keyword_path0
                 then _ensure_keyword_path_exists (keyword_taxonomy st)
                        (or_default keyword_path0)
                 else keyword_taxonomy st |})).
  { unfold add_cheatsheet, new_sheet.
    rewrite Hvalid, existsb_name_find, Hfresh. simpl.
    destruct keyword_path0 as [[|k r]|]; reflexivity. }
  rewrite Hadd. unfold get_cheatsheet. simpl. split; [done|]. split.
  - rewrite find_name_app, Hfresh. simpl. by rewrite String.eqb_refl.
  - intros other Hne. rewrite find_name_app.
    destruct (List.find (fun cs => String.eqb (name cs) other) (cheatsheets st));
      [done|].
    simpl. destruct (String.eqb_spec name0 other); [congruence | done].
Qed.

Lemma add_then_get_witness :
  fst (add_cheatsheet "2025-03-17T09:00:00" true test_data "test4" "Test content 4"
         (Some ["rust"]) (Some ["Computers"; "Programming"; "Rust"]) None) = true /\
  get_cheatsheet
    (snd (add_cheatsheet "2025-03-17T09:00:00" true test_data "test4" "Test content 4"
            (Some ["rust"]) (Some ["Computers"; "Programming"; "Rust"]) None)) "test4" =
  Some (new_sheet "2025-03-17T09:00:00" "test4" "Test content 4" (Some ["rust"])
          (Some ["Computers"; "Programming"; "Rust"]) None) /\
  forall other, other <> "test4" ->
    get_cheatsheet
      (snd (add_cheatsheet "2025-03-17T09:00:00" true test_data "test4" "Test content 4"
              (Some ["rust"]) (Some ["Computers"; "Programming"; "Rust"]) None)) other =
    get_cheatsheet test_data other.
Proof.
  apply (add_then_get "2025-03-17T09:00:00" true test_data "test4" "Test content 4"
           (Some ["rust"]) (Some ["Computers"; "Programming"; "Rust"]) None);
    vm_compute; reflexivity.
Defined.

(** X2. [add_cheatsheet] either refuses or appends: it leaves the store
    as it is, sheets and taxonomy, exactly when the name is not valid or a
    sheet already carries it, and then it returns [False] whatever the
    other arguments; otherwise the store has one sheet more. *)
Theorem add_refused_or_appended now saved st name0 content0 categories0 keyword_path0
    description0 :
  (snd (add_cheatsheet now saved st name0 content0 categories0 keyword_path0
          description0) = st <->
   valid_name name0 = false \/ is_Some (get_cheatsheet st name0)) /\
  (valid_name name0 = false \/ is_Some (get_cheatsheet st name0) ->
   fst (add_cheatsheet now saved st name0 content0 categories0 keyword_path0
          description0) = false) /\
  (snd (add_cheatsheet now saved st name0 content0 categories0 keyword_path0
          description0) <> st ->
   length (cheatsheets
             (snd (add_cheatsheet now saved st name0 content0 categories0
                     keyword_path0 description0))) =
   S (length (cheatsheets st))).
Proof.
  assert (Hrefused : valid_name name0 = false \/ is_Some (get_cheatsheet st name0) ->
    add_cheatsheet now saved st name0 content0 categories0 keyword_path0 description0 =
    (false, st)).
  { unfold add_cheatsheet, get_cheatsheet. intros [-> | Hdup]; [done|].
    destruct (valid_name name0); [|done]. simpl.
    rewrite existsb_name_find. by rewrite bool_decide_eq_true_2. }
  assert (Hgrow : ~ (valid_name name0 = false \/ is_Some (get_cheatsheet st name0)) ->
    length (cheatsheets
              (snd (add_cheatsheet now saved st name0 content0 categories0
                      keyword_path0 description0))) =
    S (length (cheatsheets st))).
  { intros Hno. unfold add_cheatsheet, get_cheatsheet in *.
    destruct (valid_name name0); [|by destruct Hno; left]. simpl.
    rewrite existsb_name_find.
    rewrite bool_decide_eq_false_2 by (intros H; apply Hno; by right).
    destruct (truthy keyword_path0); simpl; rewrite length_app; simpl; lia. }
  split; [split|split].
  - intros Hsame.
    destruct (valid_name name0) eqn:Hv; [|by left]. right.
    destruct (get_cheatsheet st name0) eqn:Hg; [eauto|]. exfalso.
    assert (Hlen : length (cheatsheets
              (snd (add_cheatsheet now saved st name0 content0 categories0
                      keyword_path0 description0))) = S (length (cheatsheets st))).
    { apply Hgrow. intros [?|[? ?]]; done. }
    rewrite Hsame in Hlen. lia.
  - intros H. by rewrite Hrefused.
  - intros H. by rewrite Hrefused.
  - intros Hdiff. apply Hgrow. intros H. apply Hdiff. by rewrite Hrefused.
Qed.

Example add_refused_example :
  add_cheatsheet "2025-03-17T09:00:00" true test_data "test1" "again" None
    (Some ["Brand"; "New"]) None = (false, test_data) /\
  add_cheatsheet "2025-03-17T09:00:00" true test_data "no spaces" "" None None None =
    (false, test_data).
Proof. split; vm_compute; reflexivity. Qed.

(** X3. After [remove_cheatsheet] the name reads as absent and every other
    name reads as before; the taxonomy is not touched, so the taxonomy
    invariant survives and the branches of the removed sheet stay; the
    call returns [False], and changes nothing, exactly when no sheet had
    the name. *)
Theorem remove_then_get saved st name0 :
  get_cheatsheet (snd (remove_cheatsheet saved st name0)) name0 = None /\
  (forall other, other <> name0 ->
     get_cheatsheet (snd (remove_cheatsheet saved st name0)) other =
     get_cheatsheet st other) /\
  keyword_taxonomy (snd (remove_cheatsheet saved st name0)) = keyword_taxonomy st /\
  (taxonomy_invariant st = true ->
   taxonomy_invariant (snd (remove_cheatsheet saved st name0)) = true) /\
  (get_cheatsheet st name0 = None ->
   remove_cheatsheet saved st name0 = (false, st)) /\
  (is_Some (get_cheatsheet st name0) ->
   fst (remove_cheatsheet saved st name0) = saved).
Proof.
  assert (Hsnd : snd (remove_cheatsheet saved st name0) =
    {| cheatsheets :=
         List.filter (fun cs => negb (String.eqb (name cs) name0)) (cheatsheets st);
       keyword_taxonomy := keyword_taxonomy st |}).
  { unfold remove_cheatsheet. by destruct (Nat.eqb _ _). }
  rewrite Hsnd. unfold get_cheatsheet. simpl.
  split; [|split; [|split; [|split; [|split]]]].
  - by rewrite find_name_filter, String.eqb_refl.
  - intros other Hne. rewrite find_name_filter.
    destruct (String.eqb_spec name0 other); [congruence | done].
  - done.
  - unfold taxonomy_invariant. simpl. rewrite !forallb_forall.
    intros H cs Hcs. apply H. by apply filter_In in Hcs as [? _].
  - intros Hnone. apply find_name_none in Hnone.
    unfold remove_cheatsheet. simpl. rewrite filter_other_names by done.
    rewrite Nat.eqb_refl. by destruct st.
  - intros Hsome. unfold remove_cheatsheet. simpl.
    destruct (Nat.eqb_spec
      (length (List.filter (fun cs => negb (String.eqb (name cs) name0)) (cheatsheets st)))
      (length (cheatsheets st))) as [E|E]; [|done].
    apply filter_length_eq in E.
    assert (List.find (fun cs => String.eqb (name cs) name0) (cheatsheets st) = None)
      as Hn; [|rewrite Hn in Hsome; by destruct Hsome].
    rewrite <- E, find_name_filter. by rewrite String.eqb_refl.
Qed.

(** X4. Removing a sheet right after it was added gives back the list of
    sheets as it was, while the taxonomy keeps the path that the addition
    created. *)
Theorem add_then_remove now saved saved' st name0 content0 categories0 keyword_path0
    description0 :
  valid_name name0 = true ->
  get_cheatsheet st name0 = None ->
  remove_cheatsheet saved'
    (snd (add_cheatsheet now saved st name0 content0 categories0 keyword_path0
            description0)) name0 =
  (saved',
   {| cheatsheets := cheatsheets st;
      keyword_taxonomy :=
        _ensure_keyword_path_exists (keyword_taxonomy st)
          (if truthy keyword_path0 then or_default keyword_path0 else []) |}).
Proof.
  intros Hvalid Hfresh. unfold add_cheatsheet, get_cheatsheet in *.
  rewrite Hvalid, existsb_name_find, Hfresh. simpl.
  apply find_name_none in Hfresh.
  assert (Hf : forall cs, name cs = name0 ->
    List.filter (fun cs => negb (String.eqb (name cs) name0)) (cheatsheets st ++ [cs]) =
    cheatsheets st).
  { intros cs Hn. rewrite List.filter_app, filter_other_names by done. simpl.
    rewrite Hn, String.eqb_refl. simpl. apply app_nil_r. }
  unfold remove_cheatsheet.
  destruct (truthy keyword_path0); simpl; rewrite Hf by done;
    rewrite length_app; simpl;
    (destruct (Nat.eqb_spec (length (cheatsheets st)) (length (cheatsheets st) + 1));
       [lia | done]).
Qed.

Lemma add_then_remove_witness :
  remove_cheatsheet true
    (snd (add_cheatsheet "2025-03-17T09:00:00" true test_data "test4" "Test content 4"
            None (Some ["Computers"; "Programming"; "Rust"]) None)) "test4" =
  (true,
   {| cheatsheets := cheatsheets test_data;
      keyword_taxonomy :=
        _ensure_keyword_path_exists (keyword_taxonomy test_data)
          (if truthy (Some ["Computers"; "Programming"; "Rust"])
           then or_default (Some ["Computers"; "Programming"; "Rust"]) else []) |}).
Proof.
  apply (add_then_remove "2025-03-17T09:00:00" true true test_data "test4"
           "Test content 4" None (Some ["Computers"; "Programming"; "Rust"]) None);
    vm_compute; reflexivity.
Defined.

(** ** Migration of the legacy categories *)

Lemma migration_cases default_root cs :
  (needs_migration cs = false /\ migrate_one default_root cs = cs /\
   (is_Some (keyword_path cs) \/ (keyword_path cs = None /\ categories cs = []))) \/
  (exists main others,
     keyword_path cs = None /\ categories cs = main :: others /\
     needs_migration cs = true /\
     migrate_one default_root cs = with_keyword_path cs [default_root; main]).
Proof.
  unfold needs_migration, migrate_one.
  destruct (keyword_path cs) as [kp|]; [left; eauto|].
  destruct (categories cs) as [|main others]; [left; eauto|].
  right. by exists main, others.
Qed.

Lemma dry_run_count_acc docs : forall n,
  dry_run_count docs n = n + length (List.filter needs_migration docs).
Proof.
  induction docs as [|cs rest IH]; intros n; simpl; [lia|].
  destruct (migration_cases "" cs) as [(-> & _ & [[kp Hkp]|[Hkp Hc]])|
                                       (main & others & Hkp & Hc & -> & _)];
    rewrite Hkp; try rewrite Hc; rewrite IH; simpl; lia.
Qed.

Lemma migrate_loop_sheets default_root docs : forall tax n,
  fst (fst (migrate_loop default_root docs tax n)) = map (migrate_one default_root) docs /\
  snd (migrate_loop default_root docs tax n) =
    n + length (List.filter needs_migration docs).
Proof.
  induction docs as [|cs rest IH]; intros tax n; simpl; [split; [done | lia]|].
  destruct (migration_cases default_root cs) as [(-> & -> & [[kp Hkp]|[Hkp Hc]])|
                                       (main & others & Hkp & Hc & -> & ->)];
    rewrite Hkp; try rewrite Hc.
  - destruct (IH tax n) as [H1 H2].
    destruct (migrate_loop default_root rest tax n) as [[rest' tax'] n'].
    simpl in *. by rewrite H1, H2.
  - destruct (IH tax n) as [H1 H2].
    destruct (migrate_loop default_root rest tax n) as [[rest' tax'] n'].
    simpl in *. by rewrite H1, H2.
  - destruct (IH (_ensure_keyword_path_exists tax [default_root; main]) (S n))
      as [H1 H2].
    destruct (migrate_loop default_root rest _ (S n)) as [[rest' tax'] n'].
    simpl in *. rewrite H1, H2. split; [done | lia].
Qed.

Lemma migrate_one_settled default_root cs :
  needs_migration (migrate_one default_root cs) = false.
Proof.
  unfold needs_migration, migrate_one.
  destruct (keyword_path cs) eqn:Hkp; [by rewrite Hkp|].
  destruct (categories cs) eqn:Hc; [by rewrite Hkp, Hc | done].
Qed.

Lemma migrate_one_fixed default_root cs :
  needs_migration cs = false -> migrate_one default_root cs = cs.
Proof.
  unfold needs_migration, migrate_one.
  destruct (keyword_path cs); [done|]. by destruct (categories cs).
Qed.

Lemma migrate_loop_nothing default_root docs : forall tax n,
  Forall (fun cs => needs_migration cs = false) docs ->
  migrate_loop default_root docs tax n = (docs, tax, n).
Proof.
  induction docs as [|cs rest IH]; intros tax n Hall; [done|].
  apply Forall_cons in Hall as [Hcs Hrest]. simpl.
  destruct (migration_cases default_root cs) as [(_ & _ & [[kp Hkp]|[Hkp Hc]])|
                                       (main & others & _ & _ & Hn & _)];
    [| |congruence]; rewrite Hkp; try rewrite Hc; by rewrite IH.
Qed.

Lemma migrate_sheets st default_root :
  cheatsheets (snd (migrate_categories_to_paths st default_root)) =
  map (migrate_one default_root) (cheatsheets st).
Proof.
  unfold migrate_categories_to_paths.
  destruct (migrate_loop_sheets default_root (cheatsheets st) (keyword_taxonomy st) 0)
    as [H1 _].
  by destruct (migrate_loop default_root (cheatsheets st) (keyword_taxonomy st) 0)
    as [[docs' tax'] n'].
Qed.

Lemma migrate_one_name default_root cs : name (migrate_one default_root cs) = name cs.
Proof.
  unfold migrate_one. destruct (keyword_path cs); [done|].
  by destruct (categories cs).
Qed.

(** X5. [migrate_categories_to_paths] returns the number that the dry run
    of the command line counts: the sheets without keyword path that have
    a category.  Afterwards no such sheet is left.  Names, contents,
    categories and descriptions are as before, and every sheet that had a
    keyword path still has the same one. *)
Theorem migrate_counts_and_keeps st default_root :
  fst (migrate_categories_to_paths st default_root) =
    dry_run_count (cheatsheets st) 0 /\
  dry_run_count (cheatsheets (snd (migrate_categories_to_paths st default_root))) 0 = 0 /\
  Forall2 (fun cs cs' =>
             name cs' = name cs /\ content cs' = content cs /\
             categories cs' = categories cs /\ description cs' = description cs /\
             (forall kp, keyword_path cs = Some kp -> keyword_path cs' = Some kp))
    (cheatsheets st) (cheatsheets (snd (migrate_categories_to_paths st default_root))).
Proof.
  unfold migrate_categories_to_paths.
  destruct (migrate_loop_sheets default_root (cheatsheets st) (keyword_taxonomy st) 0)
    as [H1 H2].
  destruct (migrate_loop default_root (cheatsheets st) (keyword_taxonomy st) 0)
    as [[docs' tax'] n'].
  simpl in *. subst docs' n'. rewrite !dry_run_count_acc. split; [done|]. split.
  - simpl. induction (cheatsheets st) as [|cs rest IH]; simpl; [done|].
    by rewrite migrate_one_settled.
  - induction (cheatsheets st) as [|cs rest IH]; simpl; constructor; [|done].
    unfold migrate_one. destruct (keyword_path cs) eqn:Hkp.
    + repeat split; try done. by rewrite Hkp.
    + destruct (categories cs) eqn:Hc; simpl; repeat split; try done;
        rewrite Hkp; done.
Qed.

(** X6. The migration is idempotent: a second run, with whatever root,
    migrates nothing and leaves sheets and taxonomy as the first run left
    them. *)
Theorem migrate_idempotent st default_root default_root' :
  migrate_categories_to_paths
    (snd (migrate_categories_to_paths st default_root)) default_root' =
  (0, snd (migrate_categories_to_paths st default_root)).
Proof.
  unfold migrate_categories_to_paths at 2 3.
  destruct (migrate_loop_sheets default_root (cheatsheets st) (keyword_taxonomy st) 0)
    as [H1 _].
  destruct (migrate_loop default_root (cheatsheets st) (keyword_taxonomy st) 0)
    as [[docs' tax'] n'].
  simpl in *. unfold migrate_categories_to_paths. simpl.
  rewrite migrate_loop_nothing; [done|].
  subst docs'. apply Forall_forall. intros cs Hcs.
  apply list_elem_of_In, in_map_iff in Hcs as (cs0 & <- & _).
  apply migrate_one_settled.
Qed.

(** X7. No operation on the sheets lets two of them share a name: if the
    names are pairwise different before [add_cheatsheet],
    [remove_cheatsheet] or [migrate_categories_to_paths], they are so
    afterwards. *)
Theorem names_stay_unique now saved st name0 content0 categories0 keyword_path0
    description0 default_root :
  names_unique st = true ->
  names_unique (snd (add_cheatsheet now saved st name0 content0 categories0
                       keyword_path0 description0)) = true /\
  names_unique (snd (remove_cheatsheet saved st name0)) = true /\
  names_unique (snd (migrate_categories_to_paths st default_root)) = true.
Proof.
  unfold names_unique. rewrite !bool_decide_eq_true. intros Hu.
  split; [|split].
  - unfold add_cheatsheet. destruct (valid_name name0); [|done]. simpl.
    destruct (existsb _ (cheatsheets st)) eqn:Hdup; [done|].
    assert (Hfresh : name0 ∉ map name (cheatsheets st)).
    { apply find_name_none. rewrite existsb_name_find in Hdup.
      apply bool_decide_eq_false in Hdup.
      destruct (List.find _ (cheatsheets st)); [|done]. exfalso. eauto. }
    destruct (truthy keyword_path0); simpl; rewrite map_app; simpl;
      apply NoDup_app; (split; [done|]); (split; [|apply NoDup_singleton]);
      intros x Hx Hx'; apply list_elem_of_singleton in Hx'; by subst x.
  - assert (Hsnd : cheatsheets (snd (remove_cheatsheet saved st name0)) =
      List.filter (fun cs => negb (String.eqb (name cs) name0)) (cheatsheets st)).
    { unfold remove_cheatsheet. by destruct (Nat.eqb _ _). }
    rewrite Hsnd. clear Hsnd.
    induction (cheatsheets st) as [|cs rest IH]; simpl; [constructor|].
    simpl in Hu. apply NoDup_cons in Hu as [Hcs Hrest].
    destruct (negb _); simpl; [|by apply IH].
    apply NoDup_cons. split; [|by apply IH].
    intros Hin. apply Hcs.
    apply list_elem_of_In, in_map_iff in Hin as (cs' & Hn & Hin).
    apply filter_In in Hin as [Hin _].
    apply list_elem_of_In, in_map_iff. eauto.
  - rewrite migrate_sheets, map_map.
    erewrite map_ext; [exact Hu|]. intros cs. apply migrate_one_name.
Qed.

Lemma names_stay_unique_witness :
  names_unique (snd (add_cheatsheet "2025-03-17T09:00:00" true test_data "test4" "" None
                       None None)) = true /\
  names_unique (snd (remove_cheatsheet true test_data "test2")) = true /\
  names_unique (snd (migrate_categories_to_paths test_data "Uncategorized")) = true.
Proof.
  apply (names_stay_unique "2025-03-17T09:00:00" true test_data "test4" "" None None None
           "Uncategorized").
  vm_compute. reflexivity.
Defined.

(** ** What [_ensure_keyword_path_exists] creates and what it keeps *)

Section TaxonomyGrowth.

Implicit Types (t current : taxonomy) (kids : list (string * taxonomy)).
Implicit Types (k keyword : string) (p q path : list string).

Lemma chain_exists_leaf q : chain_exists (Node []) q = true -> q = [].
Proof. by destruct q. Qed.

Lemma chain_exists_ensure_iff q : forall current path,
  chain_exists (_ensure_keyword_path_exists current path) q = true <->
  chain_exists current q = true \/ q `prefix_of` path.
Proof.
  induction q as [|k r IH]; intros current path.
  - split; [by left | done].
  - destruct path as [|keyword rest].
    + split; [by left|]. intros [?|Hp]; [done|]. by apply prefix_nil_inv in Hp.
    + cbn [chain_exists]. rewrite ensure_step_child.
      destruct (String.eqb_spec k keyword) as [->|Hne].
      * rewrite IH.
        destruct (get_child keyword (children_of current)) as [c|]; simpl.
        -- split; (intros [?|Hp]; [by left | right]).
           ++ by apply prefix_cons.
           ++ by apply prefix_cons_inv_2 in Hp.
        -- split.
           ++ intros [Hc|Hp]; right.
              ** apply chain_exists_leaf in Hc as ->. apply prefix_cons, prefix_nil.
              ** by apply prefix_cons.
           ++ intros [?|Hp]; [done|]. right. by apply prefix_cons_inv_2 in Hp.
      * split; [by left|]. intros [?|Hp]; [done|].
        by apply prefix_cons_inv_1 in Hp.
Qed.

Lemma get_child_is_Some k kids : is_Some (get_child k kids) <-> k ∈ map fst kids.
Proof.
  induction kids as [|[k0 c] r IH]; simpl.
  - split; [by intros [? ?] | intros H; by apply elem_of_nil in H].
  - rewrite elem_of_cons. destruct (String.eqb_spec k k0) as [->|Hne].
    + split; [by left | eauto].
    + rewrite IH. split; [by right | by intros [?|?]].
Qed.

Lemma children_iff_chain p : forall current k,
  k ∈ walk_children current p <-> chain_exists current (p ++ [k]) = true.
Proof.
  induction p as [|k0 r IH]; intros current k; simpl.
  - rewrite <- get_child_is_Some.
    destruct (get_child k (children_of current)); split; eauto; try done;
      by intros [? ?].
  - destruct (get_child k0 (children_of current)) as [c|]; [apply IH|].
    split; [intros H; by apply elem_of_nil in H | done].
Qed.

Lemma alter_child_keys f k kids : map fst (alter_child f k kids) = map fst kids.
Proof.
  induction kids as [|[k0 c] r IH]; simpl; [done|].
  destruct (String.eqb k k0); simpl; [done | by rewrite IH].
Qed.

Lemma children_grow q : forall current path,
  chain_exists current q = true ->
  walk_children current q `prefix_of`
  walk_children (_ensure_keyword_path_exists current path) q.
Proof.
  induction q as [|k r IH]; intros current path Hq.
  - destruct path as [|keyword rest]; [done|]. simpl.
    rewrite alter_child_keys. destruct (has_key keyword (children_of current)); [done|].
    rewrite map_app. by apply prefix_app_r.
  - destruct path as [|keyword rest]; [done|].
    cbn [walk_children chain_exists] in *. rewrite ensure_step_child.
    destruct (get_child k (children_of current)) as [c|] eqn:Hc; [|done].
    destruct (String.eqb_spec k keyword) as [->|Hne]; [|done].
    rewrite Hc. simpl. by apply IH.
Qed.

Lemma ensure_prefix_absorbed p : forall current q,
  _ensure_keyword_path_exists (_ensure_keyword_path_exists current (p ++ q)) p =
  _ensure_keyword_path_exists current (p ++ q).
Proof.
  induction p as [|keyword rest IH]; intros current q; [done|].
  rewrite <- app_comm_cons.
  pose proof (ensure_has_key current keyword (rest ++ q)) as Hk.
  remember (_ensure_keyword_path_exists current (keyword :: rest ++ q)) as once eqn:Honce.
  cbn [_ensure_keyword_path_exists]. rewrite Hk.
  rewrite Honce. cbn [_ensure_keyword_path_exists children_of].
  rewrite alter_child_compose. f_equal.
  apply alter_child_ext. intros c. apply IH.
Qed.

End TaxonomyGrowth.

(** X8. [ensure_path_exists] creates the prefixes of the path and nothing
    else: a path resolves afterwards exactly when it resolved before or is
    a prefix of the path ensured; and a keyword is listed under a path
    afterwards exactly when it was listed before or the path extended by
    it is a prefix of the path ensured. *)
Theorem ensure_creates_only_prefixes (st : store) (P q : list string) :
  (chain_exists (keyword_taxonomy (ensure_path_exists st P)) q = true <->
   chain_exists (keyword_taxonomy st) q = true \/ q `prefix_of` P) /\
  (forall k,
     k ∈ get_keyword_children (ensure_path_exists st P) (Some q) <->
     k ∈ get_keyword_children st (Some q) \/ (q ++ [k]) `prefix_of` P).
Proof.
  unfold get_keyword_children, ensure_path_exists. simpl. split.
  - apply chain_exists_ensure_iff.
  - intros k. rewrite !children_iff_chain. apply chain_exists_ensure_iff.
Qed.

(** X9. [get_keyword_children] lists a keyword under a path exactly when
    the path extended by the keyword resolves in the taxonomy; so a path
    that does not resolve has no children, and the answer is the empty
    list rather than an error. *)
Theorem children_are_the_resolving_extensions (st : store) (path : list string) :
  (forall k,
     k ∈ get_keyword_children st (Some path) <->
     chain_exists (keyword_taxonomy st) (path ++ [k]) = true) /\
  (chain_exists (keyword_taxonomy st) path = false ->
   get_keyword_children st (Some path) = []).
Proof.
  unfold get_keyword_children. simpl. split.
  - intros k. apply children_iff_chain.
  - generalize (keyword_taxonomy st). induction path as [|k r IH]; intros t; [done|].
    simpl. destruct (get_child k (children_of t)); [apply IH | done].
Qed.

(** X10. [ensure_path_exists] never removes or reorders a keyword: under
    every path that resolved before, the children listed before are an
    initial segment of the children listed afterwards. *)
Theorem ensure_keeps_children_in_order (st : store) (P q : list string) :
  chain_exists (keyword_taxonomy st) q = true ->
  get_keyword_children st (Some q) `prefix_of`
  get_keyword_children (ensure_path_exists st P) (Some q).
Proof. unfold get_keyword_children, ensure_path_exists. simpl. apply children_grow. Qed.

Lemma ensure_keeps_children_in_order_witness :
  get_keyword_children test_data (Some ["Computers"]) `prefix_of`
  get_keyword_children
    (ensure_path_exists test_data ["Computers"; "VCS"; "Git"]) (Some ["Computers"]).
Proof.
  apply (ensure_keeps_children_in_order test_data ["Computers"; "VCS"; "Git"]
           ["Computers"]).
  vm_compute. reflexivity.
Defined.

(** X11. Ensuring a prefix of a path that was ensured before changes
    nothing: the taxonomy, key order included, is the one the longer path
    left. *)
Theorem ensure_prefix_is_noop (st : store) (p q : list string) :
  ensure_path_exists (ensure_path_exists st (p ++ q)) p =
  ensure_path_exists st (p ++ q).
Proof.
  unfold ensure_path_exists. simpl. f_equal. apply ensure_prefix_absorbed.
Qed.

(** ** Searching by keyword path and listing keywords *)

Section KeywordPaths.

Implicit Types (docs : list cheatsheet) (cs : cheatsheet) (p q path : list string).

Lemma search_prefix_filter docs p :
  search_by_keyword_path docs p false = List.filter (at_or_below p) docs.
Proof.
  unfold search_by_keyword_path. apply filter_ext. intros cs. unfold at_or_below.
  destruct (keyword_path cs); [|done]. simpl. by destruct (_is_prefix p l).
Qed.

Lemma search_exact_filter docs p :
  search_by_keyword_path docs p true =
  List.filter (fun cs => bool_decide (keyword_path cs = Some p)) docs.
Proof.
  unfold search_by_keyword_path. apply filter_ext. intros cs.
  destruct (keyword_path cs) as [kp|]; simpl; unfold list_eqb;
    repeat case_bool_decide; try done; congruence.
Qed.

Lemma filter_sublist {A} (f : A -> bool) (l : list A) : List.filter f l `sublist_of` l.
Proof.
  induction l as [|x l IH]; simpl; [done|].
  destruct (f x); [by apply sublist_skip | by apply sublist_cons].
Qed.

Lemma filter_implied {A} (f g : A -> bool) (l : list A) :
  (forall x, f x = true -> g x = true) ->
  List.filter f (List.filter g l) = List.filter f l.
Proof.
  intros Hfg. induction l as [|x l IH]; simpl; [done|].
  destruct (g x) eqn:Hg; simpl.
  - by rewrite IH.
  - rewrite IH. destruct (f x) eqn:Hf; [|done]. apply Hfg in Hf. congruence.
Qed.

Lemma filter_implied_sublist {A} (f g : A -> bool) (l : list A) :
  (forall x, f x = true -> g x = true) ->
  List.filter f l `sublist_of` List.filter g l.
Proof.
  intros Hfg. rewrite <- (filter_implied f g l Hfg). apply filter_sublist.
Qed.

Lemma is_prefix_app_l p q (kp : list string) :
  _is_prefix (p ++ q) kp = true -> _is_prefix p kp = true.
Proof.
  rewrite !is_prefix_iff_prefix_of. intros H.
  etrans; [|exact H]. by apply prefix_app_r.
Qed.

End KeywordPaths.

(** X12. [search_by_keyword_path] keeps the order of the sheets.  The
    exact matches of a path are among its prefix matches; a longer path
    selects among what a shorter one selects, so that searching the
    results of [p] for [p + q] is searching the sheets for [p + q]; and
    the empty path selects every sheet that has a keyword path. *)
Theorem search_by_keyword_path_narrows docs (p q : list string) :
  search_by_keyword_path docs p true `sublist_of` search_by_keyword_path docs p false /\
  search_by_keyword_path docs (p ++ q) false `sublist_of`
    search_by_keyword_path docs p false /\
  search_by_keyword_path docs p false `sublist_of` docs /\
  search_by_keyword_path (search_by_keyword_path docs p false) (p ++ q) false =
    search_by_keyword_path docs (p ++ q) false /\
  search_by_keyword_path docs [] false =
    List.filter (fun cs => bool_decide (is_Some (keyword_path cs))) docs.
Proof.
  rewrite !search_prefix_filter, search_exact_filter.
  split; [|split; [|split; [|split]]].
  - apply filter_implied_sublist. intros cs Hcs.
    apply bool_decide_eq_true in Hcs. unfold at_or_below. rewrite Hcs.
    apply is_prefix_spec. split; [lia | done].
  - apply filter_implied_sublist. intros cs. unfold at_or_below.
    destruct (keyword_path cs); [apply is_prefix_app_l | done].
  - apply filter_sublist.
  - apply filter_implied. intros cs. unfold at_or_below.
    destruct (keyword_path cs); [apply is_prefix_app_l | done].
  - apply filter_ext. intros cs. unfold at_or_below.
    destruct (keyword_path cs) as [kp|]; case_bool_decide as H.
    + by destruct kp.
    + exfalso. eauto.
    + by destruct H.
    + done.
Qed.

Section Listing.

Implicit Types (docs : list cheatsheet) (cs : cheatsheet) (p path : list string).

Lemma dict_get_set {V} (k k' : string) (v : V) d :
  dict_get k' (dict_set k v d) = if String.eqb k' k then Some v else dict_get k' d.
Proof.
  induction d as [|[k0 v0] r IH]; simpl.
  - done.
  - destruct (String.eqb_spec k k0) as [->|Hne]; simpl.
    + by destruct (String.eqb k' k0).
    + destruct (String.eqb_spec k' k0) as [->|Hne'].
      * destruct (String.eqb_spec k0 k); [congruence | done].
      * apply IH.
Qed.

Lemma dict_set_fresh {V} (k : string) (v : V) d :
  k ∉ map fst d -> dict_set k v d = d ++ [(k, v)].
Proof.
  induction d as [|[k0 v0] r IH]; simpl; [done|].
  rewrite not_elem_of_cons. intros [Hne Hr].
  destruct (String.eqb_spec k k0); [congruence|]. by rewrite IH.
Qed.

Lemma fold_dict_get {V} (f : string -> V) children : forall d k,
  dict_get k (foldl (fun result child => dict_set child (f child) result) d children) =
  if bool_decide (k ∈ children) then Some (f k) else dict_get k d.
Proof.
  induction children as [|c r IH]; intros d k; simpl; [done|].
  rewrite IH, dict_get_set.
  destruct (decide (k ∈ r)) as [Hin|Hin].
  - rewrite !bool_decide_eq_true_2; [done | by apply list_elem_of_further | done].
  - rewrite (bool_decide_eq_false_2 (k ∈ r)) by done.
    destruct (String.eqb_spec k c) as [->|Hne].
    + rewrite bool_decide_eq_true_2; [done | apply list_elem_of_here].
    + rewrite bool_decide_eq_false_2; [done|].
      rewrite elem_of_cons. by intros [?|?].
Qed.

Lemma fold_dict_nodup {V} (f : string -> V) children : forall d,
  NoDup (map fst d ++ children) ->
  foldl (fun result child => dict_set child (f child) result) d children =
  d ++ map (fun child => (child, f child)) children.
Proof.
  induction children as [|c r IH]; intros d Hnd; simpl; [by rewrite app_nil_r|].
  apply NoDup_app in Hnd as (Hd & Hdis & Hcr).
  apply NoDup_cons in Hcr as [Hc Hr].
  rewrite dict_set_fresh.
  - rewrite IH; [by rewrite <- app_assoc|].
    rewrite map_app. simpl. rewrite <- app_assoc. simpl.
    apply NoDup_app. split; [done|]. split; [|by apply NoDup_cons].
    intros x Hx. apply Hdis in Hx. done.
  - intros Hin. apply (Hdis c Hin). apply list_elem_of_here.
Qed.

Lemma list_keywords_fold st (path0 : option (list string)) (counts : bool) :
  list_keywords st path0 counts =
  foldl (fun result child =>
           dict_set child
             (if counts
              then Some (length (search_by_keyword_path (cheatsheets st)
                                   (or_default path0 ++ [child]) false))
              else None) result)
    [] (get_keyword_children st path0).
Proof.
  unfold list_keywords. generalize (@nil (string * option nat)).
  induction (get_keyword_children st path0) as [|c r IH]; intros d; simpl; [done|].
  rewrite IH. by destruct counts.
Qed.

Lemma sum_filter_swap {A B} (P : A -> B -> bool) (xs : list A) (ys : list B) :
  sum_list (map (fun x => length (List.filter (P x) ys)) xs) =
  sum_list (map (fun y => length (List.filter (fun x => P x y) xs)) ys).
Proof.
  induction ys as [|y ys IH]; simpl.
  - induction xs as [|x xs IHx]; simpl; [done | by rewrite IHx].
  - rewrite <- IH. clear IH.
    induction xs as [|x xs IHx]; simpl; [done|].
    rewrite IHx. destruct (P x y); simpl; lia.
Qed.

Lemma count_key_nodup (k : string) (l : list string) :
  NoDup l ->
  length (List.filter (fun c => String.eqb c k) l) = if bool_decide (k ∈ l) then 1 else 0.
Proof.
  induction l as [|c r IH]; intros Hnd; simpl; [done|].
  apply NoDup_cons in Hnd as [Hc Hr]. specialize (IH Hr).
  destruct (String.eqb_spec c k) as [->|Hne]; simpl.
  - rewrite IH, bool_decide_eq_false_2 by done.
    rewrite bool_decide_eq_true_2; [done | apply list_elem_of_here].
  - rewrite IH. destruct (decide (k ∈ r)) as [Hin|Hin].
    + rewrite !bool_decide_eq_true_2; [done | by apply list_elem_of_further | done].
    + rewrite !bool_decide_eq_false_2; [done | | done].
      rewrite elem_of_cons. by intros [?|?].
Qed.

Lemma is_prefix_snoc p (c : string) (kp : list string) :
  _is_prefix (p ++ [c]) kp = true <-> exists rest, kp = p ++ c :: rest.
Proof.
  rewrite is_prefix_iff_prefix_of. split.
  - intros [rest ->]. exists rest. by rewrite <- app_assoc.
  - intros [rest ->]. exists rest. by rewrite <- app_assoc.
Qed.

Lemma strictly_below_cases p (kp : list string) :
  (_is_prefix p kp && Nat.ltb (length p) (length kp) = true /\
   exists k rest, kp = p ++ k :: rest) \/
  (_is_prefix p kp && Nat.ltb (length p) (length kp) = false /\
   forall c, _is_prefix (p ++ [c]) kp = false).
Proof.
  destruct (_is_prefix p kp) eqn:Hp; simpl.
  - apply is_prefix_iff_prefix_of in Hp as [rest ->].
    rewrite length_app. destruct rest as [|k rest]; simpl.
    + right. split; [apply Nat.ltb_ge; lia|]. intros c.
      destruct (_is_prefix (p ++ [c]) (p ++ [])) eqn:E; [|done].
      apply is_prefix_spec in E as [E _]. rewrite !length_app in E. simpl in E. lia.
    + left. split; [apply Nat.ltb_lt; lia | eauto].
  - right. split; [done|]. intros c.
    destruct (_is_prefix (p ++ [c]) kp) eqn:E; [|done].
    apply is_prefix_app_l in E. congruence.
Qed.

End Listing.

(** X13. [list_keywords] has an entry for a keyword exactly when
    [get_keyword_children] lists it under the path; with counts the entry
    is the number of sheets that [search_by_keyword_path] finds at or below
    the path extended by the keyword, without counts it is the empty
    value.  The entries come in the order of the children. *)
Theorem list_keywords_entries st (path0 : option (list string)) (counts : bool) :
  (forall child,
     dict_get child (list_keywords st path0 counts) =
     if bool_decide (child ∈ get_keyword_children st path0)
     then Some (if counts
                then Some (length (search_by_keyword_path (cheatsheets st)
                                     (or_default path0 ++ [child]) false))
                else None)
     else None) /\
  (keys_distinct st path0 = true ->
   map fst (list_keywords st path0 counts) = get_keyword_children st path0).
Proof.
  rewrite list_keywords_fold. split.
  - intros child.
    apply (fold_dict_get
             (fun child => if counts
                then Some (length (search_by_keyword_path (cheatsheets st)
                                     (or_default path0 ++ [child]) false))
                else None)).
  - unfold keys_distinct. rewrite bool_decide_eq_true. intros Hnd.
    rewrite (fold_dict_nodup
               (fun child => if counts
                  then Some (length (search_by_keyword_path (cheatsheets st)
                                       (or_default path0 ++ [child]) false))
                  else None)) by done.
    simpl. rewrite map_map. simpl. apply map_id.
Qed.

Section Counting.

Lemma length_filter_sum {A} (h : A -> bool) (l : list A) :
  length (List.filter h l) = sum_list (map (fun x => if h x then 1 else 0) l).
Proof.
  induction l as [|x l IH]; simpl; [done|]. destruct (h x); simpl; lia.
Qed.

Lemma sum_list_map_ext {A} (f g : A -> nat) (l : list A) :
  (forall x, x ∈ l -> f x = g x) -> sum_list (map f l) = sum_list (map g l).
Proof.
  induction l as [|x l IH]; intros H; simpl; [done|].
  rewrite H by apply list_elem_of_here. rewrite IH; [done|].
  intros y Hy. apply H. by apply list_elem_of_further.
Qed.

Lemma filter_none {A} (f : A -> bool) (l : list A) :
  (forall x, f x = false) -> List.filter f l = [].
Proof.
  intros H. induction l as [|x l IH]; simpl; [done|]. by rewrite H.
Qed.

(** A sheet that respects the taxonomy is counted under exactly one child
    of a path when it lies strictly below the path, under none
    otherwise. *)
Lemma counted_once tax (p : list string) cs :
  NoDup (walk_children tax p) ->
  doc_ok tax cs = true ->
  length (List.filter (fun c => at_or_below (p ++ [c]) cs) (walk_children tax p)) =
  if strictly_below p cs then 1 else 0.
Proof.
  intros Hnd Hok. unfold at_or_below, strictly_below, doc_ok in *.
  destruct (keyword_path cs) as [kp|]; [|by rewrite filter_none].
  destruct (strictly_below_cases p kp) as [[-> (k & rest & ->)]|[-> Hnone]].
  - rewrite (filter_ext _ (fun c => String.eqb c k)).
    + rewrite count_key_nodup by done.
      rewrite bool_decide_eq_true_2; [done|].
      apply children_iff_chain.
      rewrite forallb_forall in Hok. apply Hok, prefixes_spec.
      exists rest. by rewrite <- app_assoc.
    + intros c. destruct (String.eqb_spec c k) as [->|Hne].
      * apply is_prefix_snoc. eauto.
      * destruct (_is_prefix (p ++ [c]) (p ++ k :: rest)) eqn:E; [|done].
        apply is_prefix_snoc in E as [rest' E].
        apply app_inv_head in E. congruence.
  - by rewrite filter_none.
Qed.

End Counting.

(** X14. When the store satisfies the taxonomy invariant, the counts that
    [list_keywords] reports under a path add up to the number of sheets
    strictly below the path: every such sheet is counted under exactly one
    child, and no other sheet is counted. *)
Theorem keyword_counts_add_up st (path : list string) :
  taxonomy_invariant st = true ->
  keys_distinct st (Some path) = true ->
  total_count (list_keywords st (Some path) true) =
  length (List.filter (strictly_below path) (cheatsheets st)).
Proof.
  unfold keys_distinct, taxonomy_invariant, get_keyword_children.
  rewrite bool_decide_eq_true. intros Hinv Hnd.
  rewrite list_keywords_fold. unfold get_keyword_children.
  rewrite (fold_dict_nodup
             (fun child => Some (length (search_by_keyword_path (cheatsheets st)
                                           (or_default (Some path) ++ [child]) false))))
    by done.
  unfold total_count. simpl. rewrite map_map. simpl.
  erewrite map_ext; [|intros c; by rewrite search_prefix_filter].
  rewrite (sum_filter_swap (fun c => at_or_below (path ++ [c]))).
  rewrite length_filter_sum. apply sum_list_map_ext. intros cs Hcs.
  apply counted_once; [done|].
  rewrite forallb_forall in Hinv. by apply Hinv, list_elem_of_In.
Qed.

Lemma keyword_counts_add_up_witness :
  total_count (list_keywords test_data (Some ["Computers"]) true) =
  length (List.filter (strictly_below ["Computers"]) (cheatsheets test_data)).
Proof.
  apply (keyword_counts_add_up test_data ["Computers"]); vm_compute; reflexivity.
Defined.

Example list_keywords_test_data :
  list_keywords test_data (Some ["Computers"]) true =
    [("Programming", Some 1); ("Shell", Some 1)] /\
  list_keywords test_data None false = [("Computers", None)] /\
  list_keywords test_data (Some ["Nowhere"]) true = [].
Proof. repeat split; vm_compute; reflexivity. Qed.

(** ** The tokenizer *)

Section Characters.

(** Facts about single characters, checked on all 256 of them. *)
Ltac all_chars c := destruct c as [[] [] [] [] [] [] [] []]; vm_compute; try done.

Lemma lower_char_token (c : ascii) :
  is_word c = true -> token_char (lower_char c) = true.
Proof. all_chars c. Qed.

Lemma token_char_lower (c : ascii) : token_char c = true -> lower_char c = c.
Proof. all_chars c. Qed.

Lemma token_char_word (c : ascii) :
  token_char c = true -> is_word c = true /\ is_space c = false /\ is_upper c = false.
Proof. all_chars c. Qed.

Lemma lower_char_idem (c : ascii) : lower_char (lower_char c) = lower_char c.
Proof. all_chars c. Qed.

Lemma sub_punct_lower_nonspace (c : ascii) :
  is_space (sub_punct_char (lower_char c)) = false ->
  token_char (sub_punct_char (lower_char c)) = true /\
  sub_punct_char (lower_char c) = lower_char c.
Proof. all_chars c. Qed.

Lemma sub_punct_token (c : ascii) : token_char c = true -> sub_punct_char c = c.
Proof. all_chars c. Qed.

Lemma space_char_facts :
  is_space " " = true /\ lower_char " " = " "%char /\ sub_punct_char " " = " "%char.
Proof. by vm_compute. Qed.

End Characters.

Section Tokens.

Implicit Types (s t text : string) (cur : list ascii) (c : ascii).

Lemma string_forall_chars test s :
  string_forall test s = true <-> Forall (fun c => test c = true) (list_ascii_of_string s).
Proof.
  induction s as [|c r IH]; simpl.
  - split; [constructor | done].
  - rewrite andb_true_iff, IH, Forall_cons. done.
Qed.

Lemma string_forall_of_list test (l : list ascii) :
  string_forall test (string_of_list_ascii l) = true <-> Forall (fun c => test c = true) l.
Proof. by rewrite string_forall_chars, list_ascii_of_string_of_list_ascii. Qed.

Lemma nonempty_of_list (l : list ascii) :
  nonempty (string_of_list_ascii l) = true <-> l <> [].
Proof. destruct l; simpl; split; done. Qed.

(** Every piece that [split] yields is a non-empty run of characters of
    the text that are not white space. *)
Lemma split_go_pieces (good : ascii -> bool) s : forall cur t,
  (forall c, c ∈ list_ascii_of_string s -> is_space c = false -> good c = true) ->
  Forall (fun c => good c = true) cur ->
  t ∈ split_go s cur ->
  nonempty t = true /\ string_forall good t = true.
Proof.
  induction s as [|c r IH]; intros cur t Hs Hcur Ht; simpl in Ht.
  - destruct cur as [|c0 cur']; [by apply elem_of_nil in Ht|].
    apply list_elem_of_singleton in Ht as ->. split.
    + apply nonempty_of_list. intros E. apply (f_equal length) in E.
      rewrite length_rev in E. done.
    + apply string_forall_of_list. by apply Forall_rev.
  - assert (Hr : forall c', c' ∈ list_ascii_of_string r -> is_space c' = false ->
                  good c' = true).
    { intros c' Hc'. apply Hs. simpl. by apply list_elem_of_further. }
    destruct (is_space c) eqn:Hsp.
    + destruct cur as [|c0 cur']; [by apply (IH [] t)|].
      apply elem_of_cons in Ht as [->|Ht]; [|by apply (IH [] t)]. split.
      * apply nonempty_of_list. intros E. apply (f_equal length) in E.
        rewrite length_rev in E. done.
      * apply string_forall_of_list. by apply Forall_rev.
    + apply (IH (c :: cur) t); [done| |done].
      constructor; [|done]. apply Hs; [|done]. simpl. apply list_elem_of_here.
Qed.

Lemma sub_punct_lower_chars text c :
  c ∈ list_ascii_of_string (sub_punct (lower text)) ->
  is_space c = false -> token_char c = true.
Proof.
  induction text as [|c0 r IH]; simpl; [intros H; by apply elem_of_nil in H|].
  rewrite elem_of_cons. intros [->|Hc] Hsp; [|by apply IH].
  by apply sub_punct_lower_nonspace.
Qed.

Lemma tokenize_tokens_ok text t : t ∈ _tokenize text -> token_ok t = true.
Proof.
  unfold _tokenize, token_ok. destruct (negb (nonempty text)); [intros H; by apply elem_of_nil in H|].
  rewrite filter_elem_of. intros [Ht _]. apply andb_true_iff.
  apply (split_go_pieces token_char (sub_punct (lower text)) [] t); [|done..].
  apply sub_punct_lower_chars.
Qed.

Lemma lower_token t : string_forall token_char t = true -> lower t = t.
Proof.
  induction t as [|c r IH]; simpl; [done|].
  rewrite andb_true_iff. intros [Hc Hr]. by rewrite token_char_lower, IH.
Qed.

Lemma sub_punct_token_string t : string_forall token_char t = true -> sub_punct t = t.
Proof.
  induction t as [|c r IH]; simpl; [done|].
  rewrite andb_true_iff. intros [Hc Hr]. by rewrite sub_punct_token, IH.
Qed.

Lemma lower_append s t : lower (s +:+ t) = lower s +:+ lower t.
Proof. induction s as [|c r IH]; simpl; [done | by rewrite IH]. Qed.

Lemma sub_punct_append s t : sub_punct (s +:+ t) = sub_punct s +:+ sub_punct t.
Proof. induction s as [|c r IH]; simpl; [done | by rewrite IH]. Qed.

Lemma lower_idem s : lower (lower s) = lower s.
Proof. induction s as [|c r IH]; simpl; [done | by rewrite lower_char_idem, IH]. Qed.

Lemma nonempty_lower s : nonempty (lower s) = nonempty s.
Proof. by destruct s. Qed.

(** Reading a token leaves it in [cur]. *)
Lemma split_go_token t : forall s cur,
  string_forall token_char t = true ->
  split_go (t +:+ s) cur = split_go s (rev (list_ascii_of_string t) ++ cur).
Proof.
  induction t as [|c r IH]; intros s cur Ht; simpl; [done|].
  simpl in Ht. apply andb_true_iff in Ht as [Hc Hr].
  apply token_char_word in Hc as (_ & -> & _).
  rewrite IH by done. by rewrite <- app_assoc.
Qed.

Lemma join_space_lower ts :
  Forall (fun t => token_ok t = true) ts ->
  lower (join_space ts) = join_space ts /\ sub_punct (join_space ts) = join_space ts.
Proof.
  induction ts as [|t [|t' r] IH]; intros Hall; [done| |].
  - apply Forall_cons in Hall as [Ht _]. unfold token_ok in Ht.
    apply andb_true_iff in Ht as [_ Ht]. simpl.
    by rewrite lower_token, sub_punct_token_string.
  - apply Forall_cons in Hall as [Ht Hall]. destruct (IH Hall) as [IH1 IH2].
    unfold token_ok in Ht. apply andb_true_iff in Ht as [_ Ht].
    change (join_space (t :: t' :: r)) with (t +:+ " " +:+ join_space (t' :: r)).
    rewrite !lower_append, !sub_punct_append, IH1, IH2.
    by rewrite lower_token, sub_punct_token_string.
Qed.

Lemma append_empty_r s : s +:+ "" = s.
Proof.
  induction s as [|c r IH]; [done|].
  change (String c (r +:+ "") = String c r). by f_equal.
Qed.

Lemma split_join_space ts :
  Forall (fun t => token_ok t = true) ts -> split (join_space ts) = ts.
Proof.
  unfold split. induction ts as [|t [|t' r] IH]; intros Hall; [done| |].
  - apply Forall_cons in Hall as [Ht _]. unfold token_ok in Ht.
    apply andb_true_iff in Ht as [Hne Ht]. simpl.
    rewrite <- (append_empty_r t) at 1.
    rewrite split_go_token by done. simpl. rewrite app_nil_r.
    destruct t as [|c t0]; [done|]. simpl.
    destruct (rev (list_ascii_of_string t0) ++ [c]) eqn:E.
    + apply (f_equal length) in E. rewrite length_app in E. simpl in E. lia.
    + rewrite <- E. rewrite rev_app_distr, rev_involutive. simpl.
      by rewrite string_of_list_ascii_of_string.
  - apply Forall_cons in Hall as [Ht Hall]. specialize (IH Hall).
    unfold token_ok in Ht. apply andb_true_iff in Ht as [Hne Ht].
    change (join_space (t :: t' :: r)) with (t +:+ " " +:+ join_space (t' :: r)).
    rewrite split_go_token by done. rewrite app_nil_r.
    change (" " +:+ join_space (t' :: r)) with (String " " (join_space (t' :: r))).
    cbn [split_go]. replace (is_space " ") with true by done.
    rewrite IH. destruct t as [|c t0]; [done|]. simpl.
    destruct (rev (list_ascii_of_string t0) ++ [c]) eqn:E.
    + apply (f_equal length) in E. rewrite length_app in E. simpl in E. lia.
    + rewrite <- E. rewrite rev_app_distr, rev_involutive. simpl.
      by rewrite string_of_list_ascii_of_string.
Qed.

Lemma filter_nonempty_tokens ts :
  Forall (fun t => token_ok t = true) ts -> List.filter (fun t => nonempty t) ts = ts.
Proof.
  induction 1 as [|t r Ht Hr IH]; simpl; [done|].
  unfold token_ok in Ht. apply andb_true_iff in Ht as [-> _]. by rewrite IH.
Qed.

Lemma tokenize_join_space ts :
  Forall (fun t => token_ok t = true) ts -> _tokenize (join_space ts) = ts.
Proof.
  intros Hall. unfold _tokenize.
  destruct (join_space_lower ts Hall) as [-> ->]. rewrite split_join_space by done.
  rewrite filter_nonempty_tokens by done.
  destruct ts as [|t r]; [done|].
  assert (nonempty (join_space (t :: r)) = true) as ->; [|done].
  apply Forall_cons in Hall as [Ht _]. unfold token_ok in Ht.
  apply andb_true_iff in Ht as [Hne _].
  destruct t; [done|]. by destruct r.
Qed.

Lemma tokenize_lower text : _tokenize (lower text) = _tokenize text.
Proof. unfold _tokenize. by rewrite nonempty_lower, lower_idem. Qed.

End Tokens.

(** X15. Every token that [_tokenize] yields is a non-empty string of
    lower-case letters, digits and underscores: no white space, no
    punctuation and no upper-case letter survives. *)
Theorem tokens_are_lowercase_words text :
  Forall (fun t => token_ok t = true) (_tokenize text).
Proof. apply Forall_forall. intros t. apply tokenize_tokens_ok. Qed.

(** X16. Tokens survive being joined and tokenized again: the tokens of
    the space-joined tokens of a text are the tokens of the text, which is
    what [semantic_search] hands to the vectorizer. *)
Theorem tokenize_round_trip text :
  _tokenize (join_space (_tokenize text)) = _tokenize text.
Proof. apply tokenize_join_space, Forall_forall. intros t. apply tokenize_tokens_ok. Qed.

(** X17. No strategy looks at the case of the query: the lower-cased query
    gives the same tokens and the same result as the query itself, for
    [basic_search], [full_text_search], [fuzzy_search] and
    [semantic_search]. *)
Theorem search_ignores_query_case rt docs query keyword_path0 threshold :
  _tokenize (lower query) = _tokenize query /\
  basic_search docs (lower query) keyword_path0 = basic_search docs query keyword_path0 /\
  full_text_search docs (lower query) keyword_path0 =
    full_text_search docs query keyword_path0 /\
  fuzzy_search docs (lower query) threshold = fuzzy_search docs query threshold /\
  semantic_search rt docs (lower query) keyword_path0 =
    semantic_search rt docs query keyword_path0.
Proof.
  split; [apply tokenize_lower|]. split; [|split; [|split]].
  - unfold basic_search, search_cheatsheets. by rewrite lower_idem.
  - unfold full_text_search. by rewrite tokenize_lower.
  - unfold fuzzy_search. by rewrite lower_idem.
  - unfold semantic_search, basic_search, search_cheatsheets.
    by rewrite tokenize_lower, lower_idem.
Qed.

Example search_ignores_query_case_example :
  lower "GIT Basics" = "git basics" /\
  full_text_search example_docs "GIT Basics" None = [git_basics] /\
  _tokenize "  Git-Basics: hello_World!  v2.0" = ["git"; "basics"; "hello_world"; "v2"; "0"].
Proof. repeat split; vm_compute; reflexivity. Qed.

(** ** What full-text search returns, exactly *)

Section FullTextExact.

Implicit Types (docs : list cheatsheet) (cs : cheatsheet) (tokens : list string).

Lemma filter_Permutation_bool {A} (f : A -> bool) (l k : list A) :
  l ≡ₚ k -> List.filter f l ≡ₚ List.filter f k.
Proof.
  induction 1 as [|x l k _ IH|x y l|l k m _ IH1 _ IH2]; simpl.
  - done.
  - destruct (f x); [by constructor | done].
  - destruct (f x), (f y); try done. apply perm_swap.
  - by etrans.
Qed.

Lemma filter_filter_bool {A} (f g : A -> bool) (l : list A) :
  List.filter f (List.filter g l) = List.filter (fun x => g x && f x) l.
Proof.
  induction l as [|x l IH]; simpl; [done|].
  destruct (g x); simpl; [|done]. destruct (f x); by rewrite IH.
Qed.

Lemma filter_none_in {A} (f : A -> bool) (l : list A) :
  (forall x, x ∈ l -> f x = false) -> List.filter f l = [].
Proof.
  induction l as [|x l IH]; intros H; simpl; [done|].
  rewrite H by apply list_elem_of_here. apply IH.
  intros y Hy. apply H. by apply list_elem_of_further.
Qed.

Lemma filter_ext_in_bool {A} (f g : A -> bool) (l : list A) :
  (forall x, x ∈ l -> f x = g x) -> List.filter f l = List.filter g l.
Proof.
  intros H. apply filter_ext_in. intros x Hx. by apply H, list_elem_of_In.
Qed.

(** Reading the sheets at the positions that pass a test is filtering the
    sheets. *)
Lemma omap_positions (P : nat -> bool) (Q : cheatsheet -> bool) docs :
  (forall i cs, docs !! i = Some cs -> P i = Q cs) ->
  omap (fun i => docs !! i) (List.filter P (seq 0 (length docs))) = List.filter Q docs.
Proof.
  induction docs as [|x docs IH] using rev_ind; intros H; [done|].
  rewrite length_app. simpl. rewrite Nat.add_1_r, seq_S. simpl.
  rewrite !List.filter_app, omap_app. f_equal.
  - rewrite <- IH.
    + apply list_omap_ext. apply Forall2_same_length_lookup_2; [done|].
      intros i a b Ha Hb. assert (a = b) as <- by congruence.
      apply list_elem_of_lookup_2, list_elem_of_In, filter_In in Ha as [Ha _].
      apply in_seq in Ha. by rewrite lookup_app_l by lia.
    + intros i cs Hi. apply H. by apply lookup_app_l_Some.
  - simpl. assert (Hx : (docs ++ [x]) !! length docs = Some x).
    { rewrite lookup_app_r by lia. by rewrite Nat.sub_diag. }
    rewrite (H _ _ Hx). destruct (Q x); simpl; [by rewrite Hx | done].
Qed.

Lemma has_all_tokens_spec tokens cs :
  has_all_tokens tokens cs = true <-> forall t, t ∈ tokens -> t ∈ doc_tokens cs.
Proof.
  unfold has_all_tokens. rewrite forallb_forall. split.
  - intros H t Ht. apply list_elem_of_In, H in Ht. by apply bool_decide_eq_true in Ht.
  - intros H t Ht. apply bool_decide_eq_true, H. by apply list_elem_of_In.
Qed.

Lemma sheets_at_filter docs (s : gset nat) tokens :
  (forall j, j ∈ s <-> forall t, t ∈ tokens -> j ∈ postings (_create_index docs) t) ->
  tokens <> [] ->
  sheets_at docs s ≡ₚ List.filter (has_all_tokens tokens) docs.
Proof.
  intros Hs Hne. unfold sheets_at, set_iter.
  rewrite merge_sort_Permutation.
  rewrite <- (omap_positions (fun i => bool_decide (i ∈ s))).
  - apply omap_Permutation. apply NoDup_Permutation.
    + apply NoDup_elements.
    + apply NoDup_ListNoDup, List.NoDup_filter, NoDup_ListNoDup, NoDup_seq.
    + intros i. rewrite elem_of_elements, list_elem_of_In, filter_In, in_seq.
      rewrite bool_decide_eq_true. split; [|by intros [_ ?]].
      intros Hi. split; [|done]. split; [lia|]. simpl.
      destruct tokens as [|t ts]; [done|].
      apply (postings_in_range docs t). apply Hs; [done | apply list_elem_of_here].
  - intros i cs Hi. apply eq_true_iff_eq.
    rewrite bool_decide_eq_true, has_all_tokens_spec, Hs. split.
    + intros H t Ht. apply H, create_index_postings in Ht as (cs' & Hcs' & ?).
      congruence.
    + intros H t Ht. apply create_index_postings. eauto.
Qed.

Lemma full_text_search_filter docs query keyword_path0 :
  _tokenize query <> [] ->
  full_text_search docs query keyword_path0 ≡ₚ
  List.filter (fun cs => has_all_tokens (_tokenize query) cs &&
                         passes_filter keyword_path0 cs) docs.
Proof.
  intros Hne. unfold full_text_search.
  destruct (_tokenize query) as [|tok toks] eqn:Htoks; [done|].
  rewrite <- Htoks in *. clear Htoks.
  destruct (intersect_loop (_create_index docs) (_tokenize query) None) as [r|] eqn:Hrun.
  - assert (Hall : forall t, t ∈ _tokenize query -> is_Some (_create_index docs !! t)).
    { intros t Ht. destruct (_create_index docs !! t) eqn:Hl; [eauto|].
      assert (intersect_loop (_create_index docs) (_tokenize query) None = None)
        by (apply intersect_loop_missing; eauto). congruence. }
    destruct (intersect_loop_complete _ _ None Hall) as (r' & Hrun' & _ & Hcons).
    rewrite Hrun in Hrun'. injection Hrun' as <-.
    destruct (Hcons Hne) as (s & -> & Hs).
    assert (Hperm : sheets_at docs s ≡ₚ List.filter (has_all_tokens (_tokenize query)) docs).
    { apply sheets_at_filter; [|done]. intros j. rewrite Hs. split; [by intros [_ ?]|].
      intros H. split; [done | exact H]. }
    unfold passes_filter. destruct (truthy keyword_path0).
    + rewrite <- filter_filter_bool. by apply filter_Permutation_bool.
    + rewrite Hperm. erewrite filter_ext; [done|]. intros cs. symmetry. apply andb_true_r.
  - apply intersect_loop_missing in Hrun as (t & Ht & Hnone).
    rewrite filter_none_in; [done|]. intros cs Hcs.
    apply andb_false_iff. left.
    destruct (has_all_tokens (_tokenize query) cs) eqn:E; [|done]. exfalso.
    assert (is_Some (_create_index docs !! t)) as [? ?]; [|congruence].
    apply create_index_keys. exists cs. split; [done|].
    by apply (proj1 (has_all_tokens_spec _ _) E).
Qed.

End FullTextExact.

(** X18. For a query with tokens, [full_text_search] returns the sheets of
    the document set that have every token of the query in an indexed
    field and pass the path filter: all of them, each as often as it
    occurs in the document set, in some order. *)
Theorem full_text_search_exact docs query keyword_path0 :
  _tokenize query <> [] ->
  full_text_search docs query keyword_path0 ≡ₚ
  List.filter (fun cs => has_all_tokens (_tokenize query) cs &&
                         passes_filter keyword_path0 cs) docs.
Proof. apply full_text_search_filter. Qed.

Lemma full_text_search_exact_witness :
  full_text_search example_docs "computers git" (Some ["Computers"]) ≡ₚ
  List.filter (fun cs => has_all_tokens (_tokenize "computers git") cs &&
                         passes_filter (Some ["Computers"]) cs) example_docs.
Proof.
  apply (full_text_search_exact example_docs "computers git" (Some ["Computers"])).
  vm_compute. done.
Defined.

Lemma same_token_set_spec (l k : list string) :
  same_token_set l k = true <-> forall t, t ∈ l <-> t ∈ k.
Proof.
  unfold same_token_set. rewrite andb_true_iff, !forallb_forall. split.
  - intros [H1 H2] t. split; intros Ht.
    + apply list_elem_of_In, H1 in Ht. by apply bool_decide_eq_true in Ht.
    + apply list_elem_of_In, H2 in Ht. by apply bool_decide_eq_true in Ht.
  - intros H. split; intros t Ht; apply bool_decide_eq_true, H; by apply list_elem_of_In.
Qed.

(** X19. Only the set of tokens of the query counts for
    [full_text_search]: two queries with the same tokens, in whatever
    order and however often repeated, return the same sheets. *)
Theorem full_text_search_token_set docs query query' keyword_path0 :
  same_token_set (_tokenize query) (_tokenize query') = true ->
  full_text_search docs query keyword_path0 ≡ₚ full_text_search docs query' keyword_path0.
Proof.
  rewrite same_token_set_spec. intros Hsame.
  destruct (decide (_tokenize query = [])) as [Hq|Hq].
  - assert (_tokenize query' = []) as Hq'.
    { destruct (_tokenize query') as [|t' ts']; [done|].
      exfalso. apply (elem_of_nil t'). rewrite <- Hq. apply Hsame, list_elem_of_here. }
    unfold full_text_search. by rewrite Hq, Hq'.
  - assert (_tokenize query' <> []) as Hq'.
    { intros E. destruct (_tokenize query) as [|t ts]; [done|].
      apply (elem_of_nil t). rewrite <- E. apply Hsame, list_elem_of_here. }
    rewrite (full_text_search_filter docs query) by done.
    rewrite (full_text_search_filter docs query') by done.
    erewrite filter_ext; [done|]. intros cs. cbv beta.
    destruct (passes_filter keyword_path0 cs);
      [rewrite !andb_true_r | by rewrite !andb_false_r].
    apply eq_true_iff_eq. rewrite !has_all_tokens_spec.
    split; intros H t0 Ht0; apply H, Hsame, Ht0.
Qed.

Lemma full_text_search_token_set_witness :
  full_text_search example_docs "git basics" None ≡ₚ
  full_text_search example_docs "Basics, git; GIT!" None.
Proof.
  apply (full_text_search_token_set example_docs "git basics" "Basics, git; GIT!" None).
  vm_compute. reflexivity.
Defined.

(** ** Raising the threshold of the fuzzy search *)

Section Threshold.

Context {A : Type} (key : A -> Q).

Lemma insert_desc_front (x : A) (l : list A) :
  Forall (fun y => (key y <= key x)%Q) l -> insert_desc key x l = x :: l.
Proof.
  destruct l as [|y r]; [done|]. intros H. apply Forall_cons in H as [Hy _].
  simpl. by rewrite (proj2 (Qltb_ge (key x) (key y)) Hy).
Qed.

Lemma insert_desc_filter (p : A -> bool) (x : A) (l : list A) :
  StronglySorted (not_below key) l ->
  List.filter p (insert_desc key x l) =
  if p x then insert_desc key x (List.filter p l) else List.filter p l.
Proof.
  induction l as [|y r IH]; intros Hs; [done|].
  apply StronglySorted_inv in Hs as [Hr Hy]. cbn [insert_desc].
  destruct (Qltb (key x) (key y)) eqn:E.
  - cbn [List.filter]. rewrite IH by done.
    destruct (p x), (p y); try done. cbn [insert_desc]. by rewrite E.
  - apply Qltb_ge in E.
    change (List.filter p (x :: y :: r))
      with (if p x then x :: List.filter p (y :: r) else List.filter p (y :: r)).
    destruct (p x); [|done].
    rewrite insert_desc_front; [done|].
    assert (Hall : Forall (fun z => (key z <= key x)%Q) (y :: r)).
    { constructor; [done|]. eapply Forall_impl; [exact Hy|].
      intros z Hz. unfold not_below in Hz. by eapply Qle_trans. }
    apply Forall_forall. intros z Hz.
    apply list_elem_of_In, filter_In in Hz as [Hz _].
    rewrite Forall_forall in Hall. by apply Hall, list_elem_of_In.
Qed.

(** Filtering a sorted list and sorting the filtered list meet. *)
Lemma sort_desc_filter (p : A -> bool) (l : list A) :
  List.filter p (sort_desc key l) = sort_desc key (List.filter p l).
Proof.
  induction l as [|x l IH]; [done|].
  unfold sort_desc in *. cbn [foldr List.filter].
  rewrite insert_desc_filter by apply (sort_desc_sorted key).
  destruct (p x); [|done]. cbn [foldr]. by rewrite IH.
Qed.

End Threshold.

(** X20. Raising the threshold of [fuzzy_search] selects among the results
    for the lower threshold and keeps their order: the result for the
    higher threshold is the result for the lower one with the sheets
    below the higher threshold struck out. *)
Theorem fuzzy_search_threshold docs query (low high : Q) :
  (low <= high)%Q ->
  fuzzy_search docs query high =
    List.filter (fun cs => Qle_bool high (fuzzy_score query cs))
      (fuzzy_search docs query low) /\
  fuzzy_search docs query high `sublist_of` fuzzy_search docs query low.
Proof.
  intros Hle.
  assert (Heq : fuzzy_search docs query high =
    List.filter (fun cs => Qle_bool high (fuzzy_score query cs))
      (fuzzy_search docs query low)).
  { rewrite !fuzzy_search_sorted_kept, sort_desc_filter. unfold fuzzy_kept.
    f_equal. symmetry. apply filter_implied. intros cs Hcs.
    apply Qle_bool_iff. apply Qle_bool_iff in Hcs. by eapply Qle_trans. }
  split; [done|]. rewrite Heq. apply filter_sublist.
Qed.

Lemma fuzzy_search_threshold_witness :
  fuzzy_search example_docs "gti" (6 # 10) =
    List.filter (fun cs => Qle_bool (6 # 10) (fuzzy_score "gti" cs))
      (fuzzy_search example_docs "gti" (3 # 10)) /\
  fuzzy_search example_docs "gti" (6 # 10) `sublist_of`
  fuzzy_search example_docs "gti" (3 # 10).
Proof.
  apply (fuzzy_search_threshold example_docs "gti" (3 # 10) (6 # 10)).
  unfold Qle. simpl. lia.
Defined.

(** ** The path filter *)

Lemma candidates_passes docs keyword_path0 :
  candidates_of docs keyword_path0 = List.filter (passes_filter keyword_path0) docs.
Proof.
  unfold candidates_of, passes_filter. destruct (truthy keyword_path0).
  - apply search_prefix_filter.
  - symmetry. by apply filter_all.
Qed.

(** X21. Whatever it does, a search with a path filter returns only sheets
    of the document set that lie at or below the path: this holds for
    [basic_search], for [full_text_search] and for [semantic_search] in
    each of its outcomes, the ranked one and the fallback alike. *)
Theorem path_filter_respected rt docs query keyword_path0 :
  (forall cs, cs ∈ basic_search docs query keyword_path0 ->
     cs ∈ docs /\ passes_filter keyword_path0 cs = true) /\
  (forall cs, cs ∈ full_text_search docs query keyword_path0 ->
     cs ∈ docs /\ passes_filter keyword_path0 cs = true) /\
  (forall printed results cs,
     semantic_search rt docs query keyword_path0 = (printed, Return results) ->
     cs ∈ results ->
     cs ∈ docs /\ passes_filter keyword_path0 cs = true).
Proof.
  assert (Hbasic : forall cs, cs ∈ basic_search docs query keyword_path0 ->
            cs ∈ docs /\ passes_filter keyword_path0 cs = true).
  { intros cs Hcs. apply basic_search_spec in Hcs as [Hcs _].
    rewrite candidates_passes in Hcs. by apply filter_elem_of in Hcs. }
  split; [done|]. split.
  - intros cs Hcs. apply full_text_search_spec in Hcs as (_ & Hin & _ & Hp).
    split; [done|]. unfold passes_filter, under_path, at_or_below in *.
    destruct (truthy keyword_path0); [|done].
    by destruct (Hp eq_refl) as (kp & -> & ?).
  - intros printed results cs Hrun Hcs. unfold semantic_search in Hrun.
    fold (candidates_of docs keyword_path0) in Hrun.
    destruct (candidates_of docs keyword_path0) as [|c0 cands] eqn:Hcands.
    { injection Hrun as _ <-. by apply elem_of_nil in Hcs. }
    rewrite <- Hcands in Hrun.
    destruct (_tokenize query) as [|t ts].
    { injection Hrun as _ <-. by apply elem_of_nil in Hcs. }
    cbv zeta in Hrun.
    destruct (negb (import_feature_extraction rt)); [done|].
    destruct (fit_raises rt _) as [[|]|].
    + injection Hrun as _ <-. by apply Hbasic.
    + done.
    + destruct (negb (import_pairwise rt)).
      * injection Hrun as _ <-. by apply Hbasic.
      * injection Hrun as _ <-.
        apply list_elem_of_omap in Hcs as ([i score] & _ & Hi). simpl in Hi.
        destruct (Qltb 0 score); [|done].
        apply list_elem_of_lookup_2 in Hi. rewrite candidates_passes in Hi.
        by apply filter_elem_of in Hi.
Qed.

(** X22. Filtering by path and filtering by query commute: a search with
    a path filter returns what [search_by_keyword_path] selects from the
    result of the same search without filter, for [basic_search] and for
    [full_text_search]. *)
Theorem path_filter_commutes docs query (path : list string) :
  path <> [] ->
  basic_search docs query (Some path) =
    search_by_keyword_path (basic_search docs query None) path false /\
  full_text_search docs query (Some path) =
    search_by_keyword_path (full_text_search docs query None) path false.
Proof.
  intros Hne. destruct path as [|k r]; [done|]. split.
  - unfold basic_search, search_cheatsheets. simpl truthy. cbv iota.
    rewrite !search_prefix_filter. simpl or_default.
    rewrite !filter_filter_bool. apply filter_ext. intros cs. apply andb_comm.
  - rewrite search_prefix_filter. unfold full_text_search.
    destruct (_tokenize query) as [|tok toks]; [done|].
    by destruct (intersect_loop _ _ None) as [[ids|]|].
Qed.

Lemma path_filter_commutes_witness :
  basic_search example_docs "git" (Some ["Computers"; "VCS"]) =
    search_by_keyword_path (basic_search example_docs "git" None)
      ["Computers"; "VCS"] false /\
  full_text_search example_docs "git" (Some ["Computers"; "VCS"]) =
    search_by_keyword_path (full_text_search example_docs "git" None)
      ["Computers"; "VCS"] false.
Proof.
  apply (path_filter_commutes example_docs "git" ["Computers"; "VCS"]). done.
Defined.

(** ** Full-text search and substring search on one word *)

Section Occurrences.

Implicit Types (s t q : string) (cur pre post : list ascii).

Lemma chars_sub_punct s : list_ascii_of_string (sub_punct s) = map sub_punct_char (list_ascii_of_string s).
Proof. induction s as [|c r IH]; simpl; [done | by rewrite IH]. Qed.

Lemma chars_lower s : list_ascii_of_string (lower s) = map lower_char (list_ascii_of_string s).
Proof. induction s as [|c r IH]; simpl; [done | by rewrite IH]. Qed.

(** A piece that [split] yields occurs in the text as a block. *)
Lemma split_go_occurs s : forall cur t,
  t ∈ split_go s cur ->
  exists pre post, rev cur ++ list_ascii_of_string s = pre ++ list_ascii_of_string t ++ post.
Proof.
  induction s as [|c r IH]; intros cur t Ht; simpl in Ht.
  - destruct cur as [|c0 cur']; [by apply elem_of_nil in Ht|].
    apply list_elem_of_singleton in Ht as ->. exists [], [].
    rewrite list_ascii_of_string_of_list_ascii. simpl. by rewrite !app_nil_r.
  - destruct (is_space c).
    + assert (Hrest : t ∈ split_go r [] ->
                exists pre post, rev cur ++ list_ascii_of_string (String c r) = pre ++ list_ascii_of_string t ++ post).
      { intros H. destruct (IH [] t H) as (pre & post & E). simpl in E.
        exists (rev cur ++ c :: pre), post. simpl. rewrite E.
        by rewrite <- app_assoc. }
      destruct cur as [|c0 cur']; [by apply Hrest|].
      apply elem_of_cons in Ht as [->|Ht]; [|by apply Hrest].
      exists [], (list_ascii_of_string (String c r)).
      by rewrite list_ascii_of_string_of_list_ascii.
    + destruct (IH (c :: cur) t Ht) as (pre & post & E).
      exists pre, post. rewrite <- E. simpl. by rewrite <- app_assoc.
Qed.

Lemma token_chars_unchanged (l m : list ascii) :
  map sub_punct_char l = m -> Forall (fun c => token_char c = true) m -> l = m.
Proof.
  revert m. induction l as [|c l IH]; intros m <- Hm; [done|].
  simpl in *. apply Forall_cons in Hm as [Hc Hm]. f_equal; [|by apply IH].
  symmetry. clear -Hc.
  destruct c as [[] [] [] [] [] [] [] []]; vm_compute in Hc |- *; done.
Qed.

Lemma startswith_chars q : forall s post,
  list_ascii_of_string s = list_ascii_of_string q ++ post -> startswith q s = true.
Proof.
  induction q as [|c q IH]; intros s post E; [by destruct s|].
  destruct s as [|c' s]; [done|]. simpl in *. injection E as -> E.
  rewrite Ascii.eqb_refl. simpl. by eapply IH.
Qed.

Lemma str_in_chars q pre : forall s post,
  list_ascii_of_string s = pre ++ list_ascii_of_string q ++ post -> str_in q s = true.
Proof.
  induction pre as [|c pre IH]; intros s post E.
  - destruct s; simpl; erewrite startswith_chars; done.
  - destruct s as [|c' s]; [done|]. simpl in E. injection E as -> E.
    cbn [str_in]. rewrite (IH s post E). apply orb_true_r.
Qed.

(** A token of a field occurs in the lower-cased field. *)
Lemma token_in_lower_field field t :
  t ∈ _tokenize field -> str_in t (lower field) = true.
Proof.
  intros Ht. pose proof (tokenize_tokens_ok field t Ht) as Hok.
  unfold token_ok in Hok. apply andb_true_iff in Hok as [_ Hok].
  apply string_forall_chars in Hok.
  unfold _tokenize in Ht.
  destruct (negb (nonempty field)); [by apply elem_of_nil in Ht|].
  apply filter_elem_of in Ht as [Ht _].
  apply split_go_occurs in Ht as (pre & post & E). simpl in E.
  rewrite chars_sub_punct in E.
  apply map_eq_app in E as (pre' & rest & E1 & _ & E2).
  apply map_eq_app in E2 as (mid & post' & -> & E3 & _).
  apply token_chars_unchanged in E3; [|done]. subst mid.
  by eapply str_in_chars.
Qed.

Lemma matches_query_intro q cs :
  str_in q (lower (name cs)) = true \/
  (exists cat, cat ∈ categories cs /\ str_in q (lower cat) = true) \/
  (exists kp kw, keyword_path cs = Some kp /\ kw ∈ kp /\ str_in q (lower kw) = true) \/
  str_in q (lower (description cs)) = true \/
  str_in q (lower (content cs)) = true ->
  matches_query q cs = true.
Proof.
  unfold matches_query.
  intros [H|[(cat & Hin & H)|[(kp & kw & Hkp & Hin & H)|[H|H]]]].
  - by rewrite H.
  - destruct (str_in q (lower (name cs))); [done|].
    assert (existsb (fun cat => str_in q (lower cat)) (categories cs) = true) as ->;
      [|done].
    apply existsb_exists. exists cat. split; [by apply list_elem_of_In | done].
  - destruct (str_in q (lower (name cs))); [done|].
    destruct (existsb _ (categories cs)); [done|]. rewrite Hkp.
    assert (existsb (fun kw => str_in q (lower kw)) kp = true) as ->; [|done].
    apply existsb_exists. exists kw. split; [by apply list_elem_of_In | done].
  - destruct (str_in q (lower (name cs))); [done|].
    destruct (existsb _ (categories cs)); [done|].
    destruct (match keyword_path cs with Some _ => _ | None => _ end); [done|].
    by rewrite H.
  - destruct (str_in q (lower (name cs))); [done|].
    destruct (existsb _ (categories cs)); [done|].
    destruct (match keyword_path cs with Some _ => _ | None => _ end); [done|].
    destruct (str_in q (lower (description cs))); [done|]. by rewrite H.
Qed.

End Occurrences.

(** X23. For a query that is one word (its only token is the lower-cased
    query itself), the substring search finds whatever the full-text
    search finds, with the same path filter. *)
Theorem full_text_within_basic docs query keyword_path0 cs :
  _tokenize query = [lower query] ->
  cs ∈ full_text_search docs query keyword_path0 ->
  cs ∈ basic_search docs query keyword_path0.
Proof.
  intros Hword Hcs.
  apply full_text_search_spec in Hcs as (_ & Hin & Htok & Hp).
  apply basic_search_spec. split.
  - rewrite candidates_passes. apply filter_elem_of. split; [done|].
    unfold passes_filter, under_path, at_or_below in *.
    destruct (truthy keyword_path0); [|done].
    by destruct (Hp eq_refl) as (kp & -> & ?).
  - apply matches_query_intro.
    specialize (Htok (lower query)). rewrite Hword in Htok.
    destruct (Htok (list_elem_of_here _ _))
      as [H|[(cat & ? & H)|[(kp & kw & ? & ? & H)|[H|H]]]];
      apply token_in_lower_field in H; eauto 10.
Qed.

Lemma full_text_within_basic_witness :
  git_basics ∈ basic_search example_docs "Basics" (Some ["Computers"]).
Proof.
  apply (full_text_within_basic example_docs "Basics" (Some ["Computers"]) git_basics).
  - vm_compute. reflexivity.
  - vm_compute. apply list_elem_of_here.
Defined.

(** ** Keyword paths on the command line *)

Section CommandLine.

Implicit Types (s k : string) (cur : list ascii) (path : list string).









End CommandLine.



Example parse_keyword_path_examples :
  parse_keyword_path " Computers , VCS,Git " = ["Computers"; "VCS"; "Git"] /\
  parse_keyword_path "" = [""] /\
  parse_keyword_path "a,,b" = ["a"; ""; "b"].
Proof. repeat split; vm_compute; reflexivity. Qed.

(** ** Suggested paths and the batch migration *)

Section Batch.

Implicit Types (cs : cheatsheet) (docs : list cheatsheet).
Implicit Types (defaults : gmap string (list string)) (inputs : list string).

Lemma suggest_nonempty cs :
  exists root rest, suggest_keyword_path cs = root :: rest /\
    (root = "Uncategorized" \/ root = "Computers").
Proof.
  unfold suggest_keyword_path. destruct (categories cs) as [|main others]; [|eauto].
  destruct (List.find _ languages) as [lang|]; [eauto|].
  destruct (List.find _ domains) as [[kw path]|] eqn:Hf; [|eauto].
  apply find_some in Hf as [Hin _]. simpl in Hin.
  repeat (destruct Hin as [[= <- <-]|Hin]; [eauto|]). done.
Qed.

Lemma batch_one_path defaults cs : is_Some (keyword_path (batch_one defaults cs)).
Proof. unfold batch_one. destruct (keyword_path cs) eqn:E; [rewrite E|]; eauto. Qed.

Lemma batch_one_fixed defaults cs :
  is_Some (keyword_path cs) -> batch_one defaults cs = cs.
Proof. unfold batch_one. by intros [kp ->]. Qed.

Lemma pathless_cons cs docs :
  pathless (cs :: docs) =
  match keyword_path cs with Some _ => pathless docs | None => cs :: pathless docs end.
Proof.
  unfold pathless. cbn [List.filter].
  destruct (keyword_path cs) as [kp|]; case_bool_decide as H; simpl; try done;
    exfalso; first [by destruct H | eauto].
Qed.

(** Without prompts every sheet without path takes the proposal, and no
    line of input is read. *)
Lemma batch_loop_silent defaults inputs docs : forall n,
  batch_loop false defaults inputs docs n =
  Some (map (batch_one defaults) docs, n + length (pathless docs), inputs).
Proof.
  induction docs as [|cs rest IH]; intros n; [simpl; by rewrite Nat.add_0_r|].
  cbn [batch_loop map]. rewrite pathless_cons. unfold batch_one at 1, proposed_path.
  destruct (keyword_path cs); rewrite IH; simpl; repeat f_equal; lia.
Qed.




End Batch.

(** X25. [suggest_keyword_path] never suggests an empty path: the
    suggestion starts with ["Uncategorized"] or ["Computers"].  For a
    sheet with categories it is ["Uncategorized"] followed by the first
    category, which is the path that [migrate_categories_to_paths] attaches
    under its default root. *)
Theorem suggested_path_shape cs :
  (exists root rest, suggest_keyword_path cs = root :: rest /\
     (root = "Uncategorized" \/ root = "Computers")) /\
  (forall main others, categories cs = main :: others ->
     suggest_keyword_path cs = ["Uncategorized"; main]) /\
  (needs_migration cs = true ->
   migrate_one "Uncategorized" cs = with_keyword_path cs (suggest_keyword_path cs)).
Proof.
  split; [apply suggest_nonempty|]. split.
  - intros main others H. unfold suggest_keyword_path. by rewrite H.
  - unfold needs_migration, migrate_one, suggest_keyword_path.
    destruct (keyword_path cs); [done|]. by destruct (categories cs).
Qed.

(** X26. Without prompts [batch_migrate] reads no input and always
    finishes: it returns the number of sheets that had no keyword path,
    afterwards every sheet has one, the sheets that had one are as before,
    the taxonomy is the one before, and a second run migrates nothing. *)
Theorem batch_migrate_silent st defaults inputs :
  exists st',
    batch_migrate st false defaults inputs =
      Some (length (pathless (cheatsheets st)), st') /\
    Forall (fun cs => is_Some (keyword_path cs)) (cheatsheets st') /\
    Forall2 (fun cs cs' => is_Some (keyword_path cs) -> cs' = cs)
      (cheatsheets st) (cheatsheets st') /\
    keyword_taxonomy st' = keyword_taxonomy st /\
    batch_migrate st' false defaults inputs = Some (0, st').
Proof.
  unfold batch_migrate. set (d := match defaults with Some d => d | None => ∅ end).
  rewrite batch_loop_silent. eexists. split; [reflexivity|]. simpl.
  split; [|split; [|split; [done|]]].
  - apply Forall_forall. intros cs Hcs.
    apply list_elem_of_In, in_map_iff in Hcs as (cs0 & <- & _). apply batch_one_path.
  - induction (cheatsheets st) as [|cs rest IH]; simpl; constructor; [|done].
    intros H. by apply batch_one_fixed.
  - rewrite batch_loop_silent. simpl.
    assert (Hfix : map (batch_one d) (map (batch_one d) (cheatsheets st)) =
                   map (batch_one d) (cheatsheets st)).
    { rewrite map_map. apply map_ext. intros cs.
      apply batch_one_fixed, batch_one_path. }
    assert (Hnone : pathless (map (batch_one d) (cheatsheets st)) = []).
    { unfold pathless. apply filter_none_in. intros cs Hcs.
      apply list_elem_of_In, in_map_iff in Hcs as (cs0 & <- & _).
      apply negb_false_iff, bool_decide_eq_true, batch_one_path. }
    by rewrite Hfix, Hnone.
Qed.

(** X27. [batch_migrate] attaches paths without creating them in the
    taxonomy: when a sheet without keyword path is proposed a path that
    does not resolve in the taxonomy, the store does not satisfy the
    taxonomy invariant after the run without prompts. *)
Theorem batch_migrate_skips_taxonomy st defaults inputs cs :
  cs ∈ cheatsheets st ->
  keyword_path cs = None ->
  chain_exists (keyword_taxonomy st)
    (proposed_path (match defaults with Some d => d | None => ∅ end) cs) = false ->
  exists n st',
    batch_migrate st false defaults inputs = Some (n, st') /\
    taxonomy_invariant st' = false.
Proof.
  intros Hin Hkp Hchain. unfold batch_migrate.
  set (d := match defaults with Some d => d | None => ∅ end) in *.
  rewrite batch_loop_silent. do 2 eexists. split; [reflexivity|].
  unfold taxonomy_invariant. simpl.
  destruct (forallb _ _) eqn:Hall; [|done]. exfalso.
  rewrite forallb_forall in Hall.
  assert (Hmem : In (batch_one d cs) (map (batch_one d) (cheatsheets st)))
    by (apply in_map; by apply list_elem_of_In).
  apply Hall in Hmem.
  assert (Hb : batch_one d cs = with_keyword_path cs (proposed_path d cs))
    by (unfold batch_one; by rewrite Hkp).
  rewrite Hb in Hmem.
  change (forallb (chain_exists (keyword_taxonomy st))
            (prefixes (proposed_path d cs)) = true) in Hmem.
  rewrite forallb_forall in Hmem.
  assert (chain_exists (keyword_taxonomy st) (proposed_path d cs) = true);
    [|congruence].
  apply Hmem, prefixes_spec. done.
Qed.

Lemma batch_migrate_skips_taxonomy_witness :
  exists n st',
    batch_migrate test_data false None [] = Some (n, st') /\
    taxonomy_invariant st' = false.
Proof.
  apply (batch_migrate_skips_taxonomy test_data None []
           (CheatSheet "test3" "Test content 3 without path" ["git"; "version-control"]
              None "Test cheatsheet 3 without path" "2025-03-16T12:00:00"
              "2025-03-16T12:00:00")).
  - vm_compute. do 2 apply list_elem_of_further. apply list_elem_of_here.
  - reflexivity.
  - vm_compute. reflexivity.
Defined.


Example batch_migrate_modify :
  batch_migrate test_data true None ["M"; " Tools , Git "] =
  Some (1, {| cheatsheets :=
                [ CheatSheet "test1" "Test content 1" ["python"; "testing"]
                    (Some ["Computers"; "Programming"; "Python"; "Testing"])
                    "Test cheatsheet 1" "2025-03-16T12:00:00" "2025-03-16T12:00:00";
                  CheatSheet "test2" "Test content 2" ["bash"; "terminal"]
                    (Some ["Computers"; "Shell"; "Bash"])
                    "Test cheatsheet 2" "2025-03-16T12:00:00" "2025-03-16T12:00:00";
                  CheatSheet "test3" "Test content 3 without path"
                    ["git"; "version-control"] (Some ["Tools"; "Git"])
                    "Test cheatsheet 3 without path" "2025-03-16T12:00:00"
                    "2025-03-16T12:00:00" ];
              keyword_taxonomy := keyword_taxonomy test_data |}).
Proof. vm_compute. reflexivity. Qed.

(** ** The ranking of the semantic search *)

Section Ranking.

Lemma zip_seq_map {B} (f : nat -> B) (l : list nat) :
  zip l (map f l) = map (fun i => (i, f i)) l.
Proof. induction l as [|x l IH]; simpl; [done | by rewrite IH]. Qed.

Lemma omap_if_filter {A B} (p : A -> bool) (g : A -> option B) (l : list A) :
  omap (fun x => if p x then g x else None) l = omap g (List.filter p l).
Proof.
  induction l as [|x l IH]; [done|]. cbn [List.filter].
  destruct (p x) eqn:E; csimpl; rewrite ?E; by rewrite IH.
Qed.

Lemma omap_map_fst {B} (f : nat -> Q) (g : nat -> option B) (l : list nat) :
  omap (fun p : nat * Q => g (fst p)) (map (fun i => (i, f i)) l) = omap g l.
Proof. induction l as [|x l IH]; [done|]. csimpl. by rewrite IH. Qed.

(** When the library answers, the result is read off the sorted positive
    positions. *)
Lemma semantic_search_ranked rt docs query keyword_path0 :
  candidates_of docs keyword_path0 <> [] ->
  _tokenize query <> [] ->
  sklearn_answers rt docs keyword_path0 = true ->
  semantic_search rt docs query keyword_path0 =
  ([], Return (omap (fun i => candidates_of docs keyword_path0 !! i)
                 (sort_desc (semantic_score rt docs query keyword_path0)
                    (positive_positions rt docs query keyword_path0)))).
Proof.
  unfold sklearn_answers, positive_positions, semantic_score, semantic_search.
  fold (candidates_of docs keyword_path0).
  intros Hc Ht Hrt. apply andb_true_iff in Hrt as [Himp Hfit].
  apply andb_true_iff in Himp as [-> ->].
  destruct (candidates_of docs keyword_path0) as [|c0 cands] eqn:Hcands; [done|].
  rewrite <- Hcands in *.
  destruct (_tokenize query) as [|t ts] eqn:Htoks; [done|]. rewrite <- Htoks in *.
  cbv zeta. cbn [negb].
  destruct (fit_raises rt _); [done|].
  rewrite !List.length_map, List.length_seq.
  set (score := cosine_similarity rt
                  (map corpus_text (candidates_of docs keyword_path0))
                  (join_space (_tokenize query))).
  rewrite (zip_seq_map score), (sort_desc_map score).
  rewrite <- (sort_desc_filter score).
  rewrite (omap_if_filter (fun p : nat * Q => Qltb 0 (snd p))
             (fun p => candidates_of docs keyword_path0 !! fst p)).
  rewrite (filter_map_pair (fun i => (i, score i))).
  by rewrite (omap_map_fst score (fun i => candidates_of docs keyword_path0 !! i)).
Qed.

End Ranking.

(** X29. When the library answers (both imports succeed and fitting does
    not raise), the candidate set is not empty and the query has tokens,
    [semantic_search] prints nothing and returns the candidates at the
    positions with a positive similarity, every such position once, in an
    order in which the similarity never increases and positions with equal
    similarity keep the candidate order. *)
Theorem semantic_search_ranking rt docs query keyword_path0 :
  candidates_of docs keyword_path0 <> [] ->
  _tokenize query <> [] ->
  sklearn_answers rt docs keyword_path0 = true ->
  exists positions,
    semantic_search rt docs query keyword_path0 =
      ([], Return (omap (fun i => candidates_of docs keyword_path0 !! i) positions)) /\
    positions ≡ₚ positive_positions rt docs query keyword_path0 /\
    StronglySorted
      (fun i j => (semantic_score rt docs query keyword_path0 j <=
                   semantic_score rt docs query keyword_path0 i)%Q) positions /\
    forall score,
      List.filter (fun i => Qeq_bool (semantic_score rt docs query keyword_path0 i) score)
        positions =
      List.filter (fun i => Qeq_bool (semantic_score rt docs query keyword_path0 i) score)
        (positive_positions rt docs query keyword_path0).
Proof.
  intros Hc Ht Hrt.
  exists (sort_desc (semantic_score rt docs query keyword_path0)
            (positive_positions rt docs query keyword_path0)).
  split; [by apply semantic_search_ranked|]. split; [apply sort_desc_perm|].
  split.
  - apply (sort_desc_sorted (semantic_score rt docs query keyword_path0)).
  - intros score. apply (sort_desc_stable (semantic_score rt docs query keyword_path0)).
Qed.

Lemma semantic_search_ranking_witness :
  exists positions,
    semantic_search example_runtime example_docs "git" None =
      ([], Return (omap (fun i => candidates_of example_docs None !! i) positions)) /\
    positions ≡ₚ positive_positions example_runtime example_docs "git" None /\
    StronglySorted
      (fun i j => (semantic_score example_runtime example_docs "git" None j <=
                   semantic_score example_runtime example_docs "git" None i)%Q)
      positions /\
    forall score,
      List.filter
        (fun i => Qeq_bool (semantic_score example_runtime example_docs "git" None i)
                    score) positions =
      List.filter
        (fun i => Qeq_bool (semantic_score example_runtime example_docs "git" None i)
                    score)
        (positive_positions example_runtime example_docs "git" None).
Proof.
  apply (semantic_search_ranking example_runtime example_docs "git" None);
    vm_compute; done.
Defined.

Example semantic_search_ranked_example :
  semantic_search example_runtime example_docs "git" None =
  ([], Return [bash_tips; git_basics]).
Proof. vm_compute. reflexivity. Qed.

(** ** The range of the fuzzy score *)

Section MatcherBounds.

Variables a b : list ascii.

Lemma j2lenget_bound_b blo bhi j2len j :
  row_ok_b blo bhi j2len -> blo <= j -> Difflib.j2lenget j2len j + 1 <= j + 1 - blo.
Proof.
  intros H Hj. destruct j as [|j']; simpl; [lia|].
  destruct (j2len !! j') as [v|] eqn:Hv; simpl; [|lia].
  destruct (H j' v Hv) as (? & ? & ?). lia.
Qed.

Lemma scan_row_ok_b i blo bhi js j2len : forall newj2len best,
  row_ok_b blo bhi j2len ->
  row_ok_b blo bhi newj2len ->
  best_ok_b blo bhi best ->
  row_ok_b blo bhi (fst (Difflib.scan_row i blo bhi js j2len newj2len best)) /\
  best_ok_b blo bhi (snd (Difflib.scan_row i blo bhi js j2len newj2len best)).
Proof.
  induction js as [|j js' IH]; intros newj2len best Hprev Hnew Hbest; simpl; [done|].
  destruct (Nat.ltb_spec j blo); [by apply IH|].
  destruct (Nat.leb_spec bhi j); [done|].
  pose proof (j2lenget_bound_b _ _ _ j Hprev ltac:(lia)) as Hk.
  apply IH; [done| |].
  - apply map_Forall_insert_2; [lia | done].
  - destruct (Nat.ltb_spec (snd best) (Difflib.j2lenget j2len j + 1)); [|done].
    unfold best_ok_b. simpl. lia.
Qed.

Lemma scan_rows_ok_b rows blo bhi : forall j2len best,
  row_ok_b blo bhi j2len ->
  best_ok_b blo bhi best ->
  best_ok_b blo bhi (Difflib.scan_rows a b rows blo bhi j2len best).
Proof.
  induction rows as [|i rows IH]; intros j2len best Hprev Hbest; simpl; [done|].
  set (js := match a !! i with Some elt => Difflib.b2j b elt | None => [] end).
  destruct (scan_row_ok_b i blo bhi js j2len ∅ best) as [Hrow Hb]; try done.
  destruct (Difflib.scan_row i blo bhi js j2len ∅ best) as [newj2len best'].
  by apply IH.
Qed.

Lemma extend_left_ok_b n want alo blo bhi : forall best,
  best_ok_b blo bhi best ->
  best_ok_b blo bhi (Difflib.extend_left a b n want alo blo best).
Proof.
  induction n as [|n IH]; intros [[besti bestj] bestsize] Hbest; simpl; [done|].
  destruct (Nat.ltb alo besti); simpl; [|done].
  destruct (Nat.ltb_spec blo bestj); simpl; [|done].
  destruct (_ && _); [|done].
  apply IH. unfold best_ok_b in *. simpl in *. lia.
Qed.

Lemma extend_right_ok_b n want ahi blo bhi : forall best,
  best_ok_b blo bhi best ->
  best_ok_b blo bhi (Difflib.extend_right a b n want ahi bhi best).
Proof.
  induction n as [|n IH]; intros [[besti bestj] bestsize] Hbest; simpl; [done|].
  destruct (Nat.ltb (besti + bestsize) ahi); simpl; [|done].
  destruct (Nat.ltb_spec (bestj + bestsize) bhi); simpl; [|done].
  destruct (_ && _); [|done].
  apply IH. unfold best_ok_b in *. simpl in *. lia.
Qed.

Lemma find_longest_match_bounds_b alo ahi blo bhi :
  blo <= bhi -> best_ok_b blo bhi (Difflib.find_longest_match a b alo ahi blo bhi).
Proof.
  intros Hle. unfold Difflib.find_longest_match.
  apply extend_right_ok_b, extend_left_ok_b, extend_right_ok_b, extend_left_ok_b.
  apply scan_rows_ok_b.
  - intros j v Hv. by rewrite lookup_empty in Hv.
  - unfold best_ok_b. simpl. lia.
Qed.

Lemma block_total_app blocks blocks' :
  block_total (blocks ++ blocks') = block_total blocks + block_total blocks'.
Proof.
  induction blocks as [|x r IH]; simpl; [done|]. rewrite IH. lia.
Qed.

(** The blocks found never cover more than the ranges that were to be
    visited, on either side. *)
Lemma blocks_loop_size fuel : forall queue blocks result,
  Difflib.blocks_loop a b fuel queue blocks = Some result ->
  ranges_ok queue ->
  block_total result <= block_total blocks + work_a queue /\
  block_total result <= block_total blocks + work_b queue.
Proof.
  induction fuel as [|fuel IH]; intros queue blocks result Hrun Hok.
  - destruct queue as [|[[[alo ahi] blo] bhi] queue']; [|done].
    injection Hrun as <-. simpl. lia.
  - destruct queue as [|[[[alo ahi] blo] bhi] queue'].
    { injection Hrun as <-. simpl. lia. }
    apply Forall_cons in Hok as [[Hla Hlb] Hok']. cbn [Difflib.blocks_loop] in Hrun.
    pose proof (find_longest_match_bounds a b alo ahi blo bhi Hla) as Ha.
    pose proof (find_longest_match_bounds_b alo ahi blo bhi Hlb) as Hb.
    destruct (Difflib.find_longest_match a b alo ahi blo bhi) as [[i j] k].
    unfold best_ok in Ha. unfold best_ok_b in Hb. simpl in Ha, Hb.
    destruct (Nat.ltb_spec 0 k) as [Hk|Hk].
    + apply IH in Hrun.
      * rewrite block_total_app in Hrun. simpl in Hrun.
        destruct (Nat.ltb_spec (i + k) ahi), (Nat.ltb_spec (j + k) bhi),
          (Nat.ltb_spec alo i), (Nat.ltb_spec blo j); simpl in Hrun |- *; lia.
      * destruct (Nat.ltb_spec (i + k) ahi), (Nat.ltb_spec (j + k) bhi),
          (Nat.ltb_spec alo i), (Nat.ltb_spec blo j); simpl;
          repeat (apply Forall_cons; split); try done; lia.
    + apply IH in Hrun; [|done]. simpl. lia.
Qed.

Lemma matches_bounds :
  Difflib.matches a b <= length a /\ Difflib.matches a b <= length b.
Proof.
  unfold Difflib.matches.
  destruct (Difflib.get_matching_blocks a b) as [blocks|] eqn:E; [|lia].
  apply blocks_loop_size in E.
  - change (foldr _ 0 blocks) with (block_total blocks). simpl in E. lia.
  - apply Forall_cons. split; [lia | constructor].
Qed.

Lemma ratio_le_1 : (Difflib.ratio a b <= 1)%Q.
Proof.
  unfold Difflib.ratio. destruct (length a + length b) as [|n] eqn:E; [done|].
  pose proof matches_bounds as [Ha Hb].
  unfold Qle. simpl Qnum. simpl Qden.
  rewrite Z.mul_1_r, Z.mul_1_l, <- Pos.of_nat_succ, Zpos_P_of_succ_nat. lia.
Qed.

End MatcherBounds.

(** X30. The score of [fuzzy_search] lies between 0 and 1, as the
    threshold is documented to: a threshold above 1 selects no sheet, and
    a threshold of 0 or below selects every sheet of the document set. *)
Theorem fuzzy_score_range docs query (threshold : Q) :
  (forall cs, (0 <= fuzzy_score query cs)%Q /\ (fuzzy_score query cs <= 1)%Q) /\
  ((1 < threshold)%Q -> fuzzy_search docs query threshold = []) /\
  ((threshold <= 0)%Q -> fuzzy_search docs query threshold ≡ₚ docs).
Proof.
  assert (Hrange : forall cs,
            (0 <= fuzzy_score query cs)%Q /\ (fuzzy_score query cs <= 1)%Q).
  { intros cs. unfold fuzzy_score.
    destruct (max_similarity_spec (lower query) cs) as [Hub (label & _ & Heq)].
    split.
    - eapply Qle_trans; [|apply (Hub (name cs)), list_elem_of_here].
      apply ratio_nonneg.
    - rewrite Heq. apply ratio_le_1. }
  split; [done|]. split.
  - intros Hthr. rewrite fuzzy_search_sorted_kept. unfold fuzzy_kept.
    rewrite filter_none; [done|]. intros cs.
    destruct (Qle_bool threshold (fuzzy_score query cs)) eqn:E; [|done].
    apply Qle_bool_iff in E. destruct (Hrange cs) as [_ H1]. exfalso.
    apply (Qlt_irrefl 1). eapply Qlt_le_trans; [exact Hthr|]. by eapply Qle_trans.
  - intros Hthr. rewrite fuzzy_search_sorted_kept, sort_desc_perm. unfold fuzzy_kept.
    rewrite filter_all; [done|]. intros cs. apply Qle_bool_iff.
    destruct (Hrange cs) as [H0 _]. by eapply Qle_trans.
Qed.
